(** * The pin-ordered event aggregator and the private batch dispatcher

    A shallow embedding of [internal/events/aggregator.go] and of the
    private-messaging dispatcher ([sendData], [transferBlobs] and the
    operation handlers), with the properties the specification states
    about them.

    Conventions of the embedding.
    - Go's [int64] and [int] are [Z]; arithmetic that can leave the 64-bit
      range is wrapped with [wrap64].
    - A Go pointer is an [option] where the code tests it against [nil] or
      compares it with the nil-safe [Equals]; where the code dereferences
      it unconditionally the pointed-to value is used.
    - Collaborators that the code reaches through an interface (database
      plugin, identity manager, data manager, definition handlers,
      operations manager, data exchange) are fields of a type class over an
      abstract world [W]; every call takes the world and returns the new
      one.
    - [(value, error)] returns are the [result] type; Go's early returns are
      binds of the state-and-error monad [M].
    - The [trace] of a state is a ghost log of the calls the properties talk
      about; no result depends on it. *)

From Stdlib Require Import ZArith Lia Ascii Sorted.
From stdpp Require Import base option list gmap strings.

(** ** Go primitives *)

Module go.

Local Open Scope Z_scope.

(** Two's complement wrap-around of a 64-bit signed integer. *)
Definition wrap64 (z : Z) : Z := (z + 2 ^ 63) mod 2 ^ 64 - 2 ^ 63.

Definition int64 (z : Z) : Prop := - 2 ^ 63 <= z < 2 ^ 63.

Definition Error := string.

(** [(value, error)] of a Go call; [Panic] is a run-time panic (index out
    of range), which unwinds like an error but is not an [error] value. *)
Inductive result (A : Type) : Type :=
| Ok (a : A)
| Err (e : Error)
| Panic.

Arguments Ok {A} a.
Arguments Err {A} e.
Arguments Panic {A}.

(** State-and-error monad: the state survives an error, as the mutations
    of a Go function survive its error return. *)
Definition M (S A : Type) : Type := S -> result A * S.

Definition ret {S A : Type} (a : A) : M S A := fun s => (Ok a, s).

Definition bind {S A B : Type} (m : M S A) (k : A -> M S B) : M S B :=
  fun s =>
    match m s with
    | (Ok a, s') => k a s'
    | (Err e, s') => (Err e, s')
    | (Panic, s') => (Panic, s')
    end.

Definition fail {S A : Type} (e : Error) : M S A := fun s => (Err e, s).

Definition panic {S A : Type} : M S A := fun s => (Panic, s).

Definition get {S : Type} : M S S := fun s => (Ok s, s).

Definition modify {S : Type} (f : S -> S) : M S unit := fun s => (Ok tt, f s).

(** [for _, x := range l { body }] where the body returns an error to
    leave the loop early; the loop variables live in [acc]. *)
Fixpoint forRange {S A X : Type} (body : A -> X -> M S A) (l : list X) (acc : A)
  : M S A :=
  match l with
  | [] => ret acc
  | x :: l' => bind (body acc x) (forRange body l')
  end.

(** A computation keeps the relation [R] between the state it starts in and
    the state it ends in, however it ends. *)
Definition preserves {S A : Type} (R : S -> S -> Prop) (m : M S A) : Prop :=
  forall s, R s (m s).2.

End go.

Import go.

Declare Scope go_scope.
Delimit Scope go_scope with go.
Notation "'do' x <- c1 ; c2" := (bind c1 (fun x => c2))
  (at level 10, x name, c1 at level 100, c2 at level 200) : go_scope.
Notation "'do' ' pat <- c1 ; c2" :=
  (bind c1 (fun x => match x with pat => c2 end))
  (at level 10, pat pattern, c1 at level 100, c2 at level 200) : go_scope.
Notation "'run' c1 ; c2" := (bind c1 (fun _ => c2))
  (at level 10, c1 at level 100, c2 at level 200) : go_scope.

(** ** The data model ([pkg/fftypes]) *)

Module fftypes.

(** Modelled from the spec: of this package only [event.go] and
    [transport_wrapper.go] are under src. The other records follow the data
    model of the specification (message, data record, blob, persisted
    batch, pin, operation) and carry the fields that the aggregator and the
    dispatcher read, under the names by which they read them; [Equals] is
    the comparison of two identifiers or hashes through their pointers. *)

Abbreviation UUID := N (only parsing).
Abbreviation Bytes32 := N (only parsing).
Abbreviation FFTime := Z (only parsing).

(** [Equals] of a [UUID] or [Bytes32] pointer: a comparison by value that
    accepts nil receivers and arguments; two nil pointers are equal. *)
Definition Equals (a b : option N) : bool :=
  match a, b with
  | None, None => true
  | Some x, Some y => bool_decide (x = y)
  | _, _ => false
  end.

Module MessageManifestEntry.
(** [MessageRef] ([ID], [Hash]) and the number of topics of the message. *)
Record t : Type := mk {
  ID : UUID;
  Hash : option Bytes32;
  Topics : Z
}.
End MessageManifestEntry.

Module DataRef.
Record t : Type := mk {
  ID : UUID;
  Hash : option Bytes32
}.
End DataRef.

Inductive TransactionType : Type :=
| TransactionTypeNone
| TransactionTypeUnpinned
| TransactionTypeBatchPin
| TransactionTypeTokenPool
| TransactionTypeTokenTransfer
| TransactionTypeContractInvoke
| TransactionTypeTokenApproval.

#[export] Instance TransactionType_eq_dec : EqDecision TransactionType.
Proof. solve_decision. Defined.

Module TransactionRef.
Record t : Type := mk {
  Type_ : TransactionType;
  ID : option UUID
}.
End TransactionRef.

(** Modelled from the spec: the manifest version constants are not under
    src; the modern manifest carries [version:1], the legacy full-payload
    form carries no version (the zero value of the unsigned field). *)
Definition ManifestVersionUnset : N := 0.
Definition ManifestVersion1 : N := 1.

Module BatchManifest.
Record t : Type := mk {
  Version : N;
  ID : option UUID;
  TX : TransactionRef.t;
  Messages : list MessageManifestEntry.t;
  Data : list DataRef.t
}.
End BatchManifest.

Inductive MessageType : Type :=
| MessageTypeDefinition
| MessageTypeBroadcast
| MessageTypePrivate
| MessageTypeGroupInit
| MessageTypeTransferBroadcast
| MessageTypeTransferPrivate.

#[export] Instance MessageType_eq_dec : EqDecision MessageType.
Proof. solve_decision. Defined.

(** [MessageStateUnset] is the empty string that the aggregator returns
    when nothing was dispatched. *)
Inductive MessageState : Type :=
| MessageStateUnset
| MessageStateStaged
| MessageStateReady
| MessageStateSent
| MessageStatePending
| MessageStateConfirmed
| MessageStateRejected.

Module MessageHeader.
Record t : Type := mk {
  ID : UUID;
  CID : option UUID;
  Type_ : MessageType;
  TxType : TransactionType;
  Author : string;
  Key : string;
  Created : FFTime;
  Namespace : string;
  Group : option Bytes32;
  Topics : list string;
  Tag : string;
  DataHash : option Bytes32
}.
End MessageHeader.

Module Message.
Record t : Type := mk {
  Header : MessageHeader.t;
  Hash : option Bytes32;
  BatchID : option UUID;
  State : MessageState;
  Confirmed : option FFTime;
  Data : list DataRef.t;
  Pins : list string
}.
End Message.

Module BlobRef.
Record t : Type := mk {
  Hash : option Bytes32;
  Size : Z;
  Name : string;
  Public : string
}.
End BlobRef.

Module Data.
Record t : Type := mk {
  ID : UUID;
  Validator : string;
  Namespace : string;
  Hash : option Bytes32;
  Created : FFTime;
  Value : string;
  Blob : option BlobRef.t
}.
End Data.

Module Blob.
Record t : Type := mk {
  Hash : option Bytes32;
  Size : Z;
  PayloadRef : string;
  Created : FFTime
}.
End Blob.

Module BatchPayload.
Record t : Type := mk {
  TX : TransactionRef.t;
  Messages : list Message.t;
  Data : list Data.t
}.
End BatchPayload.

(** A persisted batch: the header, the hash, the manifest as stored JSON
    (a nil [JSONAny] is [None]) and the transaction reference. *)
Module BatchPersisted.
Record t : Type := mk {
  ID : option UUID;
  Namespace : string;
  Author : string;
  Key : string;
  Group : option Bytes32;
  Created : FFTime;
  Hash : option Bytes32;
  Manifest : option string;
  TX : TransactionRef.t;
  PayloadRef : string
}.
End BatchPersisted.

(** An in-flight batch: the header, the hash and the full payload. *)
Module Batch.
Record t : Type := mk {
  ID : option UUID;
  Namespace : string;
  Author : string;
  Key : string;
  Group : option Bytes32;
  Created : FFTime;
  Hash : option Bytes32;
  Payload : BatchPayload.t
}.
End Batch.

Module Group.
Record t : Type := mk {
  Namespace : string;
  Name : string;
  Members : list (string * option UUID);
  Hash : option Bytes32
}.
End Group.

Module TransportWrapper.
Record t : Type := mk {
  Group : option Group.t;
  Batch : Batch.t
}.
End TransportWrapper.

Module Pin.
Record t : Type := mk {
  Sequence : Z;
  Masked : bool;
  Hash : option Bytes32;
  Batch : option UUID;
  BatchHash : option Bytes32;
  Index : Z;
  Dispatched : bool;
  Signer : string;
  Created : FFTime
}.
End Pin.

Inductive IdentityType : Type :=
| IdentityTypeOrg
| IdentityTypeNode
| IdentityTypeCustom.

Definition JSONObject : Type := list (string * string).

(** [JSONObject.GetString]: the string under a key, empty when absent. *)
Fixpoint GetString (o : JSONObject) (key : string) : string :=
  match o with
  | [] => ""
  | (k, v) :: o' => if String.eqb k key then v else GetString o' key
  end.

Module Identity.
Record t : Type := mk {
  ID : option UUID;
  DID : string;
  Type_ : IdentityType;
  Parent : option UUID;
  Namespace : string;
  Name : string;
  Profile : JSONObject
}.
End Identity.

Module VerifierRef.
Record t : Type := mk {
  Type_ : string;
  Value : string
}.
End VerifierRef.

Module TokenTransfer.
Record t : Type := mk {
  LocalID : option UUID;
  Message : option UUID;
  MessageHash : option Bytes32
}.
End TokenTransfer.

(** The event types of [pkg/fftypes/event.go]. *)
Inductive EventType : Type :=
| EventTypeTransactionSubmitted
| EventTypeMessageConfirmed
| EventTypeMessageRejected
| EventTypeNamespaceConfirmed
| EventTypeDatatypeConfirmed
| EventTypeIdentityConfirmed
| EventTypeIdentityUpdated
| EventTypePoolConfirmed
| EventTypeTransferConfirmed
| EventTypeTransferOpFailed
| EventTypeApprovalConfirmed
| EventTypeApprovalOpFailed
| EventTypeContractInterfaceConfirmed
| EventTypeContractAPIConfirmed
| EventTypeBlockchainEventReceived.

Module Event.
Record t : Type := mk {
  ID : UUID;
  Sequence : Z;
  Type_ : EventType;
  Namespace : string;
  Reference : option UUID;
  Correlator : option UUID;
  Transaction : option UUID;
  Topic : string;
  Created : FFTime
}.

Definition withCorrelator (c : option UUID) (e : t) : t :=
  mk (ID e) (Sequence e) (Type_ e) (Namespace e) (Reference e) c
     (Transaction e) (Topic e) (Created e).
End Event.

(** [NewEvent], given the identifier and the time it draws. *)
Definition NewEvent (id : UUID) (now : FFTime) (t : EventType) (ns : string)
    (ref tx : option UUID) (topic : string) : Event.t :=
  {| Event.ID := id; Event.Sequence := 0; Event.Type_ := t;
     Event.Namespace := ns; Event.Reference := ref;
     Event.Correlator := None; Event.Transaction := tx;
     Event.Topic := topic; Event.Created := now |}.

Inductive OpType : Type :=
| OpTypeBlockchainPinBatch
| OpTypeDataExchangeSendBatch
| OpTypeDataExchangeSendBlob
| OpTypeOther (name : string).

Inductive OpStatus : Type :=
| OpStatusPending
| OpStatusSucceeded
| OpStatusFailed.

Module Operation.
Record t : Type := mk {
  ID : UUID;
  Namespace : string;
  Transaction : option UUID;
  Type_ : OpType;
  Status : OpStatus;
  Plugin : string;
  Input : JSONObject;
  Created : FFTime
}.

Definition withInput (i : JSONObject) (o : t) : t :=
  mk (ID o) (Namespace o) (Transaction o) (Type_ o) (Status o) (Plugin o) i
     (Created o).
End Operation.

(** Modelled from the spec: [fftypes.NewOperation] is not under src; an
    operation is a record with a fresh UUID, a type, the plugin name, an
    input object and the status pending. *)
Definition NewOperation (id : UUID) (now : FFTime) (plugin ns : string)
    (tx : option UUID) (opType : OpType) : Operation.t :=
  {| Operation.ID := id; Operation.Namespace := ns;
     Operation.Transaction := tx; Operation.Type_ := opType;
     Operation.Status := OpStatusPending; Operation.Plugin := plugin;
     Operation.Input := []; Operation.Created := now |}.

End fftypes.

Import fftypes.

(** ** Collaborators *)

Module database.

(** Modelled from the spec: the filter builder and its evaluation by the
    database plugin are not under src. A filter is a condition over named
    fields, an ordering and a limit; the store answers a query with the
    rows that satisfy the condition, in the requested order, cut at the
    limit. Only the fields the aggregator queries are given a meaning. *)
Inductive FieldValue : Type :=
| VNull
| VUUID (u : UUID)
| VBytes32 (h : Bytes32)
| VBool (b : bool)
| VInt64 (z : Z).

#[export] Instance FieldValue_eq_dec : EqDecision FieldValue.
Proof. solve_decision. Defined.

#[warnings="-register-all"]
Inductive FilterCond : Type :=
| CondEq (field : string) (v : FieldValue)
| CondIn (field : string) (vs : list FieldValue)
| CondAnd (cs : list FilterCond).

Module Filter.
Record t : Type := mk {
  Cond : FilterCond;
  SortBy : list string;
  LimitTo : nat
}.
End Filter.

Definition Eq (field : string) (v : FieldValue) : FilterCond := CondEq field v.
Definition In (field : string) (vs : list FieldValue) : FilterCond := CondIn field vs.
Definition And (cs : list FilterCond) : Filter.t := Filter.mk (CondAnd cs) [] 0.
Definition Where (c : FilterCond) : Filter.t := Filter.mk c [] 0.
Definition Sort (field : string) (f : Filter.t) : Filter.t :=
  Filter.mk (Filter.Cond f) (Filter.SortBy f ++ [field]) (Filter.LimitTo f).
Definition Limit (n : nat) (f : Filter.t) : Filter.t :=
  Filter.mk (Filter.Cond f) (Filter.SortBy f) n.

Definition ofUUID (u : option UUID) : FieldValue :=
  match u with Some x => VUUID x | None => VNull end.
Definition ofBytes32 (h : option Bytes32) : FieldValue :=
  match h with Some x => VBytes32 x | None => VNull end.

(** A null field equals only the null literal ([IS NULL]) and belongs to
    no list. *)
Fixpoint holds (get : string -> FieldValue) (c : FilterCond) : bool :=
  match c with
  | CondEq f v => bool_decide (get f = v)
  | CondIn f vs =>
      match get f with
      | VNull => false
      | x => existsb (fun v => bool_decide (x = v)) vs
      end
  | CondAnd cs => forallb (holds get) cs
  end.

Definition pinField (p : Pin.t) (f : string) : FieldValue :=
  if String.eqb f "batch" then ofUUID (Pin.Batch p)
  else if String.eqb f "dispatched" then VBool (Pin.Dispatched p)
  else if String.eqb f "sequence" then VInt64 (Pin.Sequence p)
  else if String.eqb f "index" then VInt64 (Pin.Index p)
  else if String.eqb f "masked" then VBool (Pin.Masked p)
  else VNull.

Definition dataField (d : Data.t) (f : string) : FieldValue :=
  if String.eqb f "id" then VUUID (Data.ID d)
  else if String.eqb f "blob.hash"
  then match Data.Blob d with
       | Some b => ofBytes32 (BlobRef.Hash b)
       | None => VNull
       end
  else VNull.

Definition messageField (m : Message.t) (f : string) : FieldValue :=
  if String.eqb f "id" then VUUID (MessageHeader.ID (Message.Header m))
  else if String.eqb f "confirmed"
  then match Message.Confirmed m with
       | Some t => VInt64 t
       | None => VNull
       end
  else if String.eqb f "batch" then ofUUID (Message.BatchID m)
  else VNull.

(** Ascending insertion sort of pins on their sequence. *)
Fixpoint insertBySequence (p : Pin.t) (l : list Pin.t) : list Pin.t :=
  match l with
  | [] => [p]
  | q :: l' =>
      if (Pin.Sequence p <=? Pin.Sequence q)%Z then p :: q :: l'
      else q :: insertBySequence p l'
  end.

Definition sortBySequence (l : list Pin.t) : list Pin.t :=
  foldr insertBySequence [] l.

(** The order of that sort. *)
Definition bySequence (p q : Pin.t) : Prop :=
  (Pin.Sequence p <= Pin.Sequence q)%Z.

Definition cut {A : Type} (n : nat) (l : list A) : list A :=
  match n with O => l | _ => take n l end.

Definition evalPins (f : Filter.t) (rows : list Pin.t) : list Pin.t :=
  let matching := List.filter (fun p => holds (pinField p) (Filter.Cond f)) rows in
  let sorted :=
    if bool_decide (Filter.SortBy f = ["sequence"]) then sortBySequence matching
    else matching in
  cut (Filter.LimitTo f) sorted.

Definition evalDataRefs (f : Filter.t) (rows : list Data.t) : list DataRef.t :=
  map (fun d => DataRef.mk (Data.ID d) (Data.Hash d))
    (cut (Filter.LimitTo f)
       (List.filter (fun d => holds (dataField d) (Filter.Cond f)) rows)).

(** Messages that carry a data reference to [dataID] and satisfy [f]. *)
Definition evalMessagesForData (dataID : UUID) (f : Filter.t)
    (rows : list Message.t) : list Message.t :=
  cut (Filter.LimitTo f)
    (List.filter
       (fun m =>
          existsb (fun r => bool_decide (DataRef.ID r = dataID)) (Message.Data m)
          && holds (messageField m) (Filter.Cond f))
       rows).

(** The database plugin over a world [W]. The tables behind the three
    queries whose answers the properties depend on are observers of the
    world; [dbFault] decides whether one of those queries fails. *)
Class Plugin (W : Type) : Type := {
  dbFault : W -> option Error * W;
  pinsTable : W -> list Pin.t;
  dataTable : W -> list Data.t;
  messagesTable : W -> list Message.t;
  beginGroup : W -> option Error * W;
  commitGroup : W -> option Error * W;
  rollbackGroup : W -> W;
  GetBatchByID : option UUID -> W -> result (option BatchPersisted.t) * W;
  GetBlobMatchingHash : option Bytes32 -> W -> result (option Blob.t) * W;
  GetTokenTransfers : Filter.t -> W -> result (list TokenTransfer.t) * W;
  InsertEvent : Event.t -> W -> option Error * W
}.

Section queries.
Context {W : Type} `{!Plugin W}.

Definition query {A : Type} (eval : W -> A) (w : W) : result A * W :=
  match dbFault w with
  | (Some e, w') => (Err e, w')
  | (None, w') => (Ok (eval w'), w')
  end.

Definition GetPins (f : Filter.t) : W -> result (list Pin.t) * W :=
  query (fun w => evalPins f (pinsTable w)).

Definition GetDataRefs (f : Filter.t) : W -> result (list DataRef.t) * W :=
  query (fun w => evalDataRefs f (dataTable w)).

Definition GetMessagesForData (dataID : UUID) (f : Filter.t)
  : W -> result (list Message.t) * W :=
  query (fun w => evalMessagesForData dataID f (messagesTable w)).
End queries.

End database.

Module identity.
Class Manager (W : Type) : Type := {
  FindIdentityForVerifier :
    list IdentityType -> string -> VerifierRef.t -> W ->
    result (option Identity.t) * W;
  GetNodeOwnerOrg : W -> result Identity.t * W
}.
End identity.

Module data.
Inductive CacheReadOption : Type :=
| CRORequirePins
| CRORequirePublicBlobRefs.

Class Manager (W : Type) : Type := {
  GetMessageWithDataCached :
    UUID -> CacheReadOption -> W -> result (Message.t * list Data.t * bool) * W;
  ValidateAll : list Data.t -> W -> result bool * W
}.
End data.

Module definitions.
Inductive DefinitionMessageAction : Type :=
| ActionReject
| ActionConfirm
| ActionRetry
| ActionWait.

#[export] Instance DefinitionMessageAction_eq_dec : EqDecision DefinitionMessageAction.
Proof. solve_decision. Defined.

Module HandlerResult.
Record t : Type := mk {
  Action : DefinitionMessageAction;
  CustomCorrelator : option UUID
}.
End HandlerResult.

(** The definition handlers see the batch state through the
    [DefinitionBatchState] interface: they read the pending confirmations
    and register closures with [AddPreFinalize] and [AddFinalize]. The
    closures they register are values of [HPre] and [HFin], run by
    [runPreFinalize] and [runFinalize]. The handler returns its result
    together with an error that is only looked at for [ActionRetry]. *)
Class DefinitionHandlers (W HPre HFin : Type) : Type := {
  HandleDefinitionBroadcast :
    gmap UUID Message.t -> Message.t -> list Data.t -> option UUID -> W ->
    (HandlerResult.t * option Error) * (list HPre * list HFin) * W;
  runPreFinalize : HPre -> W -> option Error * W;
  runFinalize : HFin -> W -> option Error * W
}.
End definitions.

Module metrics.
Class Manager (W : Type) : Type := {
  IsMetricsEnabled : W -> bool;
  MessageConfirmed : Message.t -> EventType -> W -> W
}.
End metrics.

(** What the code takes from libraries and from constants that are not
    under src: hashing, text and JSON codecs, the system tags. *)
Class Codec : Type := {
  sha256 : string -> Bytes32;
  ParseBytes32 : string -> option Bytes32;
  UUIDString : option UUID -> string;
  Bytes32String : option Bytes32 -> string;
  UnmarshalBatchManifest : option string -> option BatchManifest.t;
  UnmarshalBatchPayload : option string -> option BatchPayload.t;
  MarshalTransportWrapper : TransportWrapper.t -> result string;
  SystemTagIdentityClaim : string;
  DeprecatedSystemTagDefineNode : string;
  DeprecatedSystemTagDefineOrganization : string
}.

(** Identifier and clock sources, the cancellation of the root context and
    the passing of time between two retries. *)
Class Runtime (W : Type) : Type := {
  NewUUID : W -> UUID * W;
  Now : W -> FFTime * W;
  ctxDone : W -> bool;
  sleep : W -> W
}.

(** ** [internal/events/aggregator.go] *)

Module events.

Import database identity data definitions metrics.

Local Open Scope Z_scope.
Local Open Scope go_scope.

(** *** [extractBatchMessagePin] *)

(** The three named results [(totalBatchPins, msgEntry, msgBaseIndex)]. *)
Definition PinWalk : Type := Z * option MessageManifestEntry.t * Z.

(** One turn of the inner loop [for i := 0; i < batchMsg.Topics; i++]. *)
Definition pinStep (requiredIndex : Z) (batchMsg : MessageManifestEntry.t)
    (batchMsgBaseIdx : Z) (acc : PinWalk) : PinWalk :=
  let '(totalBatchPins, msgEntry, msgBaseIndex) := acc in
  let '(msgEntry, msgBaseIndex) :=
    if totalBatchPins =? requiredIndex
    then (Some batchMsg, batchMsgBaseIdx)
    else (msgEntry, msgBaseIndex) in
  (wrap64 (totalBatchPins + 1), msgEntry, msgBaseIndex).

(** The body of [for _, batchMsg := range manifest.Messages]. *)
Definition pinWalkMessage (requiredIndex : Z) (acc : PinWalk)
    (batchMsg : MessageManifestEntry.t) : PinWalk :=
  let batchMsgBaseIdx := acc.1.1 in
  Nat.iter (Z.to_nat (MessageManifestEntry.Topics batchMsg))
    (pinStep requiredIndex batchMsg batchMsgBaseIdx) acc.

Definition extractBatchMessagePin (manifest : BatchManifest.t) (requiredIndex : Z)
  : PinWalk :=
  fold_left (pinWalkMessage requiredIndex) (BatchManifest.Messages manifest)
    (0, None, 0).

(** Sum of the topic counts of a list of manifest entries. *)
Definition topicTotal (l : list MessageManifestEntry.t) : Z :=
  foldr (fun e n => MessageManifestEntry.Topics e + n) 0 l.

(** The first pin index of the [k]-th message of the manifest. *)
Definition baseIndex (manifest : BatchManifest.t) (k : nat) : Z :=
  topicTotal (take k (BatchManifest.Messages manifest)).

(** Number of turns of the inner loop over a list of entries: a negative
    count gives no turn. *)
Definition turns (l : list MessageManifestEntry.t) : Z :=
  foldr (fun e n => Z.max 0 (MessageManifestEntry.Topics e) + n) 0 l.

(** The entry that owns [req] when the first entry of [l] starts at
    [base], and the base index of that entry. *)
Fixpoint owner (l : list MessageManifestEntry.t) (base req : Z)
  : option (MessageManifestEntry.t * Z) :=
  match l with
  | [] => None
  | e :: l' =>
      if (base <=? req) && (req <? base + MessageManifestEntry.Topics e)
      then Some (e, base)
      else owner l' (base + Z.max 0 (MessageManifestEntry.Topics e)) req
  end.

(** *** Manifests *)

(** Modelled from the spec: [BatchPersisted.GenManifest] is not under src;
    it builds a version 1 manifest with the batch id and transaction, one
    [(id, hash, topic count)] entry per message and one [(id, hash)] entry
    per data record. *)
Definition GenManifest (b : BatchPersisted.t) (messages : list Message.t)
    (data : list Data.t) : BatchManifest.t :=
  {| BatchManifest.Version := ManifestVersion1;
     BatchManifest.ID := BatchPersisted.ID b;
     BatchManifest.TX := BatchPersisted.TX b;
     BatchManifest.Messages :=
       map (fun m =>
              MessageManifestEntry.mk
                (MessageHeader.ID (Message.Header m)) (Message.Hash m)
                (Z.of_nat (length (MessageHeader.Topics (Message.Header m)))))
           messages;
     BatchManifest.Data :=
       map (fun d => DataRef.mk (Data.ID d) (Data.Hash d)) data |}.

Section manifest.
Context `{!Codec}.

Definition migrateManifest (persistedBatch : BatchPersisted.t)
  : option BatchManifest.t :=
  match UnmarshalBatchPayload (BatchPersisted.Manifest persistedBatch) with
  | None => None
  | Some fullPayload =>
      if bool_decide (length (BatchPayload.Messages fullPayload) = 0%nat)
      then None
      else Some (GenManifest persistedBatch
                   (BatchPayload.Messages fullPayload)
                   (BatchPayload.Data fullPayload))
  end.

Definition extractManifest (batch : BatchPersisted.t) : option BatchManifest.t :=
  match UnmarshalBatchManifest (BatchPersisted.Manifest batch) with
  | None => None
  | Some manifest =>
      if bool_decide (BatchManifest.Version manifest = ManifestVersionUnset)
      then migrateManifest batch
      else if bool_decide (BatchManifest.Version manifest = ManifestVersion1)
      then Some manifest
      else None
  end.

Definition getBatchCacheKey (id : option UUID) (hash : option Bytes32) : string :=
  UUIDString id +:+ "/" +:+ Bytes32String hash.
End manifest.

(** *** The batch state and the aggregator *)

Module batchCacheEntry.
Record t : Type := mk {
  batch : BatchPersisted.t;
  manifest : BatchManifest.t
}.
End batchCacheEntry.

(** The size-bounded cache with expiry ([ccache]): a lookup extends the
    entry it finds; an entry may be gone at any later lookup. *)
Class BatchCache (W : Type) : Type := {
  batchCacheGet : string -> W -> option batchCacheEntry.t * W;
  batchCacheSet : string -> batchCacheEntry.t -> W -> W
}.

(** The methods of the batch state that decide whether a context is ready
    and record blocks, dispatches and next-pin advances; they act on the
    part [BS] of the batch state and on the world. [NP] is the type of a
    next-pin entry of the state. *)
Class BatchStateOps (W BS NP : Type) : Type := {
  newBS : BS;
  CheckMaskedContextReady :
    Message.t -> string -> Z -> Bytes32 -> string -> BS -> W ->
    result (option NP) * BS * W;
  CheckUnmaskedContextReady :
    Bytes32 -> Message.t -> string -> Z -> BS -> W -> result bool * BS * W;
  IncrementNextPin : NP -> BS -> W -> BS * W;
  MarkMessageDispatched :
    option UUID -> Message.t -> Z -> MessageState -> BS -> BS;
  SetContextBlockedBy : Bytes32 -> Z -> BS -> BS
}.

Section aggregator.
Context {W BS NP HPre HFin : Type}.
Context `{!Codec} `{!Runtime W} `{!database.Plugin W} `{!identity.Manager W}.
Context `{!data.Manager W} `{!DefinitionHandlers W HPre HFin}.
Context `{!metrics.Manager W} `{!BatchCache W} `{!BatchStateOps W BS NP}.

(** The closures of the finalize list: the one [attemptMessageDispatch]
    registers, with the variables it captures, and those of the
    definition handlers. *)
Inductive FinalizeFn : Type :=
| FinalizeMessageEvents (eventType : EventType) (msg : Message.t)
    (tx customCorrelator : option UUID)
| FinalizeHandler (h : HFin).

Record batchState : Type := mkBatchState {
  PreFinalize : list HPre;
  Finalize : list FinalizeFn;
  pendingConfirms : gmap UUID Message.t;
  rest : BS
}.

(** The ghost log. *)
Inductive Call : Type :=
| CallGroupBegin
| CallGroupCommit
| CallGroupRollback
| CallPreFinalize (f : HPre) (err : option Error)
| CallFinalize (f : FinalizeFn) (err : option Error)
| CallAttemptMessageDispatch (msg : UUID)
| CallInsertEvent (e : Event.t)
| CallCommitOffset (offset : Z).

(** The aggregator: the world, the verifier type of the blockchain plugin,
    the batch state of the page in hand (the [*batchState] every function
    receives), the offset of its event poller, the two rewind channels and
    the ghost log. *)
Record aggregator : Type := mkAggregator {
  world : W;
  verifierType : string;
  state : batchState;
  pollingOffset : Z;
  rewindBatches : list UUID;
  queuedRewinds : list UUID;
  trace : list Call
}.

Definition AM (A : Type) : Type := M aggregator A.

Definition setWorld (w : W) (ag : aggregator) : aggregator :=
  mkAggregator w (verifierType ag) (state ag) (pollingOffset ag)
    (rewindBatches ag) (queuedRewinds ag) (trace ag).

Definition setState (bs : batchState) (ag : aggregator) : aggregator :=
  mkAggregator (world ag) (verifierType ag) bs (pollingOffset ag)
    (rewindBatches ag) (queuedRewinds ag) (trace ag).

Definition setPollingOffset (z : Z) (ag : aggregator) : aggregator :=
  mkAggregator (world ag) (verifierType ag) (state ag) z
    (rewindBatches ag) (queuedRewinds ag) (trace ag).

Definition setRewindBatches (l : list UUID) (ag : aggregator) : aggregator :=
  mkAggregator (world ag) (verifierType ag) (state ag) (pollingOffset ag) l
    (queuedRewinds ag) (trace ag).

Definition setQueuedRewinds (l : list UUID) (ag : aggregator) : aggregator :=
  mkAggregator (world ag) (verifierType ag) (state ag) (pollingOffset ag)
    (rewindBatches ag) l (trace ag).

Definition log (c : Call) : AM unit :=
  modify (fun ag =>
    mkAggregator (world ag) (verifierType ag) (state ag) (pollingOffset ag)
      (rewindBatches ag) (queuedRewinds ag) (trace ag ++ [c])).

(** A call of a collaborator that returns [(value, error)]. *)
Definition call {A : Type} (f : W -> result A * W) : AM A :=
  fun ag => let '(r, w) := f (world ag) in (r, setWorld w ag).

(** A call that returns an [error] only. *)
Definition callE (f : W -> option Error * W) : AM unit :=
  fun ag =>
    let '(e, w) := f (world ag) in
    (match e with None => Ok tt | Some e => Err e end, setWorld w ag).

(** Calls that cannot fail. *)
Definition callT {A : Type} (f : W -> A * W) : AM A :=
  fun ag => let '(a, w) := f (world ag) in (Ok a, setWorld w ag).

Definition callU (f : W -> W) : AM unit :=
  fun ag => (Ok tt, setWorld (f (world ag)) ag).

(** A method of the batch state. *)
Definition onState {A : Type} (f : BS -> W -> result A * BS * W) : AM A :=
  fun ag =>
    let '(r, bs, w) := f (rest (state ag)) (world ag) in
    (r, setWorld w (setState
           (mkBatchState (PreFinalize (state ag)) (Finalize (state ag))
              (pendingConfirms (state ag)) bs) ag)).

(** Modelled from the spec: [newBatchState], [AddFinalize] and
    [AddPreFinalize] are not under src; the batch state is a per-page
    accumulator that starts empty, and a registered closure joins the end
    of its list. *)
Definition newBatchState : batchState := mkBatchState [] [] ∅ newBS.

Definition AddFinalize (f : FinalizeFn) : AM unit :=
  modify (fun ag =>
    setState (mkBatchState (PreFinalize (state ag)) (Finalize (state ag) ++ [f])
                (pendingConfirms (state ag)) (rest (state ag))) ag).

Definition AddPreFinalize (f : HPre) : AM unit :=
  modify (fun ag =>
    setState (mkBatchState (PreFinalize (state ag) ++ [f]) (Finalize (state ag))
                (pendingConfirms (state ag)) (rest (state ag))) ag).

Definition setPendingConfirm (id : UUID) (msg : Message.t) : AM unit :=
  modify (fun ag =>
    setState (mkBatchState (PreFinalize (state ag)) (Finalize (state ag))
                (<[id := msg]> (pendingConfirms (state ag)))
                (rest (state ag))) ag).

(** Modelled from the spec: [eventPoller.commitOffset] is not under src;
    it commits the given sequence as the offset of the poller. *)
Definition commitOffset (offset : Z) : AM unit :=
  run log (CallCommitOffset offset);
  modify (setPollingOffset offset).

(** *** [GetBatchForPin] and [cacheBatch] *)

Definition cacheBatch (cacheKey : string) (batch : BatchPersisted.t)
    (manifest : BatchManifest.t) : AM unit :=
  let bce := batchCacheEntry.mk batch manifest in
  callU (batchCacheSet cacheKey bce).

(** The pair [(batch, manifest)] is nil on both sides or on none. *)
Definition GetBatchForPin (pin : Pin.t)
  : AM (option (BatchPersisted.t * BatchManifest.t)) :=
  let cacheKey := getBatchCacheKey (Pin.Batch pin) (Pin.BatchHash pin) in
  do cached <- callT (batchCacheGet cacheKey);
  match cached with
  | Some bce => ret (Some (batchCacheEntry.batch bce, batchCacheEntry.manifest bce))
  | None =>
      do batch <- call (GetBatchByID (Pin.Batch pin));
      match batch with
      | None => ret None
      | Some batch =>
          if negb (Equals (BatchPersisted.Hash batch) (Pin.BatchHash pin))
          then ret None
          else
            match extractManifest batch with
            | None => ret None
            | Some manifest =>
                run cacheBatch cacheKey batch manifest;
                ret (Some (batch, manifest))
            end
      end
  end.

(** *** [checkOnchainConsistency] *)

Definition isIdentityClaim (msg : Message.t) : bool :=
  let h := Message.Header msg in
  bool_decide (MessageHeader.Type_ h = MessageTypeDefinition)
  && (String.eqb (MessageHeader.Tag h) SystemTagIdentityClaim
      || String.eqb (MessageHeader.Tag h) DeprecatedSystemTagDefineNode
      || String.eqb (MessageHeader.Tag h) DeprecatedSystemTagDefineOrganization).

Definition checkOnchainConsistency (msg : Message.t) (pin : Pin.t) : AM bool :=
  let h := Message.Header msg in
  do ag <- get;
  let verifierRef := VerifierRef.mk (verifierType ag) (Pin.Signer pin) in
  if String.eqb (MessageHeader.Key h) ""
     || negb (String.eqb (MessageHeader.Key h) (Pin.Signer pin))
  then ret false
  else
    do resolvedAuthor <-
      call (FindIdentityForVerifier [IdentityTypeOrg; IdentityTypeCustom]
              (MessageHeader.Namespace h) verifierRef);
    match resolvedAuthor with
    | None =>
        if isIdentityClaim msg then ret true
        else if negb (bool_decide (MessageHeader.Type_ h = MessageTypePrivate))
        then ret false
        else ret true
    | Some resolvedAuthor =>
        if String.eqb (MessageHeader.Author h) ""
           || negb (String.eqb (Identity.DID resolvedAuthor) (MessageHeader.Author h))
        then ret false
        else ret true
    end.

(** *** [resolveBlobs] *)

(** The loop leaves with [false] at the first blob that is not there; the
    accumulator is the answer so far. *)
Definition resolveBlobs (data : list Data.t) : AM bool :=
  forRange
    (fun (resolved : bool) (d : Data.t) =>
       if negb resolved then ret false
       else
         match Data.Blob d with
         | None => ret true
         | Some b =>
             match BlobRef.Hash b with
             | None => ret true
             | Some hash =>
                 do blob <- call (GetBlobMatchingHash (Some hash));
                 match blob with
                 | Some _ => ret true
                 | None => ret false
                 end
             end
         end)
    data true.

(** *** [attemptMessageDispatch] *)

(** The closure registered with [AddFinalize]: one event per topic.
    [insertMessageEvent] is the body of its loop. *)
Definition insertMessageEvent (eventType : EventType) (msg : Message.t)
    (tx customCorrelator : option UUID) (topic : string) : AM unit :=
  let h := Message.Header msg in
  do id <- callT NewUUID;
  do now <- callT Now;
  let event :=
    NewEvent id now eventType (MessageHeader.Namespace h)
      (Some (MessageHeader.ID h)) tx topic in
  let event := Event.withCorrelator (MessageHeader.CID h) event in
  let event :=
    match customCorrelator with
    | Some c => Event.withCorrelator (Some c) event
    | None => event
    end in
  run callE (InsertEvent event);
  log (CallInsertEvent event).

Definition insertMessageEvents (eventType : EventType) (msg : Message.t)
    (tx customCorrelator : option UUID) : AM unit :=
  forRange
    (fun (_ : unit) (topic : string) =>
       insertMessageEvent eventType msg tx customCorrelator topic)
    (MessageHeader.Topics (Message.Header msg)) tt.

Definition runFinalizeFn (f : FinalizeFn) : AM unit :=
  match f with
  | FinalizeMessageEvents eventType msg tx customCorrelator =>
      insertMessageEvents eventType msg tx customCorrelator
  | FinalizeHandler h => callE (runFinalize h)
  end.

(** The call of the definition handler: the closures it registers join the
    two lists of the batch state. *)
Definition handleDefinitionBroadcast (msg : Message.t) (data : list Data.t)
    (tx : option UUID) : AM (HandlerResult.t * option Error) :=
  fun ag =>
    let '(r, (pre, fin), w) :=
      HandleDefinitionBroadcast (pendingConfirms (state ag)) msg data tx (world ag) in
    let bs := state ag in
    (Ok r,
     setWorld w
       (setState
          (mkBatchState (PreFinalize bs ++ pre)
             (Finalize bs ++ map FinalizeHandler fin)
             (pendingConfirms bs) (rest bs)) ag)).

Definition notDispatched : AM (MessageState * bool) :=
  ret (MessageStateUnset, false).

Definition isTransfer (msg : Message.t) : bool :=
  let t := MessageHeader.Type_ (Message.Header msg) in
  bool_decide (t = MessageTypeTransferBroadcast)
  || bool_decide (t = MessageTypeTransferPrivate).

Definition isMetricsEnabled : AM bool :=
  do ag <- get;
  ret (IsMetricsEnabled (world ag)).

(** The last part of [attemptMessageDispatch], from [newState] on. *)
Definition queueDispatch (msg : Message.t) (tx : option UUID) (valid : bool)
    (customCorrelator : option UUID) : AM (MessageState * bool) :=
  let newState := if valid then MessageStateConfirmed else MessageStateRejected in
  let eventType :=
    if valid then EventTypeMessageConfirmed else EventTypeMessageRejected in
  run (if valid
       then setPendingConfirm (MessageHeader.ID (Message.Header msg)) msg
       else ret tt);
  run AddFinalize (FinalizeMessageEvents eventType msg tx customCorrelator);
  do enabled <- (fun ag => (Ok (IsMetricsEnabled (world ag)), ag));
  run (if enabled then callU (MessageConfirmed msg eventType) else ret tt);
  ret (newState, true).

Definition attemptMessageDispatch (msg : Message.t) (data : list Data.t)
    (tx : option UUID) (pin : Pin.t) : AM (MessageState * bool) :=
  run log (CallAttemptMessageDispatch (MessageHeader.ID (Message.Header msg)));
  do valid <- checkOnchainConsistency msg pin;
  if negb valid then notDispatched
  else
    do resolved <- resolveBlobs data;
    if negb resolved then notDispatched
    else
      do transferOk <-
        (if isTransfer msg
         then
           let filter :=
             And [Eq "message" (VUUID (MessageHeader.ID (Message.Header msg)))] in
           do transfers <- call (GetTokenTransfers filter);
           match transfers with
           | [] => ret false
           | t :: _ =>
               ret (Equals (Message.Hash msg) (TokenTransfer.MessageHash t))
           end
         else ret true);
      if negb transferOk then notDispatched
      else if bool_decide
                (MessageHeader.Type_ (Message.Header msg) = MessageTypeDefinition)
      then
        do '(handlerResult, err) <- handleDefinitionBroadcast msg data tx;
        if bool_decide (HandlerResult.Action handlerResult = ActionRetry)
        then match err with
             | Some e => fail e
             | None => notDispatched
             end
        else if bool_decide (HandlerResult.Action handlerResult = ActionWait)
        then notDispatched
        else
          queueDispatch msg tx
            (bool_decide (HandlerResult.Action handlerResult = ActionConfirm))
            (HandlerResult.CustomCorrelator handlerResult)
      else if bool_decide
                (MessageHeader.Type_ (Message.Header msg) = MessageTypeGroupInit)
      then queueDispatch msg tx true None
      else if bool_decide (length (Message.Data msg) = 0%nat)
      then queueDispatch msg tx true None
      else
        do valid <- call (ValidateAll data);
        queueDispatch msg tx valid None.

(** *** [processMessage] *)

(** [strings.Split(s, ":")]. *)
Fixpoint Split (s : string) : list string :=
  match s with
  | EmptyString => [EmptyString]
  | String c s' =>
      if Ascii.eqb c ":"%char then EmptyString :: Split s'
      else
        match Split s' with
        | h :: t => String c h :: t
        | [] => [String c EmptyString]
        end
  end.

(** The readiness loops leave [processMessage] with a nil error as soon as
    one context is not ready: the accumulator is [None] from then on. *)
Definition maskedReady (msg : Message.t) (pin : Pin.t)
  : AM (option (list NP)) :=
  let h := Message.Header msg in
  forRange
    (fun (acc : option (list NP)) (ip : nat * string) =>
       match acc with
       | None => ret None
       | Some nextPins =>
           let '(i, pinStr) := ip in
           let pinSplit := Split pinStr in
           let nonceStr :=
             match pinSplit with
             | _ :: n :: _ => n
             | _ => ""
             end in
           match ParseBytes32 (hd "" pinSplit) with
           | None => ret None
           | Some msgContext =>
               match MessageHeader.Topics h !! i with
               | None => panic
               | Some topic =>
                   do nextPin <-
                     onState (CheckMaskedContextReady msg topic (Pin.Sequence pin)
                                msgContext nonceStr);
                   match nextPin with
                   | None => ret None
                   | Some np => ret (Some (nextPins ++ [np]))
                   end
           end
           end
       end)
    (imap (fun i p => (i, p)) (Message.Pins msg)) (Some []).

(** The unmasked loop appends the context before it asks whether it is
    ready. *)
Definition unmaskedReady (msg : Message.t) (pin : Pin.t)
  : AM (option (list Bytes32)) :=
  forRange
    (fun (acc : option (list Bytes32)) (topic : string) =>
       match acc with
       | None => ret None
       | Some unmaskedContexts =>
           let msgContext := sha256 topic in
           let unmaskedContexts := unmaskedContexts ++ [msgContext] in
           do ready <-
             onState (CheckUnmaskedContextReady msgContext msg topic
                        (Pin.Sequence pin));
           if ready then ret (Some unmaskedContexts) else ret None
       end)
    (MessageHeader.Topics (Message.Header msg)) (Some []).

Definition updBS (f : BS -> BS) : AM unit :=
  onState (fun bs w => (Ok tt, f bs, w)).

Definition processMessage (manifest : BatchManifest.t) (pin : Pin.t)
    (msgBaseIndex : Z) (msgEntry : MessageManifestEntry.t) : AM unit :=
  let cro := if Pin.Masked pin then CRORequirePins else CRORequirePublicBlobRefs in
  do '(msg, data, dataAvailable) <-
    call (GetMessageWithDataCached (MessageManifestEntry.ID msgEntry) cro);
  if negb dataAvailable then ret tt
  else
    let h := Message.Header msg in
    do ready <-
      (if Pin.Masked pin
       then
         if bool_decide (MessageHeader.Group h = None)
            || bool_decide (length (Message.Pins msg) = 0%nat)
            || negb (bool_decide (length (MessageHeader.Topics h)
                                  = length (Message.Pins msg)))
         then ret None
         else
           do nextPins <- maskedReady msg pin;
           ret (option_map (fun nps => ([], nps)) nextPins)
       else
         do contexts <- unmaskedReady msg pin;
         ret (option_map (fun cs => (cs, [])) contexts));
    match ready with
    | None => ret tt
    | Some (unmaskedContexts, nextPins) =>
        do '(newState, dispatched) <-
          (if dataAvailable
           then attemptMessageDispatch msg data
                  (TransactionRef.ID (BatchManifest.TX manifest)) pin
           else ret (MessageStateUnset, false));
        if dispatched
        then
          run forRange
                (fun (_ : unit) (np : NP) =>
                   onState (fun bs w =>
                              let '(bs', w') := IncrementNextPin np bs w in
                              (Ok tt, bs', w')))
                nextPins tt;
          updBS (MarkMessageDispatched (BatchManifest.ID manifest) msg
                   msgBaseIndex newState)
        else
          forRange
            (fun (_ : unit) (unmaskedContext : Bytes32) =>
               updBS (SetContextBlockedBy unmaskedContext (Pin.Sequence pin)))
            unmaskedContexts tt
    end.

(** *** [processPins] *)

(** The variables of the loop: the batch and manifest of the previous pin
    and the set of messages already seen in this page. *)
Definition PinLoop : Type :=
  option (BatchPersisted.t * BatchManifest.t) * gmap UUID bool.

Definition dupSeen (dupMsgCheck : gmap UUID bool) (id : UUID) : bool :=
  default false (dupMsgCheck !! id).

(** The first statement of the loop body: the batch of the previous pin is
    kept when it is the batch of this pin, otherwise it is looked up. *)
Definition batchForPin (cached : option (BatchPersisted.t * BatchManifest.t))
    (pin : Pin.t) : AM (option (BatchPersisted.t * BatchManifest.t)) :=
  match cached with
  | Some (batch, manifest) =>
      if Equals (BatchPersisted.ID batch) (Pin.Batch pin)
      then ret (Some (batch, manifest))
      else GetBatchForPin pin
  | None => GetBatchForPin pin
  end.

Definition processPin (acc : PinLoop) (pin : Pin.t) : AM PinLoop :=
  let '(cached, dupMsgCheck) := acc in
  do cached <- batchForPin cached pin;
  match cached with
  | None => ret (None, dupMsgCheck)
  | Some (batch, manifest) =>
      let '(batchPinCount, msgEntry, msgBaseIndex) :=
        extractBatchMessagePin manifest (Pin.Index pin) in
      match msgEntry with
      | None => ret (cached, dupMsgCheck)
      | Some msgEntry =>
          if dupSeen dupMsgCheck (MessageManifestEntry.ID msgEntry)
          then ret (cached, dupMsgCheck)
          else
            let dupMsgCheck :=
              <[MessageManifestEntry.ID msgEntry := true]> dupMsgCheck in
            run processMessage manifest pin msgBaseIndex msgEntry;
            ret (cached, dupMsgCheck)
      end
  end.

(** [pins[len(pins)-1]] panics on an empty page. *)
Definition processPins (pins : list Pin.t) : AM unit :=
  run forRange processPin pins (None, ∅);
  match last pins with
  | None => panic
  | Some p => commitOffset (Pin.Sequence p)
  end.

(** *** [processWithBatchState] *)

(** Modelled from the spec: the implementation of [RunAsGroup] is not under
    src; the database plugin runs the function inside one transactional
    group, which it commits when the function returns no error and rolls
    back otherwise. The aggregator calls it with its root context, so a
    group is never nested here. *)
Definition RunAsGroup (fn : AM unit) : AM unit :=
  run callE beginGroup;
  run log CallGroupBegin;
  fun ag =>
    match fn ag with
    | (Ok _, ag1) =>
        match commitGroup (world ag1) with
        | (None, w) => log CallGroupCommit (setWorld w ag1)
        | (Some e, w) =>
            (Err e, (log CallGroupRollback (setWorld (rollbackGroup w) ag1)).2)
        end
    | (Err e, ag1) =>
        (Err e,
         (log CallGroupRollback (setWorld (rollbackGroup (world ag1)) ag1)).2)
    | (Panic, ag1) => (Panic, ag1)
    end.

(** Runs [m] and logs how it ended. *)
Definition logged (c : option Error -> Call) (m : AM unit) : AM unit :=
  fun ag =>
    match m ag with
    | (Ok _, ag1) => log (c None) ag1
    | (Err e, ag1) => (Err e, (log (c (Some e)) ag1).2)
    | (Panic, ag1) => (Panic, ag1)
    end.

(** Modelled from the spec: [RunPreFinalize] and [RunFinalize] are not
    under src; each runs the closures of its list in the order of
    registration and stops at the first error. *)
Definition RunPreFinalize : AM unit :=
  do ag <- get;
  forRange
    (fun (_ : unit) (f : HPre) => logged (CallPreFinalize f) (callE (runPreFinalize f)))
    (PreFinalize (state ag)) tt.

Definition RunFinalize : AM unit :=
  do ag <- get;
  forRange
    (fun (_ : unit) (f : FinalizeFn) => logged (CallFinalize f) (runFinalizeFn f))
    (Finalize (state ag)) tt.

Definition noPreFinalize : AM bool :=
  do ag <- get;
  ret (bool_decide (length (PreFinalize (state ag)) = 0%nat)).

Definition processWithBatchState (callback : AM unit) : AM unit :=
  run modify (setState newBatchState);
  run RunAsGroup
        (run callback;
         do none <- noPreFinalize;
         if none then RunFinalize else ret tt);
  do none <- noPreFinalize;
  if none then ret tt
  else
    run RunPreFinalize;
    RunAsGroup RunFinalize.

(** The handler of the event poller; the first component is [repoll]. *)
Definition processPinsEventsHandler (items : list Pin.t) : AM bool :=
  run processWithBatchState (processPins items);
  ret false.

(** *** Rewinds *)

(** One turn of [batchRewindListener]: a batch id received on
    [rewindBatches] hops to [queuedRewinds]. *)
Definition batchRewindListener : AM unit :=
  modify (fun ag =>
    match rewindBatches ag with
    | uuid :: l => setQueuedRewinds (queuedRewinds ag ++ [uuid]) (setRewindBatches l ag)
    | [] => ag
    end).

(** Modelled from the spec: [retry.Do] is not under src; it calls the
    function again, after a delay, for as long as the function asks for a
    retry with an error and the context is not cancelled. [fuel] bounds the
    number of attempts of the model; [None] means that the bound was
    reached. [X] holds the variables the closure captures. *)
Fixpoint retryDo {X : Type} (fuel attempt : nat)
    (f : nat -> X -> AM (bool * option Error * X)) (x : X) (ag : aggregator)
  : option (result (option Error * X) * aggregator) :=
  match fuel with
  | O => None
  | S fuel' =>
      match f (S attempt) x ag with
      | (Ok (retry, err, x'), ag1) =>
          if negb retry || bool_decide (err = None)
          then Some (Ok (err, x'), ag1)
          else if ctxDone (world ag1)
          then Some (Ok (Some "context cancelled", x'), ag1)
          else retryDo fuel' (S attempt) f x' (setWorld (sleep (world ag1)) ag1)
      | (Err e, ag1) => Some (Err e, ag1)
      | (Panic, ag1) => Some (Panic, ag1)
      end
  end.

Definition rewindFilter (batchIDs : list UUID) : Filter.t :=
  Limit 1 (Sort "sequence"
             (And [In "batch" (map VUUID batchIDs); Eq "dispatched" (VBool false)])).

(** The closure handed to [retry.Do]; [(rewind, offset)] are the named
    results it assigns. *)
Definition rewindAttempt (batchIDs : list UUID) (attempt : nat) (ro : bool * Z)
  : AM (bool * option Error * (bool * Z)) :=
  if bool_decide (0 < length batchIDs)%nat
  then
    fun ag =>
      match GetPins (rewindFilter batchIDs) (world ag) with
      | (Err e, w) => (Ok (true, Some e, ro), setWorld w ag)
      | (Ok sequences, w) =>
          match sequences with
          | p :: _ => (Ok (false, None, (true, wrap64 (Pin.Sequence p - 1))), setWorld w ag)
          | [] => (Ok (false, None, ro), setWorld w ag)
          end
      | (Panic, w) => (Panic, setWorld w ag)
      end
  else ret (false, None, ro).

(** Drains [queuedRewinds], then asks the store for the oldest pin of those
    batches that is not dispatched. *)
Definition rewindOffchainBatches (fuel : nat) (ag : aggregator)
  : option (result (bool * Z) * aggregator) :=
  let batchIDs := queuedRewinds ag in
  let ag := setQueuedRewinds [] ag in
  match retryDo fuel 0 (rewindAttempt batchIDs) (false, 0) ag with
  | None => None
  | Some (Ok (_, ro), ag1) => Some (Ok ro, ag1)
  | Some (Err e, ag1) => Some (Err e, ag1)
  | Some (Panic, ag1) => Some (Panic, ag1)
  end.

(** [batchIDs[*msg.BatchID] = true] over the messages. *)
Definition collectBatchIDs (messages : list Message.t) : gmap UUID bool :=
  fold_left
    (fun (batchIDs : gmap UUID bool) (msg : Message.t) =>
       match Message.BatchID msg with
       | Some b => <[b := true]> batchIDs
       | None => batchIDs
       end)
    messages ∅.

(** The loop over the data references assigns the result of each query to
    [messages]. The order in which Go ranges over the map of batch ids is
    not specified; the model takes the order of [map_to_list]. *)
Definition rewindForBlobArrival (blobHash : Bytes32) : AM unit :=
  let filter := Where (Eq "blob.hash" (VBytes32 blobHash)) in
  do data <- call (GetDataRefs filter);
  do messages <-
    forRange
      (fun (messages : list Message.t) (d : DataRef.t) =>
         let filter := And [Eq "confirmed" VNull] in
         do found <- call (GetMessagesForData (DataRef.ID d) filter);
         ret found)
      data [];
  let batchIDs := collectBatchIDs messages in
  forRange
    (fun (_ : unit) (bid : UUID) =>
       modify (fun ag => setRewindBatches (rewindBatches ag ++ [bid]) ag))
    (map fst (map_to_list batchIDs)) tt.

Definition keyMatchesSigner (msg : Message.t) (pin : Pin.t) : Prop :=
  MessageHeader.Key (Message.Header msg) <> "" /\
  MessageHeader.Key (Message.Header msg) = Pin.Signer pin.

(** The answer of the identity manager for the signer of the pin. *)
Definition resolveSigner (msg : Message.t) (pin : Pin.t) (ag : aggregator)
  : result (option Identity.t) * W :=
  FindIdentityForVerifier [IdentityTypeOrg; IdentityTypeCustom]
    (MessageHeader.Namespace (Message.Header msg))
    (VerifierRef.mk (verifierType ag) (Pin.Signer pin)) (world ag).

(** C2 as the specification states it: a dispatch requires that the key
    is the signer of the pin and resolves to an identity whose DID is the
    author, with the identity claim definitions as the only exception. *)
Definition dispatchRequiresRegisteredAuthor (msg : Message.t) (pin : Pin.t)
    (ag : aggregator) : Prop :=
  forall data tx newState ag',
    attemptMessageDispatch msg data tx pin ag = (Ok (newState, true), ag') ->
    MessageHeader.Key (Message.Header msg) = Pin.Signer pin /\
    ((exists resolvedAuthor w,
        resolveSigner msg pin ag = (Ok (Some resolvedAuthor), w) /\
        Identity.DID resolvedAuthor = MessageHeader.Author (Message.Header msg))
     \/ isIdentityClaim msg = true).

(** [failedAttempts n w w']: from the world [w], [n] queries in a row fail
    while the context stays alive, and [w'] is the world in which the next
    attempt starts. *)
Fixpoint failedAttempts (n : nat) (w w' : W) : Prop :=
  match n with
  | O => w' = w
  | S n' =>
      exists e wa,
        dbFault w = (Some e, wa) /\ ctxDone wa = false /\
        failedAttempts n' (sleep wa) w'
  end.

(** A pin that the rewind query selects: it belongs to one of the batches
    and is not dispatched. *)
Definition rewindCandidate (batchIDs : list UUID) (p : Pin.t) : Prop :=
  (exists b, Pin.Batch p = Some b /\ b ∈ batchIDs) /\ Pin.Dispatched p = false.

(** *** Frames *)

(** The relation between two aggregators that agree on a component. *)
Definition keeps {X : Type} (proj : aggregator -> X) (ag ag' : aggregator) : Prop :=
  proj ag' = proj ag.

(** The messages for which the log records a call of
    [attemptMessageDispatch], in the order of the calls. *)
Definition dispatched (calls : list Call) : list UUID :=
  omap (fun c => match c with
                 | CallAttemptMessageDispatch id => Some id
                 | _ => None
                 end) calls.

(** A computation appends to the log a list of calls that satisfies [P]. *)
Definition emits {A : Type} (P : list Call -> Prop) (m : AM A) : Prop :=
  forall ag, exists l, trace (m ag).2 = trace ag ++ l /\ P l.

(** The event that the finalize closure of a dispatch inserts for a topic,
    up to the identifier and the time it draws. *)
Definition isMessageEvent (eventType : EventType) (msg : Message.t)
    (tx customCorrelator : option UUID) (e : Event.t) : Prop :=
  Event.Type_ e = eventType /\
  Event.Namespace e = MessageHeader.Namespace (Message.Header msg) /\
  Event.Reference e = Some (MessageHeader.ID (Message.Header msg)) /\
  Event.Transaction e = tx /\
  Event.Correlator e
  = match customCorrelator with
    | Some c => Some c
    | None => MessageHeader.CID (Message.Header msg)
    end.

(** The calls of [RunAsGroup] in a log. *)
Definition groupCalls (calls : list Call) : list Call :=
  List.filter (fun c => match c with
                        | CallGroupBegin | CallGroupCommit | CallGroupRollback => true
                        | _ => false
                        end) calls.

(** The finalize closures that a log records as run, with their errors. *)
Definition finalizeRuns (calls : list Call) : list (FinalizeFn * option Error) :=
  omap (fun c => match c with
                 | CallFinalize f e => Some (f, e)
                 | _ => None
                 end) calls.

(** The pre-finalize closures that a log records as run. *)
Definition preFinalizeRuns (calls : list Call) : list (HPre * option Error) :=
  omap (fun c => match c with
                 | CallPreFinalize f e => Some (f, e)
                 | _ => None
                 end) calls.

(** [phased pre inGroup succeeded calls]: along [calls], read from a point
    where the transactional group is open or not ([inGroup]) and where the
    pre-finalize closures [succeeded] have run without error, every group
    opens outside of a group and closes inside of one, every pre-finalize
    closure runs outside of any group, and every finalize closure runs
    inside of a group and after all the registered pre-finalize closures
    [pre] have succeeded. *)
Fixpoint phased (pre : list HPre) (inGroup : bool) (succeeded : list HPre)
    (calls : list Call) : Prop :=
  match calls with
  | [] => True
  | CallGroupBegin :: cs => inGroup = false /\ phased pre true succeeded cs
  | CallGroupCommit :: cs => inGroup = true /\ phased pre false succeeded cs
  | CallGroupRollback :: cs => inGroup = true /\ phased pre false succeeded cs
  | CallPreFinalize f None :: cs =>
      inGroup = false /\ phased pre inGroup (succeeded ++ [f]) cs
  | CallPreFinalize f (Some _) :: cs =>
      inGroup = false /\ phased pre inGroup succeeded cs
  | CallFinalize f _ :: cs =>
      inGroup = true /\ succeeded = pre /\ phased pre inGroup succeeded cs
  | _ :: cs => phased pre inGroup succeeded cs
  end.

(** The calls that the run of the finalize closures logs. *)
Definition finalizeBodyCall (c : Call) : Prop :=
  match c with
  | CallInsertEvent _ | CallFinalize _ _ => True
  | _ => False
  end.

Definition isInsertEvent (c : Call) : Prop :=
  match c with
  | CallInsertEvent _ => True
  | _ => False
  end.

(** The closures registered so far. *)
Definition closures (ag : aggregator) : list HPre * list FinalizeFn :=
  (PreFinalize (state ag), Finalize (state ag)).

(** *** What ran *)

(** [ranAll runOne entry fs ag ag']: from [ag], every closure of [fs] ran
    by [runOne], in the order of the list and without error, [entry] being
    the call logged after each; [ag'] is the aggregator the last one
    left. *)
Fixpoint ranAll {F : Type} (runOne : F -> AM unit)
    (entry : F -> option Error -> Call) (fs : list F)
    (ag ag' : aggregator) : Prop :=
  match fs with
  | [] => ag' = ag
  | f :: fs =>
      exists ag1,
        runOne f ag = (Ok tt, ag1) /\
        ranAll runOne entry fs (log (entry f None) ag1).2 ag'
  end.

(** [stoppedAt runOne entry fs ag e ag']: from [ag], the closures of [fs]
    ran in order until one of them failed with [e]; none of the later ones
    ran, and [ag'] is the aggregator the failed one left. *)
Definition stoppedAt {F : Type} (runOne : F -> AM unit)
    (entry : F -> option Error -> Call) (fs : list F)
    (ag : aggregator) (e : Error) (ag' : aggregator) : Prop :=
  exists ok f later ag1 ag2,
    fs = ok ++ f :: later /\
    ranAll runOne entry ok ag ag1 /\
    runOne f ag1 = (Err e, ag2) /\
    ag' = (log (entry f (Some e)) ag2).2.

(** The aggregator after the store opened, committed or rolled back a
    group and left the world [w]. *)
Definition opened (w : W) (ag : aggregator) : aggregator :=
  (log CallGroupBegin (setWorld w ag)).2.

Definition committed (w : W) (ag : aggregator) : aggregator :=
  (log CallGroupCommit (setWorld w ag)).2.

Definition rolledBack (w : W) (ag : aggregator) : aggregator :=
  (log CallGroupRollback (setWorld (rollbackGroup w) ag)).2.

(** [finalizedInGroup fin ag r ag']: in the group that is open at [ag] the
    finalize closures [fin] run. When all of them succeeded the store
    commits the group, and the group is rolled back when the commit fails;
    when one of them fails the later ones do not run and the group is
    rolled back. *)
Definition finalizedInGroup (fin : list FinalizeFn) (ag : aggregator)
    (r : result unit) (ag' : aggregator) : Prop :=
  (exists ag1,
     ranAll runFinalizeFn CallFinalize fin ag ag1 /\
     match commitGroup (world ag1) with
     | (None, w) => r = Ok tt /\ ag' = committed w ag1
     | (Some e, w) => r = Err e /\ ag' = rolledBack w ag1
     end) \/
  (exists e ag1,
     stoppedAt runFinalizeFn CallFinalize fin ag e ag1 /\
     r = Err e /\ ag' = rolledBack (world ag1) ag1).

(** [twoPhases pre fin agc r ag']: the end of a page whose callback left
    [agc] inside the open group, with the pre-finalize closures [pre] and
    the finalize closures [fin] registered. With no pre-finalize closure
    the finalize closures run in that group. Otherwise that group commits
    first; then the pre-finalize closures run, outside of any group; only
    when all of them succeeded a second group opens, in which the finalize
    closures run. *)
Definition twoPhases (pre : list HPre) (fin : list FinalizeFn)
    (agc : aggregator) (r : result unit) (ag' : aggregator) : Prop :=
  match pre with
  | [] => finalizedInGroup fin agc r ag'
  | _ :: _ =>
      match commitGroup (world agc) with
      | (Some e, w1) => r = Err e /\ ag' = rolledBack w1 agc
      | (None, w1) =>
          (exists e,
             stoppedAt (fun f => callE (runPreFinalize f)) CallPreFinalize pre
               (committed w1 agc) e ag' /\
             r = Err e) \/
          (exists ag3,
             ranAll (fun f => callE (runPreFinalize f)) CallPreFinalize pre
               (committed w1 agc) ag3 /\
             match beginGroup (world ag3) with
             | (Some e, w2) => r = Err e /\ ag' = setWorld w2 ag3
             | (None, w2) => finalizedInGroup fin (opened w2 ag3) r ag'
             end)
      end
  end.

End aggregator.

End events.

Import events.

(** ** The private messaging dispatcher *)

Module operations.
(** The operations manager, seen from its callers. [AddOrReuseOperation]
    inserts the operation or reuses the one already there;
    [ResolveOperation] is the store update of a finished operation. *)
Class Manager (W : Type) : Type := {
  AddOrReuseOperation : Operation.t -> W -> option Error * W;
  ResolveOperation : UUID -> OpStatus -> option Error -> W -> W
}.
End operations.

Module dataexchange.
Class Plugin (W : Type) : Type := {
  Name : string;
  TransferBLOB : UUID -> string -> string -> W -> option Error * W;
  SendMessage : UUID -> string -> string -> W -> option Error * W
}.
End dataexchange.

Module privatemessaging.

Import database identity operations dataexchange.

Local Open Scope go_scope.

(** The [Data] of a prepared operation: [transferBlobData], [batchSendData]
    or the data of another handler. *)
Inductive opData : Type :=
| transferBlobData (Node : Identity.t) (Blob : Blob.t)
| batchSendData (Node : Identity.t) (Transport : TransportWrapper.t)
| otherData.

Module PreparedOperation.
Record t : Type := mk {
  ID : UUID;
  Type_ : OpType;
  Data : opData
}.
End PreparedOperation.

(** The group manager: the group of a hash and the nodes of its members. *)
Class GroupManager (W : Type) : Type := {
  getGroupNodes : option Bytes32 -> W -> result (Group.t * list Identity.t) * W
}.

Section privateMessaging.
Context {W : Type}.
Context `{!Codec} `{!Runtime W} `{!database.Plugin W} `{!identity.Manager W}.
Context `{!operations.Manager W} `{!dataexchange.Plugin W} `{!GroupManager W}.

(** The ghost log of the dispatcher. *)
Inductive Call : Type :=
| CallAddOrReuseOperation (op : Operation.t)
| CallRunOperation (op : PreparedOperation.t)
| CallTransferBLOB (opID : UUID) (peerID payloadRef : string)
| CallSendMessage (opID : UUID) (peerID payload : string).

Record privateMessaging : Type := mkPrivateMessaging {
  world : W;
  trace : list Call
}.

Definition PM (A : Type) : Type := M privateMessaging A.

Definition setWorld (w : W) (pm : privateMessaging) : privateMessaging :=
  mkPrivateMessaging w (trace pm).

Definition log (c : Call) : PM unit :=
  modify (fun pm => mkPrivateMessaging (world pm) (trace pm ++ [c])).

Definition call {A : Type} (f : W -> result A * W) : PM A :=
  fun pm => let '(r, w) := f (world pm) in (r, setWorld w pm).

Definition callE (f : W -> option Error * W) : PM unit :=
  fun pm =>
    let '(e, w) := f (world pm) in
    (match e with None => Ok tt | Some e => Err e end, setWorld w pm).

Definition callT {A : Type} (f : W -> A * W) : PM A :=
  fun pm => let '(a, w) := f (world pm) in (Ok a, setWorld w pm).

(** *** Operation inputs and prepared operations *)

Definition addTransferBlobInputs (op : Operation.t) (nodeID : option UUID)
    (blobHash : option Bytes32) : Operation.t :=
  Operation.withInput
    [("node", UUIDString nodeID); ("hash", Bytes32String blobHash)] op.

Definition addBatchSendInputs (op : Operation.t) (nodeID : option UUID)
    (groupHash : option Bytes32) (batchID : option UUID) : Operation.t :=
  Operation.withInput
    [("node", UUIDString nodeID); ("group", Bytes32String groupHash);
     ("batch", UUIDString batchID)] op.

Definition opSendBlob (op : Operation.t) (node : Identity.t) (blob : Blob.t)
  : PreparedOperation.t :=
  PreparedOperation.mk (Operation.ID op) (Operation.Type_ op)
    (transferBlobData node blob).

Definition opSendBatch (op : Operation.t) (node : Identity.t)
    (transport : TransportWrapper.t) : PreparedOperation.t :=
  PreparedOperation.mk (Operation.ID op) (Operation.Type_ op)
    (batchSendData node transport).

(** The peer a node is reached at: [node.Profile.GetString("id")]. *)
Definition peerID (node : Identity.t) : string :=
  GetString (Identity.Profile node) "id".

(** *** [RunOperation], the handler of the two operation types *)

Definition RunOperation (op : PreparedOperation.t) : PM (JSONObject * bool) :=
  match PreparedOperation.Data op with
  | transferBlobData node blob =>
      run log (CallTransferBLOB (PreparedOperation.ID op) (peerID node)
                 (Blob.PayloadRef blob));
      run callE (TransferBLOB (PreparedOperation.ID op) (peerID node)
                   (Blob.PayloadRef blob));
      ret ([], false)
  | batchSendData node transport =>
      match MarshalTransportWrapper transport with
      | Err e => fail ("serialization failed: " +:+ e)
      | Panic => panic
      | Ok payload =>
          run log (CallSendMessage (PreparedOperation.ID op) (peerID node) payload);
          run callE (SendMessage (PreparedOperation.ID op) (peerID node) payload);
          ret ([], false)
      end
  | otherData => fail "operation data incorrect"
  end.

(** Modelled from the spec: the operations manager is not under src;
    its [RunOperation] invokes the handler registered for the type of the
    operation; a handler that returns [complete] resolves the operation as
    succeeded, an error resolves it as failed, otherwise it stays pending.
    The private messaging registers itself for the two data exchange
    types. *)
Definition handles (t : OpType) : bool :=
  match t with
  | OpTypeDataExchangeSendBlob | OpTypeDataExchangeSendBatch => true
  | _ => false
  end.

Definition operationsRunOperation (op : PreparedOperation.t) : PM unit :=
  run log (CallRunOperation op);
  if handles (PreparedOperation.Type_ op)
  then
    fun pm =>
      match RunOperation op pm with
      | (Ok (outputs, complete), pm1) =>
          if (complete : bool)
          then (Ok tt,
                setWorld (ResolveOperation (PreparedOperation.ID op)
                            OpStatusSucceeded None (world pm1)) pm1)
          else (Ok tt, pm1)
      | (Err e, pm1) =>
          (Err e,
           setWorld (ResolveOperation (PreparedOperation.ID op) OpStatusFailed
                       (Some e) (world pm1)) pm1)
      | (Panic, pm1) => (Panic, pm1)
      end
  else fail "operation not supported".

Definition addOrReuseOperation (op : Operation.t) : PM unit :=
  run log (CallAddOrReuseOperation op);
  callE (AddOrReuseOperation op).

(** [fftypes.NewOperation(pm.exchange, ns, tx, opType)]. *)
Definition newOperation (ns : string) (tx : option UUID) (opType : OpType)
  : PM Operation.t :=
  do id <- callT NewUUID;
  do now <- callT Now;
  ret (NewOperation id now Name ns tx opType).

(** *** [transferBlobs] and [sendData] *)

Definition transferBlobs (data : list Data.t) (txid : option UUID)
    (node : Identity.t) : PM unit :=
  forRange
    (fun (_ : unit) (d : Data.t) =>
       match Data.Blob d with
       | None => ret tt
       | Some b =>
           match BlobRef.Hash b with
           | None => fail "data missing blob hash"
           | Some hash =>
               do blob <- call (GetBlobMatchingHash (Some hash));
               match blob with
               | None => fail "blob not found"
               | Some blob =>
                   do op <- newOperation (Data.Namespace d) txid
                              OpTypeDataExchangeSendBlob;
                   let op :=
                     addTransferBlobInputs op (Identity.ID node) (Blob.Hash blob) in
                   run addOrReuseOperation op;
                   operationsRunOperation (opSendBlob op node blob)
               end
           end
       end)
    data tt.

(** What [sendData] does for one node of the group. *)
Definition sendToNode (tw : TransportWrapper.t) (localOrg : Identity.t)
    (node : Identity.t) : PM unit :=
  let batch := TransportWrapper.Batch tw in
  if Equals (Identity.Parent node) (Identity.ID localOrg) then ret tt
  else
    run transferBlobs (BatchPayload.Data (Batch.Payload batch))
          (TransactionRef.ID (BatchPayload.TX (Batch.Payload batch))) node;
    do op <- newOperation (Batch.Namespace batch)
               (TransactionRef.ID (BatchPayload.TX (Batch.Payload batch)))
               OpTypeDataExchangeSendBatch;
    let groupHash :=
      match TransportWrapper.Group tw with
      | Some g => Group.Hash g
      | None => None
      end in
    let op := addBatchSendInputs op (Identity.ID node) groupHash (Batch.ID batch) in
    run addOrReuseOperation op;
    operationsRunOperation (opSendBatch op node tw).

Definition sendData (tw : TransportWrapper.t) (nodes : list Identity.t) : PM unit :=
  do localOrg <- call GetNodeOwnerOrg;
  forRange (fun (_ : unit) (node : Identity.t) => sendToNode tw localOrg node)
    nodes tt.

(** Modelled from the spec: [BatchPersisted.GenInflight] is not under src;
    the in-flight batch has the header and hash of the persisted batch and
    the payload made of its transaction, the messages and the data. *)
Definition GenInflight (b : BatchPersisted.t) (messages : list Message.t)
    (data : list Data.t) : Batch.t :=
  {| Batch.ID := BatchPersisted.ID b;
     Batch.Namespace := BatchPersisted.Namespace b;
     Batch.Author := BatchPersisted.Author b;
     Batch.Key := BatchPersisted.Key b;
     Batch.Group := BatchPersisted.Group b;
     Batch.Created := BatchPersisted.Created b;
     Batch.Hash := BatchPersisted.Hash b;
     Batch.Payload := BatchPayload.mk (BatchPersisted.TX b) messages data |}.

(** The dispatch state of the batch assembler: the persisted batch with its
    messages and data. *)
Definition dispatchBatchCommon (persisted : BatchPersisted.t)
    (messages : list Message.t) (data : list Data.t) : PM unit :=
  let batch := GenInflight persisted messages data in
  do '(group, nodes) <- call (getGroupNodes (Batch.Group batch));
  let tw :=
    if bool_decide (TransactionRef.Type_ (BatchPayload.TX (Batch.Payload batch))
                    = TransactionTypeUnpinned)
    then TransportWrapper.mk (Some group) batch
    else TransportWrapper.mk None batch in
  sendData tw nodes.

(** *** The calls of a dispatch *)

(** The calls for one data record of the batch and one node: none when
    the record has no blob; otherwise a blob transfer operation of its own
    is added, run, and handed to the data exchange, for a blob that the
    store answers for the hash the record refers to. *)
Definition blobCalls (txid : option UUID) (node : Identity.t) (d : Data.t)
    (calls : list Call) : Prop :=
  match Data.Blob d with
  | None => calls = []
  | Some b =>
      exists hash blob op,
        BlobRef.Hash b = Some hash /\
        (exists w w', GetBlobMatchingHash (Some hash) w = (Ok (Some blob), w')) /\
        Operation.Type_ op = OpTypeDataExchangeSendBlob /\
        Operation.Namespace op = Data.Namespace d /\
        Operation.Transaction op = txid /\
        Operation.Input op
        = [("node", UUIDString (Identity.ID node));
           ("hash", Bytes32String (Blob.Hash blob))] /\
        calls = [CallAddOrReuseOperation op;
                 CallRunOperation (opSendBlob op node blob);
                 CallTransferBLOB (Operation.ID op) (peerID node)
                   (Blob.PayloadRef blob)]
  end.

(** The calls of the batch send to one node: a batch send operation is
    added, run, and the serialized transport wrapper is handed to the data
    exchange. *)
Definition batchCalls (tw : TransportWrapper.t) (node : Identity.t)
    (calls : list Call) : Prop :=
  exists op payload,
    MarshalTransportWrapper tw = Ok payload /\
    Operation.Type_ op = OpTypeDataExchangeSendBatch /\
    Operation.Namespace op = Batch.Namespace (TransportWrapper.Batch tw) /\
    calls = [CallAddOrReuseOperation op;
             CallRunOperation (opSendBatch op node tw);
             CallSendMessage (Operation.ID op) (peerID node) payload].

(** The calls for one node of the group: none for a node of the local
    organization; otherwise the calls for every data record, in order,
    followed by the calls of the batch send. *)
Definition nodeCalls (tw : TransportWrapper.t) (localOrg node : Identity.t)
    (calls : list Call) : Prop :=
  let payload := Batch.Payload (TransportWrapper.Batch tw) in
  if Equals (Identity.Parent node) (Identity.ID localOrg) then calls = []
  else
    exists blobs send,
      Forall2 (blobCalls (TransactionRef.ID (BatchPayload.TX payload)) node)
        (BatchPayload.Data payload) blobs /\
      batchCalls tw node send /\
      calls = concat blobs ++ send.

(** *** What a dispatch does *)

(** [chain step xs pm pm']: the steps of the elements of [xs], taken one
    after the other in the order of the list, lead from [pm] to [pm']. *)
Fixpoint chain {X : Type}
    (step : X -> privateMessaging -> privateMessaging -> Prop)
    (xs : list X) (pm pm' : privateMessaging) : Prop :=
  match xs with
  | [] => pm' = pm
  | x :: xs => exists pm1, step x pm pm1 /\ chain step xs pm1 pm'
  end.

(** [operationAdded ns txid opType inputs op pm pm']: a new operation of
    the type is made, [inputs] records its inputs, and the operations
    manager is asked to add the operation [op] so obtained, and accepts
    it. *)
Definition operationAdded (ns : string) (txid : option UUID) (opType : OpType)
    (inputs : Operation.t -> Operation.t) (op : Operation.t)
    (pm pm' : privateMessaging) : Prop :=
  exists op0 pm1 w,
    newOperation ns txid opType pm = (Ok op0, pm1) /\
    op = inputs op0 /\
    AddOrReuseOperation op (world pm1) = (None, w) /\
    pm' = mkPrivateMessaging w (trace pm1 ++ [CallAddOrReuseOperation op]).

(** [blobTransferred txid node d pm pm']: what a dispatch does for the
    data record [d] and the node: nothing when the record has no blob;
    otherwise the store is asked for the blob of the hash that the record
    refers to, an operation of its own is added for the blob the store
    answers, with the node and the hash of the blob as inputs, and the
    data exchange is asked to transfer the payload of that blob to the
    peer of the node, and accepts. *)
Definition blobTransferred (txid : option UUID) (node : Identity.t) (d : Data.t)
    (pm pm' : privateMessaging) : Prop :=
  match Data.Blob d with
  | None => pm' = pm
  | Some b =>
      exists hash blob w1 op pm2 w3,
        BlobRef.Hash b = Some hash /\
        GetBlobMatchingHash (Some hash) (world pm) = (Ok (Some blob), w1) /\
        operationAdded (Data.Namespace d) txid OpTypeDataExchangeSendBlob
          (fun op => addTransferBlobInputs op (Identity.ID node) (Blob.Hash blob))
          op (setWorld w1 pm) pm2 /\
        TransferBLOB (Operation.ID op) (peerID node) (Blob.PayloadRef blob)
          (world pm2)
        = (None, w3) /\
        pm' = mkPrivateMessaging w3
                (trace pm2 ++ [CallRunOperation (opSendBlob op node blob);
                               CallTransferBLOB (Operation.ID op) (peerID node)
                                 (Blob.PayloadRef blob)])
  end.

(** [batchSent tw node pm pm']: a batch send operation is added, with the
    node, the hash of the group of the transport and the batch as inputs,
    and the data exchange is asked to send the serialized transport
    wrapper to the peer of the node, and accepts. *)
Definition batchSent (tw : TransportWrapper.t) (node : Identity.t)
    (pm pm' : privateMessaging) : Prop :=
  let batch := TransportWrapper.Batch tw in
  let groupHash :=
    match TransportWrapper.Group tw with
    | Some g => Group.Hash g
    | None => None
    end in
  exists op pm1 payload w,
    operationAdded (Batch.Namespace batch)
      (TransactionRef.ID (BatchPayload.TX (Batch.Payload batch)))
      OpTypeDataExchangeSendBatch
      (fun op => addBatchSendInputs op (Identity.ID node) groupHash (Batch.ID batch))
      op pm pm1 /\
    MarshalTransportWrapper tw = Ok payload /\
    SendMessage (Operation.ID op) (peerID node) payload (world pm1) = (None, w) /\
    pm' = mkPrivateMessaging w
            (trace pm1 ++ [CallRunOperation (opSendBatch op node tw);
                           CallSendMessage (Operation.ID op) (peerID node) payload]).

(** [nodeSent tw localOrg node pm pm']: what a dispatch does for one node
    of the group: nothing for a node of the local organization; otherwise
    the blob of every data record of the batch is transferred, record
    after record, and then the batch is sent. *)
Definition nodeSent (tw : TransportWrapper.t) (localOrg node : Identity.t)
    (pm pm' : privateMessaging) : Prop :=
  let payload := Batch.Payload (TransportWrapper.Batch tw) in
  if Equals (Identity.Parent node) (Identity.ID localOrg) then pm' = pm
  else
    exists pm1,
      chain (blobTransferred (TransactionRef.ID (BatchPayload.TX payload)) node)
        (BatchPayload.Data payload) pm pm1 /\
      batchSent tw node pm1 pm'.

(** Agreement on the log. *)
Definition keeps {X : Type} (proj : privateMessaging -> X)
    (pm pm' : privateMessaging) : Prop :=
  proj pm' = proj pm.

End privateMessaging.

End privatemessaging.

(** ** The operation handler of the private messaging ([operations.go]) *)

(** Modelled from the spec: [fftypes.ParseUUID] and [fftypes.ParseBytes32]
    are not under src; they read an identifier or a hash from its text and
    fail on a text that is not one. *)
Module parse.
Class Text : Type := {
  ParseUUID : string -> result UUID;
  ParseBytes32 : string -> result Bytes32
}.
End parse.

Module privatemessaging_handlers.

Import database identity operations dataexchange privatemessaging.

Local Open Scope go_scope.

(** The lookups of the handler that the other functions do not use, the
    hydration of a persisted batch by the data manager, and the submitter
    of batch pins, seen from their callers. *)
Class Store (W : Type) : Type := {
  GetIdentityByID : option UUID -> W -> result (option Identity.t) * W;
  GetGroupByHash : option Bytes32 -> W -> result (option Group.t) * W;
  HydrateBatch : BatchPersisted.t -> W -> result Batch.t * W
}.

Class Submitter (W : Type) : Type := {
  SubmitPinnedBatch : BatchPersisted.t -> list Bytes32 -> W -> option Error * W
}.

Section handlers.
Context {W : Type}.
Context `{!Codec} `{!parse.Text} `{!Runtime W} `{!database.Plugin W}.
Context `{!identity.Manager W} `{!operations.Manager W} `{!dataexchange.Plugin W}.
Context `{!GroupManager W} `{!Store W} `{!Submitter W}.

Abbreviation PM := (@privatemessaging.PM W).

(** A value computed without the store. *)
Definition pure {A : Type} (r : result A) : PM A := fun pm => (r, pm).

Definition retrieveSendBlobInputs (op : Operation.t) : PM (UUID * Bytes32) :=
  do nodeID <- pure (parse.ParseUUID (GetString (Operation.Input op) "node"));
  do blobHash <- pure (parse.ParseBytes32 (GetString (Operation.Input op) "hash"));
  ret (nodeID, blobHash).

Definition retrieveBatchSendInputs (op : Operation.t)
  : PM (UUID * Bytes32 * UUID) :=
  do nodeID <- pure (parse.ParseUUID (GetString (Operation.Input op) "node"));
  do groupHash <- pure (parse.ParseBytes32 (GetString (Operation.Input op) "group"));
  do batchID <- pure (parse.ParseUUID (GetString (Operation.Input op) "batch"));
  ret (nodeID, groupHash, batchID).

(** [i18n.Msg404NotFound] and [i18n.MsgOperationNotSupported]. *)
Definition notFound : Error := "not found".
Definition operationNotSupported : Error := "operation not supported".

Definition PrepareOperation (op : Operation.t) : PM PreparedOperation.t :=
  match Operation.Type_ op with
  | OpTypeDataExchangeSendBlob =>
      do '(nodeID, blobHash) <- retrieveSendBlobInputs op;
      do node <- call (GetIdentityByID (Some nodeID));
      match node with
      | None => fail notFound
      | Some node =>
          do blob <- call (GetBlobMatchingHash (Some blobHash));
          match blob with
          | None => fail notFound
          | Some blob => ret (opSendBlob op node blob)
          end
      end
  | OpTypeDataExchangeSendBatch =>
      do '(nodeID, groupHash, batchID) <- retrieveBatchSendInputs op;
      do node <- call (GetIdentityByID (Some nodeID));
      match node with
      | None => fail notFound
      | Some node =>
          do group <- call (GetGroupByHash (Some groupHash));
          match group with
          | None => fail notFound
          | Some group =>
              do bp <- call (GetBatchByID (Some batchID));
              match bp with
              | None => fail notFound
              | Some bp =>
                  do batch <- call (HydrateBatch bp);
                  let transport := TransportWrapper.mk (Some group) batch in
                  ret (opSendBatch op node transport)
              end
          end
      end
  | _ => fail operationNotSupported
  end.

(** *** The two dispatchers of private batches *)

(** The dispatch state of the batch assembler: the persisted batch with its
    messages, its data and its pins. *)
Definition dispatchPinnedBatch (persisted : BatchPersisted.t)
    (messages : list Message.t) (data : list Data.t) (pins : list Bytes32)
  : PM unit :=
  run dispatchBatchCommon persisted messages data;
  callE (SubmitPinnedBatch persisted pins).

Definition dispatchUnpinnedBatch (persisted : BatchPersisted.t)
    (messages : list Message.t) (data : list Data.t) : PM unit :=
  dispatchBatchCommon persisted messages data.

(** The data exchange is not asked to send a message by a call. *)
Definition notSendMessage (c : @privatemessaging.Call) : Prop :=
  match c with
  | CallSendMessage _ _ _ => False
  | _ => True
  end.

(** A computation that never asks the data exchange to send a message,
    however it ends. *)
Definition quiet {A : Type} (m : PM A) : Prop :=
  forall pm r pm',
    m pm = (r, pm') ->
    exists calls, trace pm' = trace pm ++ calls /\ Forall notSendMessage calls.

End handlers.

End privatemessaging_handlers.

(** ** A small node *)

(** A concrete world, with its collaborators, on which the functions
    above can be run: a store of tables, a counter of the queries that are
    still to fail, and the next identifier. *)
Module demo.

Import database identity data definitions metrics operations dataexchange.
Import privatemessaging.

Module World.
Record t : Type := mk {
  pins : list Pin.t;
  data : list Data.t;
  messages : list Message.t;
  batches : list BatchPersisted.t;
  blobs : list Blob.t;
  identities : list (string * Identity.t);
  faults : nat;
  nextID : N
}.

Definition withFaults (n : nat) (w : t) : t :=
  mk (pins w) (data w) (messages w) (batches w) (blobs w) (identities w) n
     (nextID w).

Definition withNextID (n : N) (w : t) : t :=
  mk (pins w) (data w) (messages w) (batches w) (blobs w) (identities w)
     (faults w) n.
End World.

Definition header (id : UUID) (t : MessageType) (author key tag : string)
    (topics : list string) : MessageHeader.t :=
  {| MessageHeader.ID := id; MessageHeader.CID := None;
     MessageHeader.Type_ := t; MessageHeader.TxType := TransactionTypeBatchPin;
     MessageHeader.Author := author; MessageHeader.Key := key;
     MessageHeader.Created := 0; MessageHeader.Namespace := "ns1";
     MessageHeader.Group := None; MessageHeader.Topics := topics;
     MessageHeader.Tag := tag; MessageHeader.DataHash := None |}.

Definition message (h : MessageHeader.t) (batch : option UUID)
    (refs : list DataRef.t) : Message.t :=
  {| Message.Header := h; Message.Hash := Some 500%N; Message.BatchID := batch;
     Message.State := MessageStatePending; Message.Confirmed := None;
     Message.Data := refs; Message.Pins := [] |}.

(** [M6]: a broadcast on two topics by a registered author. *)
Definition M6 : Message.t :=
  message (header 6 MessageTypeBroadcast "did:org1" "0xabc" "" ["t1"; "t2"])
    (Some 101%N) [].

(** [M7]: a private message whose key is registered to no identity. *)
Definition M7 : Message.t :=
  message (header 7 MessageTypePrivate "did:nobody" "0xdef" "" ["t3"])
    (Some 101%N) [].

(** [M8]: a message that waits for the blob of hash 77, through the data
    record 11. *)
Definition M8 : Message.t :=
  message (header 8 MessageTypeBroadcast "did:org1" "0xabc" "" ["t4"])
    (Some 103%N) [DataRef.mk 11 None].

Definition org1 : Identity.t :=
  {| Identity.ID := Some 201%N; Identity.DID := "did:org1";
     Identity.Type_ := IdentityTypeOrg; Identity.Parent := None;
     Identity.Namespace := "ns1"; Identity.Name := "org1";
     Identity.Profile := [] |}.

Definition node1 : Identity.t :=
  {| Identity.ID := Some 211%N; Identity.DID := "did:node1";
     Identity.Type_ := IdentityTypeNode; Identity.Parent := Some 201%N;
     Identity.Namespace := "ns1"; Identity.Name := "node1";
     Identity.Profile := [("id", "peer1")] |}.

Definition node2 : Identity.t :=
  {| Identity.ID := Some 212%N; Identity.DID := "did:node2";
     Identity.Type_ := IdentityTypeNode; Identity.Parent := Some 202%N;
     Identity.Namespace := "ns1"; Identity.Name := "node2";
     Identity.Profile := [("id", "peer2")] |}.

(** The manifest of batch 101: [M6] with two topics, then [M7] with one. *)
Definition manifest101 : BatchManifest.t :=
  {| BatchManifest.Version := ManifestVersion1;
     BatchManifest.ID := Some 101%N;
     BatchManifest.TX := TransactionRef.mk TransactionTypeBatchPin (Some 301%N);
     BatchManifest.Messages :=
       [MessageManifestEntry.mk 6 (Some 500%N) 2;
        MessageManifestEntry.mk 7 (Some 500%N) 1];
     BatchManifest.Data := [] |}.

Definition persisted (id : UUID) (manifest : string) : BatchPersisted.t :=
  {| BatchPersisted.ID := Some id; BatchPersisted.Namespace := "ns1";
     BatchPersisted.Author := "did:org1"; BatchPersisted.Key := "0xabc";
     BatchPersisted.Group := None; BatchPersisted.Created := 0;
     BatchPersisted.Hash := Some 900%N; BatchPersisted.Manifest := Some manifest;
     BatchPersisted.TX := TransactionRef.mk TransactionTypeBatchPin (Some 301%N);
     BatchPersisted.PayloadRef := "" |}.

Definition batch101 : BatchPersisted.t := persisted 101 "manifest101".

(** A batch stored by an old version: the full payload, no version. *)
Definition batch102 : BatchPersisted.t := persisted 102 "payload102".

Definition payload102 : BatchPayload.t :=
  BatchPayload.mk (TransactionRef.mk TransactionTypeBatchPin (Some 301%N)) [M6] [].

Definition blobData (id : UUID) (hash : Bytes32) : Data.t :=
  {| Data.ID := id; Data.Validator := ""; Data.Namespace := "ns1";
     Data.Hash := None; Data.Created := 0; Data.Value := "";
     Data.Blob := Some (BlobRef.mk (Some hash) 10 "" "") |}.

Definition blob77 : Blob.t :=
  {| Blob.Hash := Some 77%N; Blob.Size := 10; Blob.PayloadRef := "blob/77";
     Blob.Created := 0 |}.

Definition pin (seq : Z) (batch : UUID) (index : Z) (dispatched : bool)
    (signer : string) : Pin.t :=
  {| Pin.Sequence := seq; Pin.Masked := false; Pin.Hash := None;
     Pin.Batch := Some batch; Pin.BatchHash := Some 900%N; Pin.Index := index;
     Pin.Dispatched := dispatched; Pin.Signer := signer; Pin.Created := 0 |}.

Definition world0 : World.t :=
  {| World.pins :=
       [pin 5 101 2 false "0xdef"; pin 3 101 0 false "0xabc";
        pin 1 101 1 true "0xabc"; pin 2 104 0 false "0xabc"];
     World.data := [blobData 11 77; blobData 12 77];
     World.messages := [M6; M7; M8];
     World.batches := [batch101; batch102];
     World.blobs := [blob77];
     World.identities := [("0xabc", org1)];
     World.faults := 0;
     World.nextID := 1000 |}.

#[export] Instance codec : Codec := {|
  sha256 := fun s => N.of_nat (String.length s);
  ParseBytes32 := fun _ => None;
  UUIDString := fun u => match u with Some _ => "uuid" | None => "" end;
  Bytes32String := fun h => match h with Some _ => "hash" | None => "" end;
  UnmarshalBatchManifest := fun s =>
    match s with
    | Some j =>
        if String.eqb j "manifest101" then Some manifest101
        else if String.eqb j "payload102"
        then Some (BatchManifest.mk ManifestVersionUnset None
                     (TransactionRef.mk TransactionTypeBatchPin (Some 301%N)) [] [])
        else None
    | None => None
    end;
  UnmarshalBatchPayload := fun s =>
    match s with
    | Some j => if String.eqb j "payload102" then Some payload102 else None
    | None => None
    end;
  MarshalTransportWrapper := fun _ => Ok "wrapper";
  SystemTagIdentityClaim := "ff_identity_claim";
  DeprecatedSystemTagDefineNode := "ff_define_node";
  DeprecatedSystemTagDefineOrganization := "ff_define_organization"
|}.

#[export] Instance runtime : Runtime World.t := {|
  NewUUID := fun w => (World.nextID w, World.withNextID (World.nextID w + 1) w);
  Now := fun w => (0%Z, w);
  ctxDone := fun _ => false;
  sleep := fun w => w
|}.

Definition findBatch (id : option UUID) (w : World.t) : option BatchPersisted.t :=
  List.find (fun b => Equals (BatchPersisted.ID b) id) (World.batches w).

Definition findBlob (hash : option Bytes32) (w : World.t) : option Blob.t :=
  List.find (fun b => Equals (Blob.Hash b) hash) (World.blobs w).

#[export] Instance db : database.Plugin World.t := {|
  dbFault := fun w =>
    match World.faults w with
    | O => (None, w)
    | S n => (Some "store unavailable", World.withFaults n w)
    end;
  pinsTable := World.pins;
  dataTable := World.data;
  messagesTable := World.messages;
  beginGroup := fun w => (None, w);
  commitGroup := fun w => (None, w);
  rollbackGroup := fun w => w;
  GetBatchByID := fun id w => (Ok (findBatch id w), w);
  GetBlobMatchingHash := fun hash w => (Ok (findBlob hash w), w);
  GetTokenTransfers := fun _ w => (Ok [], w);
  InsertEvent := fun _ w => (None, w)
|}.

Definition findIdentity (key : string) (w : World.t) : option Identity.t :=
  option_map snd (List.find (fun kv => String.eqb (fst kv) key) (World.identities w)).

#[export] Instance identities : identity.Manager World.t := {|
  FindIdentityForVerifier := fun _ _ ref w =>
    (Ok (findIdentity (VerifierRef.Value ref) w), w);
  GetNodeOwnerOrg := fun w => (Ok org1, w)
|}.

Definition findMessage (id : UUID) (w : World.t) : option Message.t :=
  List.find (fun m => N.eqb (MessageHeader.ID (Message.Header m)) id)
    (World.messages w).

#[export] Instance dataManager : data.Manager World.t := {|
  GetMessageWithDataCached := fun id _ w =>
    match findMessage id w with
    | Some m => (Ok (m, [], true), w)
    | None => (Ok (M6, [], false), w)
    end;
  ValidateAll := fun _ w => (Ok true, w)
|}.

#[export] Instance handlers : DefinitionHandlers World.t unit unit := {|
  HandleDefinitionBroadcast := fun _ _ _ _ w =>
    ((HandlerResult.mk ActionConfirm None, None), ([], []), w);
  runPreFinalize := fun _ w => (None, w);
  runFinalize := fun _ w => (None, w)
|}.

#[export] Instance noMetrics : metrics.Manager World.t := {|
  IsMetricsEnabled := fun _ => false;
  MessageConfirmed := fun _ _ w => w
|}.

#[export] Instance noCache : BatchCache World.t := {|
  batchCacheGet := fun _ w => (None, w);
  batchCacheSet := fun _ _ w => w
|}.

(** Every context is ready. *)
#[export] Instance alwaysReady : BatchStateOps World.t unit unit := {|
  newBS := tt;
  CheckMaskedContextReady := fun _ _ _ _ _ bs w => (Ok (Some tt), bs, w);
  CheckUnmaskedContextReady := fun _ _ _ _ bs w => (Ok true, bs, w);
  IncrementNextPin := fun _ bs w => (bs, w);
  MarkMessageDispatched := fun _ _ _ _ bs => bs;
  SetContextBlockedBy := fun _ _ bs => bs
|}.

#[export] Instance ops : operations.Manager World.t := {|
  AddOrReuseOperation := fun _ w => (None, w);
  ResolveOperation := fun _ _ _ w => w
|}.

#[export] Instance dx : dataexchange.Plugin World.t := {|
  Name := "dx";
  TransferBLOB := fun _ _ _ w => (None, w);
  SendMessage := fun _ _ _ w => (None, w)
|}.

#[export] Instance groups : GroupManager World.t := {|
  getGroupNodes := fun _ w =>
    (Ok (Group.mk "ns1" "g" [] (Some 600%N), [node1; node2]), w)
|}.

Definition ag0 : @events.aggregator World.t unit unit unit :=
  {| events.world := world0; events.verifierType := "ethereum_address";
     events.state := events.newBatchState; events.pollingOffset := 0;
     events.rewindBatches := []; events.queuedRewinds := [];
     events.trace := [] |}.

(** The page of the two pins of [M6], one per topic. *)
Definition pageM6 : list Pin.t :=
  [pin 1 101 0 false "0xabc"; pin 2 101 1 false "0xabc"].

(** A callback that registers one closure of each kind, as the handler of
    a definition does. *)
Definition registerBoth
  : events.AM (W := World.t) (BS := unit) (HPre := unit) (HFin := unit) unit :=
  bind (events.AddPreFinalize tt)
    (fun _ =>
       events.AddFinalize
         (events.FinalizeMessageEvents EventTypeMessageConfirmed M6 None None)).

(** A page whose pins all point to a batch that has not arrived. *)
Definition pageParked : list Pin.t :=
  [pin 8 999 0 false "0xabc"; pin 9 999 1 false "0xabc"].

Definition pm0 : @privatemessaging.privateMessaging World.t :=
  {| privatemessaging.world := world0; privatemessaging.trace := [] |}.

(** A private batch with one data record that carries the blob 77. *)
Definition inflight : Batch.t :=
  privatemessaging.GenInflight batch101 [M7] [blobData 11 77].

Definition wrapper : TransportWrapper.t := TransportWrapper.mk None inflight.

End demo.

(** ** More of the small node *)

(** The small node with texts of identifiers and hashes that can be read
    back, the lookups of the operation handler and a submitter of pins. *)
Module demo_handlers.

Import database identity operations dataexchange.
Import privatemessaging privatemessaging_handlers demo.

Fixpoint ones (n : nat) : string :=
  match n with
  | O => ""
  | S n' => String "1" (ones n')
  end.

(** The text of a number: a letter, then the number in unary; the text of
    nil is empty. *)
Definition text (letter : ascii) (n : option N) : string :=
  match n with
  | Some n => String letter (ones (N.to_nat n))
  | None => ""
  end.

Definition readText (letter : ascii) (e : Error) (s : string) : result N :=
  match s with
  | String c rest =>
      if Ascii.eqb c letter then Ok (N.of_nat (String.length rest)) else Err e
  | EmptyString => Err e
  end.

#[export] Instance textCodec : Codec | 0 := {|
  sha256 := @sha256 codec;
  ParseBytes32 := @ParseBytes32 codec;
  UUIDString := text "u";
  Bytes32String := text "h";
  UnmarshalBatchManifest := @UnmarshalBatchManifest codec;
  UnmarshalBatchPayload := @UnmarshalBatchPayload codec;
  MarshalTransportWrapper := @MarshalTransportWrapper codec;
  SystemTagIdentityClaim := @SystemTagIdentityClaim codec;
  DeprecatedSystemTagDefineNode := @DeprecatedSystemTagDefineNode codec;
  DeprecatedSystemTagDefineOrganization := @DeprecatedSystemTagDefineOrganization codec
|}.

#[export] Instance texts : parse.Text := {|
  parse.ParseUUID := readText "u" "not a UUID";
  parse.ParseBytes32 := readText "h" "not a hash"
|}.

Definition group600 : Group.t := Group.mk "ns1" "g" [] (Some 600%N).

#[export] Instance store : Store World.t := {|
  GetIdentityByID := fun id w =>
    (Ok (List.find (fun i => Equals (Identity.ID i) id) [org1; node1; node2]), w);
  GetGroupByHash := fun hash w =>
    (Ok (if Equals hash (Group.Hash group600) then Some group600 else None), w);
  HydrateBatch := fun bp w => (Ok (GenInflight bp [M7] [blobData 11 77]), w)
|}.

#[export] Instance submitter : Submitter World.t := {|
  SubmitPinnedBatch := fun _ _ w => (None, w)
|}.

(** A blob transfer operation and a batch send operation, before their
    inputs are added. *)
Definition sendBlobOp : Operation.t :=
  NewOperation 1000 0 "dx" "ns1" (Some 301%N) OpTypeDataExchangeSendBlob.

Definition sendBatchOp : Operation.t :=
  NewOperation 1001 0 "dx" "ns1" (Some 301%N) OpTypeDataExchangeSendBatch.

Definition pinBatchOp : Operation.t :=
  NewOperation 1002 0 "eth" "ns1" (Some 301%N) OpTypeBlockchainPinBatch.

End demo_handlers.

(** The small node with a data manager that finds the data of every
    message invalid, and with a store that has a token transfer for the
    message 9 and refuses the events of the topic [t2]. *)
Module demo_strict.

Import database identity data definitions metrics demo.

#[export] Instance strictData : data.Manager World.t | 0 := {|
  GetMessageWithDataCached := @GetMessageWithDataCached World.t dataManager;
  ValidateAll := fun _ w => (Ok false, w)
|}.

#[export] Instance strictStore : database.Plugin World.t | 0 := {|
  dbFault := @dbFault World.t db;
  pinsTable := World.pins;
  dataTable := World.data;
  messagesTable := World.messages;
  beginGroup := @beginGroup World.t db;
  commitGroup := @commitGroup World.t db;
  rollbackGroup := @rollbackGroup World.t db;
  GetBatchByID := @GetBatchByID World.t db;
  GetBlobMatchingHash := @GetBlobMatchingHash World.t db;
  GetTokenTransfers := fun _ w =>
    (Ok [TokenTransfer.mk None (Some 9%N) (Some 500%N)], w);
  InsertEvent := fun e w =>
    if String.eqb (Event.Topic e) "t2" then (Some "event refused", w)
    else (None, w)
|}.

(** [M9]: the broadcast of a token transfer. *)
Definition M9 : Message.t :=
  message (header 9 MessageTypeTransferBroadcast "did:org1" "0xabc" "" ["t5"])
    (Some 101%N) [].

(** A private message with one masked pin for its one topic. *)
Definition M10 : Message.t :=
  {| Message.Header := header 10 MessageTypePrivate "did:org1" "0xabc" "" ["t6"];
     Message.Hash := Some 500%N; Message.BatchID := Some 101%N;
     Message.State := MessageStatePending; Message.Confirmed := None;
     Message.Data := []; Message.Pins := ["ctx:1"] |}.

(** Pins of [M6], signed by the key of the message and by another key. *)
Definition pinM6 : Pin.t := pin 1 101 0 false "0xabc".
Definition pinForged : Pin.t := pin 1 101 0 false "0xdef".

(** A masked pin that points at [M6], which has no group. *)
Definition pinMasked : Pin.t :=
  {| Pin.Sequence := 1; Pin.Masked := true; Pin.Hash := None;
     Pin.Batch := Some 101%N; Pin.BatchHash := Some 900%N; Pin.Index := 0;
     Pin.Dispatched := false; Pin.Signer := "0xabc"; Pin.Created := 0 |}.

(** The small node when only the data record 11 carries the blob 77. *)
Definition agOneRecord : @events.aggregator World.t unit unit unit :=
  events.setWorld
    (World.mk (World.pins world0) [blobData 11 77] (World.messages world0)
       (World.batches world0) (World.blobs world0) (World.identities world0)
       0 1000)
    ag0.

End demo_strict.

(** The small node with an identity manager that is out of reach. *)
Module demo_faulty.

Import identity demo.

#[export] Instance unreachable : identity.Manager World.t | 0 := {|
  FindIdentityForVerifier := fun _ _ _ w => (Err "identity lookup failed", w);
  GetNodeOwnerOrg := @GetNodeOwnerOrg World.t identities
|}.

End demo_faulty.

(** * Properties *)

(** ** The monad *)

Module go_spec.

Section laws.
Context {S : Type}.

Lemma bind_Ok {A B : Type} (m : M S A) (k : A -> M S B) s b s' :
  bind m k s = (Ok b, s') ->
  exists a s1, m s = (Ok a, s1) /\ k a s1 = (Ok b, s').
Proof.
  unfold bind. destruct (m s) as [[a|e|] s1]; intros H; try done.
  by exists a, s1.
Qed.

Lemma bind_eq {A B : Type} (m : M S A) (k : A -> M S B) s a s1 :
  m s = (Ok a, s1) -> bind m k s = k a s1.
Proof. unfold bind. by intros ->. Qed.

Lemma bind_cases {A B : Type} (m : M S A) (k : A -> M S B) s r s' :
  bind m k s = (r, s') ->
  (exists a s1, m s = (Ok a, s1) /\ k a s1 = (r, s')) \/
  (exists e, m s = (Err e, s') /\ r = Err e) \/
  (m s = (Panic, s') /\ r = Panic).
Proof.
  unfold bind. destruct (m s) as [[a|e|] s1]; intros Hr.
  - left. by exists a, s1.
  - injection Hr as <- <-. right. left. by exists e.
  - injection Hr as <- <-. right. by right.
Qed.

Lemma forRange_app {A X : Type} (body : A -> X -> M S A) l1 l2 acc s :
  forRange body (l1 ++ l2) acc s =
  bind (forRange body l1 acc) (forRange body l2) s.
Proof.
  revert acc s. induction l1 as [|x l1 IH]; intros acc s; simpl; [done|].
  unfold bind. destruct (body acc x s) as [[a|e|] s1]; auto.
Qed.

Lemma forRange_cons {A X : Type} (body : A -> X -> M S A) x l acc s :
  forRange body (x :: l) acc s =
  match body acc x s with
  | (Ok a, s') => forRange body l a s'
  | (Err e, s') => (Err e, s')
  | (Panic, s') => (Panic, s')
  end.
Proof. reflexivity. Qed.

Section frame.
Context (R : S -> S -> Prop) `{!PreOrder R}.

Lemma preserves_ret {A : Type} (a : A) : preserves R (ret a).
Proof. intros s. simpl. reflexivity. Qed.

Lemma preserves_fail {A : Type} e : preserves R (@fail S A e).
Proof. intros s. simpl. reflexivity. Qed.

Lemma preserves_panic {A : Type} : preserves R (@panic S A).
Proof. intros s. simpl. reflexivity. Qed.

Lemma preserves_get : preserves R (@get S).
Proof. intros s. simpl. reflexivity. Qed.

Lemma preserves_modify (f : S -> S) :
  (forall s, R s (f s)) -> preserves R (modify f).
Proof. intros Hf s. apply Hf. Qed.

Lemma preserves_bind {A B : Type} (m : M S A) (k : A -> M S B) :
  preserves R m -> (forall a, preserves R (k a)) -> preserves R (bind m k).
Proof.
  intros Hm Hk s. unfold bind. specialize (Hm s).
  destruct (m s) as [[a|e|] s1]; simpl in *; try done.
  etrans; [exact Hm|]. apply Hk.
Qed.

Lemma preserves_forRange {A X : Type} (body : A -> X -> M S A) l acc :
  (forall a x, preserves R (body a x)) -> preserves R (forRange body l acc).
Proof.
  intros Hb. revert acc. induction l as [|x l IH]; intros acc; simpl.
  - apply preserves_ret.
  - apply preserves_bind; [apply Hb|]. intros a. apply IH.
Qed.

Lemma preserves_run {A : Type} (m : M S A) s r s' :
  preserves R m -> m s = (r, s') -> R s s'.
Proof. intros Hm Hs. specialize (Hm s). by rewrite Hs in Hm. Qed.

End frame.
End laws.

End go_spec.

Import go_spec.

Module events_spec.

Import database identity data definitions metrics.

Local Open Scope Z_scope.

Lemma wrap64_id z : int64 z -> wrap64 z = z.
Proof.
  unfold int64, wrap64. intros Hz.
  rewrite Z.mod_small; lia.
Qed.

(** *** The walk over the manifest *)

Abbreviation Topics := MessageManifestEntry.Topics.

Lemma turns_nonneg l : 0 <= turns l.
Proof. induction l as [|e l IH]; simpl; lia. Qed.

Lemma turns_app l1 l2 : turns (l1 ++ l2) = turns l1 + turns l2.
Proof. induction l1 as [|e l1 IH]; simpl; lia. Qed.

Lemma turns_topicTotal l :
  Forall (fun e => 0 <= Topics e) l -> turns l = topicTotal l.
Proof.
  induction 1 as [|e l He _ IH]; simpl; [done|].
  rewrite IH. lia.
Qed.

Lemma pinStep_iter req msg base (n : nat) t e b :
  0 <= t -> t + Z.of_nat n < 2 ^ 63 ->
  Nat.iter n (pinStep req msg base) (t, e, b) =
  (t + Z.of_nat n,
   if (t <=? req) && (req <? t + Z.of_nat n) then Some msg else e,
   if (t <=? req) && (req <? t + Z.of_nat n) then base else b).
Proof.
  intros Ht. induction n as [|n IH]; intros Hn.
  - simpl. rewrite Z.add_0_r.
    replace ((t <=? req) && (req <? t)) with false by lia.
    done.
  - rewrite Nat.iter_succ, IH by lia. unfold pinStep.
    rewrite wrap64_id by (unfold int64; lia).
    replace (t + Z.of_nat (S n)) with (t + Z.of_nat n + 1) by lia.
    destruct (Z.eqb_spec (t + Z.of_nat n) req) as [<-|Hne].
    + replace ((t <=? t + Z.of_nat n) && (t + Z.of_nat n <? t + Z.of_nat n + 1))
        with true by lia.
      done.
    + replace ((t <=? req) && (req <? t + Z.of_nat n + 1))
        with ((t <=? req) && (req <? t + Z.of_nat n)) by lia.
      done.
Qed.

Lemma owner_base l base req e b :
  owner l base req = Some (e, b) -> base <= b <= req.
Proof.
  revert base. induction l as [|x l IH]; intros base; simpl; [done|].
  destruct ((base <=? req) && (req <? base + Topics x)) eqn:Hin.
  - intros [= <- <-]. lia.
  - intros H%IH. lia.
Qed.

Lemma pinWalk_fold l req t e0 b0 :
  0 <= t -> t + turns l < 2 ^ 63 ->
  fold_left (pinWalkMessage req) l (t, e0, b0) =
  (t + turns l,
   match owner l t req with Some (e, _) => Some e | None => e0 end,
   match owner l t req with Some (_, b) => b | None => b0 end).
Proof.
  revert t e0 b0. induction l as [|x l IH]; intros t e0 b0 Ht Hsum; simpl.
  - by rewrite Z.add_0_r.
  - simpl in Hsum. pose proof (turns_nonneg l) as Hl.
    unfold pinWalkMessage at 2. simpl.
    rewrite pinStep_iter by lia.
    replace (Z.of_nat (Z.to_nat (Topics x))) with (Z.max 0 (Topics x)) by lia.
    rewrite IH by lia.
    replace ((t <=? req) && (req <? t + Z.max 0 (Topics x)))
      with ((t <=? req) && (req <? t + Topics x)) by lia.
    f_equal; [f_equal; [lia|]|].
    + destruct ((t <=? req) && (req <? t + Topics x)) eqn:Hin; [|done].
      destruct (owner l _ req) as [[e b]|] eqn:Ho; [|done].
      apply owner_base in Ho. lia.
    + destruct ((t <=? req) && (req <? t + Topics x)) eqn:Hin; [|done].
      destruct (owner l _ req) as [[e b]|] eqn:Ho; [|done].
      apply owner_base in Ho. lia.
Qed.

(** [owner] picks the entry whose range of indexes contains [req]. *)
Lemma owner_Some l base req e b :
  owner l base req = Some (e, b) <->
  exists k : nat, l !! k = Some e /\ b = base + turns (take k l) /\
                  b <= req < b + Topics e.
Proof.
  revert base. induction l as [|x l IH]; intros base; simpl.
  - split; [done|]. by intros (k & Hk & _).
  - destruct ((base <=? req) && (req <? base + Topics x)) eqn:Hin.
    + split.
      * intros [= <- <-]. exists 0%nat. simpl. split; [done|]. lia.
      * intros (k & Hk & -> & Hr). destruct k as [|k]; simpl in *.
        { injection Hk as <-. f_equal. f_equal. lia. }
        pose proof (turns_nonneg (take k l)). lia.
    + rewrite IH. split.
      * intros (k & Hk & -> & Hr). exists (S k). simpl.
        split; [done|]. lia.
      * intros (k & Hk & -> & Hr). destruct k as [|k]; simpl in *.
        { injection Hk as <-. lia. }
        exists k. split; [done|]. lia.
Qed.

Lemma owner_None l base req :
  req < base \/ base + turns l <= req -> owner l base req = None.
Proof.
  revert base. induction l as [|x l IH]; intros base H; simpl; [done|].
  simpl in H. pose proof (turns_nonneg l).
  replace ((base <=? req) && (req <? base + Topics x)) with false by lia.
  apply IH. lia.
Qed.

Lemma turns_take_lt (l : list MessageManifestEntry.t) (k k' : nat) e :
  l !! k = Some e -> (k < k')%nat ->
  turns (take k l) + Z.max 0 (Topics e) <= turns (take k' l).
Proof.
  revert k k'. induction l as [|x l IH]; intros k k' Hk Hlt; [done|].
  destruct k' as [|k']; [lia|]. destruct k as [|k]; simpl in *.
  - injection Hk as ->. pose proof (turns_nonneg (take k' l)). lia.
  - specialize (IH k k' Hk). lia.
Qed.

Lemma range_unique (l : list MessageManifestEntry.t) (k k' : nat) e e' i :
  l !! k = Some e -> l !! k' = Some e' ->
  turns (take k l) <= i < turns (take k l) + Topics e ->
  turns (take k' l) <= i < turns (take k' l) + Topics e' ->
  k = k'.
Proof.
  intros Hk Hk' Hr Hr'.
  destruct (Nat.lt_trichotomy k k') as [Hlt|[Heq|Hlt]]; [|done|].
  - pose proof (turns_take_lt l k k' e Hk Hlt). lia.
  - pose proof (turns_take_lt l k' k e' Hk' Hlt). lia.
Qed.

Lemma turns_take_topicTotal (l : list MessageManifestEntry.t) (k : nat) :
  Forall (fun e => 0 <= Topics e) l -> turns (take k l) = topicTotal (take k l).
Proof. intros Hl. apply turns_topicTotal. by apply Forall_take. Qed.

Section aggregator_spec.
Context {W BS NP HPre HFin : Type}.
Context `{!Codec} `{!Runtime W} `{!database.Plugin W} `{!identity.Manager W}.
Context `{!data.Manager W} `{!definitions.DefinitionHandlers W HPre HFin}.
Context `{!metrics.Manager W} `{!BatchCache W} `{!BatchStateOps W BS NP}.

Abbreviation aggregator := (@events.aggregator W BS HPre HFin).
Abbreviation AM := (@events.AM W BS HPre HFin).
Abbreviation Call := (@events.Call HPre HFin).

(** C4. For a manifest whose topic counts are counts (none is negative, and
    their sum is an [int64]) and every pin index [i]: the walk returns the
    total number of pins; the entry it resolves is the entry whose range of
    cumulative topic counts contains [i], with the start of that range as
    base index, and there is only one such entry; outside of the total
    range it resolves no entry; and a pin for which no entry is resolved is
    skipped by the loop of [processPins], which goes on with the next pin
    without an error and without touching the message. *)
Theorem extractBatchMessagePin_owner (manifest : BatchManifest.t) (i : Z) :
  Forall (fun e => 0 <= Topics e) (BatchManifest.Messages manifest) ->
  topicTotal (BatchManifest.Messages manifest) < 2 ^ 63 ->
  let '(total, msgEntry, msgBaseIndex) := extractBatchMessagePin manifest i in
  total = topicTotal (BatchManifest.Messages manifest) /\
  (forall (k : nat) e,
     BatchManifest.Messages manifest !! k = Some e ->
     baseIndex manifest k <= i < baseIndex manifest k + Topics e ->
     msgEntry = Some e /\ msgBaseIndex = baseIndex manifest k) /\
  (forall (k k' : nat) e e',
     BatchManifest.Messages manifest !! k = Some e ->
     BatchManifest.Messages manifest !! k' = Some e' ->
     baseIndex manifest k <= i < baseIndex manifest k + Topics e ->
     baseIndex manifest k' <= i < baseIndex manifest k' + Topics e' ->
     k = k') /\
  (forall e, msgEntry = Some e ->
     exists k : nat,
       BatchManifest.Messages manifest !! k = Some e /\
       msgBaseIndex = baseIndex manifest k /\
       baseIndex manifest k <= i < baseIndex manifest k + Topics e) /\
  (i < 0 \/ total <= i -> msgEntry = None) /\
  (forall cached dupMsgCheck (pin : Pin.t) batch (ag ag1 : aggregator),
     Pin.Index pin = i ->
     msgEntry = None ->
     batchForPin cached pin ag = (Ok (Some (batch, manifest)), ag1) ->
     processPin (cached, dupMsgCheck) pin ag
     = (Ok (Some (batch, manifest), dupMsgCheck), ag1)).
Proof.
  intros Hpos Hsum.
  pose proof (turns_topicTotal _ Hpos) as Htot.
  unfold extractBatchMessagePin.
  rewrite pinWalk_fold by (rewrite ?Htot; lia).
  rewrite Z.add_0_l, Htot.
  assert (Hbase : forall k : nat,
            turns (take k (BatchManifest.Messages manifest)) = baseIndex manifest k).
  { intros k. unfold baseIndex. by apply turns_take_topicTotal. }
  split; [done|].
  split.
  { intros k e Hk Hr.
    assert (Ho : owner (BatchManifest.Messages manifest) 0 i
                 = Some (e, baseIndex manifest k)).
    { apply owner_Some. exists k. rewrite Hbase. split; [done|]. lia. }
    by rewrite Ho. }
  split.
  { intros k k' e e' Hk Hk' Hr Hr'.
    eapply range_unique; eauto; by rewrite Hbase. }
  split.
  { intros e He.
    destruct (owner (BatchManifest.Messages manifest) 0 i) as [[e0 b]|] eqn:Ho;
      [|done].
    injection He as ->.
    apply owner_Some in Ho as (k & Hk & -> & Hr).
    exists k. rewrite Hbase in *. split; [done|]. split; lia. }
  split.
  { intros Hout. rewrite owner_None; [done|]. rewrite Htot. lia. }
  intros cached dup pin batch ag ag1 Hi Hnone Hfetch.
  unfold processPin, bind. rewrite Hfetch.
  unfold extractBatchMessagePin.
  rewrite pinWalk_fold by (rewrite ?Htot; lia).
  rewrite Hi. rewrite Hnone. done.
Qed.

(** *** Frames: what each function leaves alone *)

#[local] Instance keeps_preorder {X : Type} (proj : aggregator -> X) :
  PreOrder (keeps proj).
Proof. split; [by intros ?|]. intros a b c Hab Hbc. unfold keeps in *. congruence. Qed.

Ltac prim :=
  intros ag; unfold keeps, call, callE, callT, callU, onState, log, modify; simpl;
  repeat match goal with
         | |- context [let '(_, _) := ?x in _] => destruct x as [? ?]
         | |- context [match ?x with _ => _ end] => destruct x
         end; done.

Lemma call_trace {A : Type} (f : W -> result A * W) :
  preserves (keeps trace) (call f : AM A).
Proof. prim. Qed.

Lemma callE_trace (f : W -> option Error * W) :
  preserves (keeps trace) (callE f : AM unit).
Proof. prim. Qed.

Lemma callT_trace {A : Type} (f : W -> A * W) :
  preserves (keeps trace) (callT f : AM A).
Proof. prim. Qed.

Lemma callU_trace (f : W -> W) : preserves (keeps trace) (callU f : AM unit).
Proof. prim. Qed.

Lemma onState_trace {A : Type} (f : BS -> W -> result A * BS * W) :
  preserves (keeps trace) (onState f : AM A).
Proof. prim. Qed.

Lemma call_closures {A : Type} (f : W -> result A * W) :
  preserves (keeps closures) (call f : AM A).
Proof. prim. Qed.

Lemma callE_closures (f : W -> option Error * W) :
  preserves (keeps closures) (callE f : AM unit).
Proof. prim. Qed.

Lemma callT_closures {A : Type} (f : W -> A * W) :
  preserves (keeps closures) (callT f : AM A).
Proof. prim. Qed.

Lemma callU_closures (f : W -> W) : preserves (keeps closures) (callU f : AM unit).
Proof. prim. Qed.

Lemma onState_closures {A : Type} (f : BS -> W -> result A * BS * W) :
  preserves (keeps closures) (onState f : AM A).
Proof. prim. Qed.

Lemma log_closures c : preserves (keeps closures) (log c : AM unit).
Proof. prim. Qed.

Create HintDb frame discriminated.

#[local] Hint Resolve call_trace callE_trace callT_trace callU_trace
  onState_trace call_closures callE_closures callT_closures callU_closures
  onState_closures log_closures : frame.

(** Splits a goal [preserves R m] along the shape of [m]; the leaves are
    closed with the lemmas of the [frame] database. *)
Ltac frame :=
  repeat first
    [ solve [auto 1 with frame nocore]
    | match goal with
      | |- forall _, _ => intro
      | |- PreOrder _ => apply keeps_preorder
      | |- preserves _ (ret _) => apply preserves_ret
      | |- preserves _ (fail _) => apply preserves_fail
      | |- preserves _ panic => apply preserves_panic
      | |- preserves _ get => apply preserves_get
      | |- preserves _ (bind _ _) => apply preserves_bind
      | |- preserves _ (forRange _ _ _) => apply preserves_forRange
      | |- preserves _ (match ?x with _ => _ end) => destruct x
      | |- preserves _ (let '(_, _) := ?x in _) => destruct x
      | |- preserves _ (let _ := _ in _) => progress cbv zeta
      end ].

Lemma cacheBatch_trace k b m : preserves (keeps trace) (cacheBatch k b m : AM unit).
Proof. unfold cacheBatch. frame. Qed.

Lemma GetBatchForPin_trace pin : preserves (keeps trace) (GetBatchForPin pin : AM _).
Proof. unfold GetBatchForPin. frame. apply cacheBatch_trace. Qed.

Lemma batchForPin_trace cached pin :
  preserves (keeps trace) (batchForPin cached pin : AM _).
Proof. unfold batchForPin. frame; apply GetBatchForPin_trace. Qed.

Lemma checkOnchainConsistency_trace msg pin :
  preserves (keeps trace) (checkOnchainConsistency msg pin : AM _).
Proof. unfold checkOnchainConsistency. frame. Qed.

Lemma checkOnchainConsistency_closures msg pin :
  preserves (keeps closures) (checkOnchainConsistency msg pin : AM _).
Proof. unfold checkOnchainConsistency. frame. Qed.

Lemma resolveBlobs_trace data : preserves (keeps trace) (resolveBlobs data : AM _).
Proof. unfold resolveBlobs. frame. Qed.

Lemma resolveBlobs_closures data :
  preserves (keeps closures) (resolveBlobs data : AM _).
Proof. unfold resolveBlobs. frame. Qed.

Lemma setPendingConfirm_trace id msg :
  preserves (keeps trace) (setPendingConfirm id msg : AM unit).
Proof. prim. Qed.

Lemma AddFinalize_trace f : preserves (keeps trace) (AddFinalize f : AM unit).
Proof. prim. Qed.

Lemma handleDefinitionBroadcast_trace msg data tx :
  preserves (keeps trace) (handleDefinitionBroadcast msg data tx : AM _).
Proof.
  intros ag. unfold keeps, handleDefinitionBroadcast.
  by destruct (HandleDefinitionBroadcast _ _ _ _ _) as [[? [? ?]] ?].
Qed.

Lemma isMetricsEnabled_trace : preserves (keeps trace) (isMetricsEnabled : AM bool).
Proof. by intros ag. Qed.

#[local] Hint Resolve isMetricsEnabled_trace : frame.

#[local] Hint Resolve setPendingConfirm_trace AddFinalize_trace
  handleDefinitionBroadcast_trace cacheBatch_trace GetBatchForPin_trace
  batchForPin_trace checkOnchainConsistency_trace
  checkOnchainConsistency_closures resolveBlobs_trace resolveBlobs_closures
  : frame.

Lemma queueDispatch_trace msg tx valid corr :
  preserves (keeps trace) (queueDispatch msg tx valid corr : AM _).
Proof. unfold queueDispatch, notDispatched. frame. Qed.

#[local] Hint Resolve queueDispatch_trace : frame.

Lemma attemptMessageDispatch_trace msg data tx pin (ag : aggregator) :
  trace (attemptMessageDispatch msg data tx pin ag).2 =
  trace ag ++ [CallAttemptMessageDispatch (MessageHeader.ID (Message.Header msg))].
Proof.
  unfold attemptMessageDispatch.
  match goal with
  | |- trace (bind _ ?k _).2 = _ =>
      assert (Hk : preserves (keeps trace) (k tt))
  end.
  { unfold notDispatched. frame. }
  unfold bind at 1. simpl. rewrite Hk. done.
Qed.

(** *** What a dispatch registers *)

Lemma queueDispatch_closures msg tx valid corr (ag : aggregator) :
  exists ag',
    queueDispatch msg tx valid corr ag
    = (Ok (if valid then MessageStateConfirmed else MessageStateRejected, true), ag')
    /\ closures ag'
       = (PreFinalize (state ag),
          Finalize (state ag)
          ++ [FinalizeMessageEvents
                (if valid then EventTypeMessageConfirmed
                 else EventTypeMessageRejected) msg tx corr]).
Proof.
  unfold queueDispatch, isMetricsEnabled, bind, get, ret, callU, setPendingConfirm,
    AddFinalize, modify.
  destruct valid; simpl;
    match goal with
    | |- context [IsMetricsEnabled ?w] => destruct (IsMetricsEnabled w)
    end; eexists; split; try reflexivity.
Qed.

Lemma handleDefinitionBroadcast_closures msg data tx (ag : aggregator) :
  exists r ag' pre fin,
    handleDefinitionBroadcast msg data tx ag = (Ok r, ag')
    /\ closures ag'
       = (PreFinalize (state ag) ++ pre,
          Finalize (state ag) ++ map FinalizeHandler fin).
Proof.
  unfold handleDefinitionBroadcast.
  destruct (HandleDefinitionBroadcast _ _ _ _ _) as [[r [pre fin]] w].
  eexists r, _, pre, fin. split; reflexivity.
Qed.

Lemma notDispatched_false (ag ag' : aggregator) newState :
  notDispatched ag <> (Ok (newState, true), ag').
Proof. done. Qed.

(** A dispatch went through the consistency check, and registered one
    closure for the events of the message after those of the definition
    handler. *)
Lemma attemptMessageDispatch_dispatched msg data tx pin (ag ag' : aggregator) newState :
  attemptMessageDispatch msg data tx pin ag = (Ok (newState, true), ag') ->
  (exists ag1,
     checkOnchainConsistency msg pin
       (log (CallAttemptMessageDispatch (MessageHeader.ID (Message.Header msg))) ag).2
     = (Ok true, ag1)) /\
  exists pre fin (valid : bool) corr,
    newState = (if valid then MessageStateConfirmed else MessageStateRejected) /\
    closures ag'
    = (PreFinalize (state ag) ++ pre,
       Finalize (state ag) ++ map FinalizeHandler fin
       ++ [FinalizeMessageEvents
             (if valid then EventTypeMessageConfirmed else EventTypeMessageRejected)
             msg tx corr]).
Proof.
  unfold attemptMessageDispatch. intros Hd.
  apply bind_Ok in Hd as (u & ag0 & Hlog & Hd).
  injection Hlog as _ <-.
  apply bind_Ok in Hd as (valid & ag1 & Hcheck & Hd).
  destruct valid; [|by apply notDispatched_false in Hd].
  split; [exists ag1; exact Hcheck|].
  pose proof (preserves_run _ _ _ _ _ (checkOnchainConsistency_closures msg pin) Hcheck)
    as Hc1.
  simpl in Hd.
  apply bind_Ok in Hd as (resolved & ag2 & Hblobs & Hd).
  destruct resolved; [|by apply notDispatched_false in Hd].
  pose proof (preserves_run _ _ _ _ _ (resolveBlobs_closures data) Hblobs) as Hc2.
  simpl in Hd.
  apply bind_Ok in Hd as (transferOk & ag3 & Htransfer & Hd).
  assert (Hc3 : keeps closures ag2 ag3).
  { eapply preserves_run; [|exact Htransfer]. frame. }
  destruct transferOk; [|by apply notDispatched_false in Hd].
  simpl in Hd.
  assert (Hc0 : closures ag3 = (PreFinalize (state ag), Finalize (state ag))).
  { unfold keeps in *. rewrite Hc3, Hc2, Hc1. done. }
  assert (Hdone : forall valid corr agq,
    queueDispatch msg tx valid corr agq = (Ok (newState, true), ag') ->
    closures agq = (PreFinalize (state ag), Finalize (state ag)) ->
    exists pre fin (valid : bool) corr,
      newState = (if valid then MessageStateConfirmed else MessageStateRejected) /\
      closures ag'
      = (PreFinalize (state ag) ++ pre,
         Finalize (state ag) ++ map FinalizeHandler fin
         ++ [FinalizeMessageEvents
               (if valid then EventTypeMessageConfirmed else EventTypeMessageRejected)
               msg tx corr])).
  { intros valid corr agq Hq Hcq.
    destruct (queueDispatch_closures msg tx valid corr agq) as (ag'' & Hq' & Hcl).
    rewrite Hq in Hq'. injection Hq' as -> <-.
    exists [], [], valid, corr. split; [done|].
    rewrite Hcl. injection Hcq as -> ->. by rewrite app_nil_r. }
  case_bool_decide as Hdef.
  - apply bind_Ok in Hd as ([handlerResult err] & ag4 & Hh & Hd).
    destruct (handleDefinitionBroadcast_closures msg data tx ag3)
      as (r & ag4' & pre & fin & Hh' & Hc4).
    rewrite Hh in Hh'. injection Hh' as <- <-.
    case_bool_decide as Hretry.
    { destruct err; [done|by apply notDispatched_false in Hd]. }
    case_bool_decide as Hwait; [by apply notDispatched_false in Hd|].
    destruct (queueDispatch_closures msg tx
                (bool_decide (HandlerResult.Action handlerResult = ActionConfirm))
                (HandlerResult.CustomCorrelator handlerResult) ag4)
      as (ag'' & Hq' & Hcl).
    rewrite Hd in Hq'. injection Hq' as -> <-.
    eexists pre, fin, _, _. split; [done|].
    rewrite Hcl. injection Hc4 as -> ->. injection Hc0 as -> ->.
    by rewrite <- app_assoc.
  - case_bool_decide as Hgi; [by eapply Hdone|].
    case_bool_decide as Hlen; [by eapply Hdone|].
    apply bind_Ok in Hd as (valid & ag4 & Hv & Hd).
    eapply Hdone; [exact Hd|].
    assert (Hc4 : keeps closures ag3 ag4).
    { eapply preserves_run; [|exact Hv]. frame. }
    unfold keeps in Hc4. by rewrite Hc4.
Qed.

(** *** What a page appends to the log *)

Lemma emits_keeps {A : Type} (P : list Call -> Prop) (m : AM A) :
  preserves (keeps trace) m -> P [] -> emits P m.
Proof.
  intros Hm HP ag. exists []. split; [|done].
  rewrite app_nil_r. apply Hm.
Qed.

Lemma emits_bind_l {A B : Type} (P : list Call -> Prop) (m : AM A) (k : A -> AM B) :
  preserves (keeps trace) m -> P [] -> (forall a, emits P (k a)) ->
  emits P (bind m k).
Proof.
  intros Hm HP Hk ag. unfold bind. specialize (Hm ag). unfold keeps in Hm.
  destruct (m ag) as [[a|e|] ag1]; simpl in *.
  - destruct (Hk a ag1) as (l & Hl & HPl). exists l. by rewrite Hl, Hm.
  - exists []. by rewrite app_nil_r.
  - exists []. by rewrite app_nil_r.
Qed.

Lemma emits_bind_r {A B : Type} (P : list Call -> Prop) (m : AM A) (k : A -> AM B) :
  emits P m -> (forall a, preserves (keeps trace) (k a)) -> emits P (bind m k).
Proof.
  intros Hm Hk ag. unfold bind. destruct (Hm ag) as (l & Hl & HPl).
  destruct (m ag) as [[a|e|] ag1]; simpl in *; exists l; (split; [|done]).
  - specialize (Hk a ag1). unfold keeps in Hk. by rewrite Hk.
  - done.
  - done.
Qed.

Lemma maskedReady_trace msg pin : preserves (keeps trace) (maskedReady msg pin : AM _).
Proof. unfold maskedReady. frame. Qed.

Lemma unmaskedReady_trace msg pin :
  preserves (keeps trace) (unmaskedReady msg pin : AM _).
Proof. unfold unmaskedReady. frame. Qed.

Lemma updBS_trace f : preserves (keeps trace) (updBS f : AM unit).
Proof. unfold updBS. frame. Qed.

#[local] Hint Resolve maskedReady_trace unmaskedReady_trace updBS_trace : frame.

Section data_manager.
(** The data manager answers a request for a message with that message. *)
Hypothesis GetMessageWithDataCached_id :
  forall id cro w msg data w',
    GetMessageWithDataCached id cro w = (Ok (msg, data, true), w') ->
    MessageHeader.ID (Message.Header msg) = id.

Lemma processMessage_emits manifest pin msgBaseIndex msgEntry :
  emits (fun l =>
           l = [] \/
           l = [CallAttemptMessageDispatch (MessageManifestEntry.ID msgEntry)])
    (processMessage manifest pin msgBaseIndex msgEntry : AM unit).
Proof.
  intros ag. unfold processMessage.
  unfold bind at 1, call at 1.
  destruct (GetMessageWithDataCached _ _ _) as [[[[msg data] avail]|e|] w] eqn:Hget;
    simpl; try (exists []; by rewrite app_nil_r; auto).
  destruct avail; simpl; [|exists []; by rewrite app_nil_r; auto].
  apply GetMessageWithDataCached_id in Hget.
  set (ag1 := setWorld w ag).
  change (trace ag) with (trace ag1).
  revert ag1. apply emits_bind_l; [|by left|].
  { frame. }
  intros [[unmaskedContexts nextPins]|]; [|apply emits_keeps; [frame|by left]].
  apply emits_bind_r.
  - intros ag1. eexists. split; [apply attemptMessageDispatch_trace|].
    right. by rewrite Hget.
  - intros [newState dispatched]. frame.
Qed.

Lemma processPin_emits cached dup pin (ag ag' : aggregator) r :
  processPin (cached, dup) pin ag = (r, ag') ->
  exists l,
    trace ag' = trace ag ++ l /\
    (forall acc, r = Ok acc ->
       forall x, dupSeen dup x = true -> dupSeen acc.2 x = true) /\
    (l = [] \/
     exists id,
       l = [CallAttemptMessageDispatch id] /\ dupSeen dup id = false /\
       forall acc, r = Ok acc -> dupSeen acc.2 id = true).
Proof.
  unfold processPin. unfold bind at 1.
  pose proof (batchForPin_trace cached pin ag) as Hb. unfold keeps in Hb.
  assert (Hskip : forall (acc0 : PinLoop) ag0,
            trace ag0 = trace ag -> acc0.2 = dup ->
            ret acc0 ag0 = (r, ag') ->
            exists l,
              trace ag' = trace ag ++ l /\
              (forall acc, r = Ok acc ->
                 forall x, dupSeen dup x = true -> dupSeen acc.2 x = true) /\
              (l = [] \/
               exists id,
                 l = [CallAttemptMessageDispatch id] /\ dupSeen dup id = false /\
                 forall acc, r = Ok acc -> dupSeen acc.2 id = true)).
  { intros acc0 ag0 Ht Hacc [= <- <-]. exists []. rewrite app_nil_r.
    split; [done|]. split; [|by left]. intros acc [= <-]. by rewrite Hacc. }
  destruct (batchForPin cached pin ag) as [[[[batch manifest]|]|e|] ag1];
    simpl in Hb.
  2: { by apply Hskip. }
  2: { intros [= <- <-]. exists []. rewrite app_nil_r.
       split; [done|]. split; [done|by left]. }
  2: { intros [= <- <-]. exists []. rewrite app_nil_r.
       split; [done|]. split; [done|by left]. }
  destruct (extractBatchMessagePin manifest (Pin.Index pin))
    as [[batchPinCount [msgEntry|]] msgBaseIndex]; [|by apply Hskip].
  destruct (dupSeen dup (MessageManifestEntry.ID msgEntry)) eqn:Hseen;
    [by apply Hskip|].
  destruct (processMessage_emits manifest pin msgBaseIndex msgEntry ag1)
    as (l & Hl & HP).
  assert (Hmono : forall x, dupSeen dup x = true ->
            dupSeen (<[MessageManifestEntry.ID msgEntry:=true]> dup) x = true).
  { intros x Hx. unfold dupSeen in *.
    destruct (decide (MessageManifestEntry.ID msgEntry = x)) as [->|Hne].
    - by rewrite lookup_insert_eq.
    - by rewrite lookup_insert_ne. }
  unfold bind.
  destruct (processMessage manifest pin msgBaseIndex msgEntry ag1) as [[u|e|] ag2];
    simpl in Hl; intros [= <- <-]; exists l; rewrite Hl, Hb;
    (split; [done|]).
  - split; [intros acc Hacc; injection Hacc as <-; exact Hmono|].
    destruct HP as [-> | ->]; [by left|]. right.
    exists (MessageManifestEntry.ID msgEntry). split; [done|]. split; [done|].
    intros acc [= <-]. simpl. unfold dupSeen. by rewrite lookup_insert_eq.
  - split; [done|].
    destruct HP as [-> | ->]; [by left|]. right.
    exists (MessageManifestEntry.ID msgEntry). by split.
  - split; [done|].
    destruct HP as [-> | ->]; [by left|]. right.
    exists (MessageManifestEntry.ID msgEntry). by split.
Qed.

Lemma processPin_loop pins :
  forall cached dup (ag ag' : aggregator) r,
  forRange processPin pins (cached, dup) ag = (r, ag') ->
  exists l,
    trace ag' = trace ag ++ l /\
    NoDup (dispatched l) /\
    forall id, id ∈ dispatched l -> dupSeen dup id = false.
Proof.
  induction pins as [|pin pins IH]; intros cached dup ag ag' r.
  - intros [= <- <-]. exists []. rewrite app_nil_r. split; [done|].
    split; [constructor|]. intros id Hid. by apply elem_of_nil in Hid.
  - rewrite forRange_cons.
    destruct (processPin (cached, dup) pin ag) as [r1 ag1] eqn:Hp.
    destruct (processPin_emits _ _ _ _ _ _ Hp) as (l1 & Hl1 & Hmono & Hl).
    destruct r1 as [[cached' dup']|e|].
    + intros Hrest. destruct (IH _ _ _ _ _ Hrest) as (l2 & Hl2 & Hnd & Hfresh).
      exists (l1 ++ l2). rewrite Hl2, Hl1, app_assoc. split; [done|].
      unfold dispatched in *. rewrite omap_app.
      destruct Hl as [-> | (id & -> & Hid & Hin)]; simpl.
      * split; [done|]. intros id Hid. specialize (Hfresh id Hid).
        destruct (dupSeen dup id) eqn:Hd; [|done].
        pose proof (Hmono _ eq_refl id Hd) as Hm. simpl in Hm. congruence.
      * specialize (Hin _ eq_refl). simpl in Hin. split.
        { constructor; [|done]. intros Hmem. apply Hfresh in Hmem. congruence. }
        intros x Hx. apply elem_of_cons in Hx as [->|Hx]; [done|].
        specialize (Hfresh x Hx).
        destruct (dupSeen dup x) eqn:Hd; [|done].
        pose proof (Hmono _ eq_refl x Hd) as Hm. simpl in Hm. congruence.
    + intros [= <- <-]. exists l1. split; [done|].
      destruct Hl as [-> | (id & -> & Hid & _)]; simpl.
      * split; [constructor|]. intros id Hid. by apply elem_of_nil in Hid.
      * split; [apply NoDup_singleton|].
        intros x Hx. apply list_elem_of_singleton in Hx as ->. done.
    + intros [= <- <-]. exists l1. split; [done|].
      destruct Hl as [-> | (id & -> & Hid & _)]; simpl.
      * split; [constructor|]. intros id Hid. by apply elem_of_nil in Hid.
      * split; [apply NoDup_singleton|].
        intros x Hx. apply list_elem_of_singleton in Hx as ->. done.
Qed.

End data_manager.

Lemma insertMessageEvent_event eventType msg tx corr topic (ag ag' : aggregator) :
  insertMessageEvent eventType msg tx corr topic ag = (Ok tt, ag') ->
  exists event,
    trace ag' = trace ag ++ [CallInsertEvent event] /\
    Event.Topic event = topic /\
    isMessageEvent eventType msg tx corr event.
Proof.
  unfold insertMessageEvent. intros Hi.
  apply bind_Ok in Hi as (id & ag1 & Hid & Hi).
  apply bind_Ok in Hi as (now & ag2 & Hnow & Hi).
  apply bind_Ok in Hi as (u & ag3 & Hins & Hi).
  injection Hi as <-.
  pose proof (preserves_run _ _ _ _ _ (callT_trace _) Hid) as Hk1.
  pose proof (preserves_run _ _ _ _ _ (callT_trace _) Hnow) as Hk2.
  pose proof (preserves_run _ _ _ _ _ (callE_trace _) Hins) as Hk3.
  unfold keeps in *. eexists. simpl. rewrite Hk3, Hk2, Hk1.
  split; [done|]. unfold isMessageEvent. by destruct corr.
Qed.

Lemma insertMessageEvents_events eventType msg tx corr (ag ag' : aggregator) :
  insertMessageEvents eventType msg tx corr ag = (Ok tt, ag') ->
  exists events,
    trace ag' = trace ag ++ map CallInsertEvent events /\
    map Event.Topic events = MessageHeader.Topics (Message.Header msg) /\
    Forall (isMessageEvent eventType msg tx corr) events.
Proof.
  unfold insertMessageEvents.
  generalize (MessageHeader.Topics (Message.Header msg)) as topics.
  intros topics. revert ag.
  induction topics as [|topic topics IH]; intros ag.
  - intros [= <-]. exists []. by rewrite app_nil_r.
  - rewrite forRange_cons.
    destruct (insertMessageEvent eventType msg tx corr topic ag)
      as [[[]|e|] ag1] eqn:Hstep; [|done..].
    apply insertMessageEvent_event in Hstep as (event & Ht1 & Htopic & Hev).
    intros Hrest. apply IH in Hrest as (events & Ht & Htopics & Hall).
    exists (event :: events). simpl.
    rewrite Ht, Ht1, <- app_assoc. split; [done|]. split.
    + by f_equal.
    + by constructor.
Qed.

(** *** The two phases of a page *)

Lemma call_state {A : Type} (f : W -> result A * W) :
  preserves (keeps state) (call f : AM A).
Proof. prim. Qed.

Lemma callE_state (f : W -> option Error * W) :
  preserves (keeps state) (callE f : AM unit).
Proof. prim. Qed.

Lemma callT_state {A : Type} (f : W -> A * W) :
  preserves (keeps state) (callT f : AM A).
Proof. prim. Qed.

Lemma log_state c : preserves (keeps state) (log c : AM unit).
Proof. prim. Qed.

#[local] Hint Resolve call_state callE_state callT_state log_state : frame.

Lemma insertMessageEvents_state eventType msg tx corr :
  preserves (keeps state) (insertMessageEvents eventType msg tx corr : AM unit).
Proof. unfold insertMessageEvents, insertMessageEvent. frame. Qed.

Lemma runFinalizeFn_state f : preserves (keeps state) (runFinalizeFn f : AM unit).
Proof. destruct f; simpl; [apply insertMessageEvents_state|frame]. Qed.

Lemma emits_bind {A B : Type} (P : list Call -> Prop) (m : AM A) (k : A -> AM B) :
  (forall l1 l2, P l1 -> P l2 -> P (l1 ++ l2)) ->
  emits P m -> (forall a, emits P (k a)) -> emits P (bind m k).
Proof.
  intros Happ Hm Hk ag. unfold bind. destruct (Hm ag) as (l1 & Hl1 & HP1).
  destruct (m ag) as [[a|e|] ag1]; simpl in *; [|by exists l1..].
  destruct (Hk a ag1) as (l2 & Hl2 & HP2).
  exists (l1 ++ l2). rewrite Hl2, Hl1, app_assoc. auto.
Qed.

Lemma emits_forRange {A X : Type} (P : list Call -> Prop)
    (body : A -> X -> AM A) l acc :
  P [] -> (forall l1 l2, P l1 -> P l2 -> P (l1 ++ l2)) ->
  (forall a x, emits P (body a x)) -> emits P (forRange body l acc).
Proof.
  intros Hnil Happ Hb. revert acc. induction l as [|x l IH]; intros acc; simpl.
  - apply emits_keeps; [apply preserves_ret, _|done].
  - apply emits_bind; auto.
Qed.

Lemma log_emits (P : list Call -> Prop) c : P [c] -> emits P (log c : AM unit).
Proof. intros HP ag. by exists [c]. Qed.

Lemma insertMessageEvents_emits eventType msg tx corr :
  emits (Forall isInsertEvent)
    (insertMessageEvents eventType msg tx corr : AM unit).
Proof.
  unfold insertMessageEvents.
  apply emits_forRange; [done|intros; by apply Forall_app|].
  intros [] topic. unfold insertMessageEvent.
  apply emits_bind_l; [frame|done|]. intros id.
  apply emits_bind_l; [frame|done|]. intros now.
  apply emits_bind_l; [frame|done|]. intros _.
  apply log_emits. by constructor.
Qed.

Lemma runFinalizeFn_emits f :
  emits (Forall isInsertEvent) (runFinalizeFn f : AM unit).
Proof.
  destruct f; simpl; [apply insertMessageEvents_emits|].
  apply emits_keeps; [frame|done].
Qed.

Lemma isInsertEvent_body (l : list Call) :
  Forall isInsertEvent l -> Forall finalizeBodyCall l.
Proof. intros Hl. eapply Forall_impl; [exact Hl|]. by intros []. Qed.

Lemma finalizeRuns_inserts (l : list Call) :
  Forall isInsertEvent l -> finalizeRuns l = [].
Proof. induction 1 as [|[] l Hc _ IH]; simpl; done. Qed.

Lemma finalizeLoop_log fins :
  forall (ag1 ag2 : aggregator) r,
  forRange (fun (_ : unit) (f : FinalizeFn) => logged (CallFinalize f) (runFinalizeFn f))
    fins tt ag1 = (r, ag2) ->
  state ag2 = state ag1 /\
  exists body,
    trace ag2 = trace ag1 ++ body /\
    Forall finalizeBodyCall body /\
    (r = Ok tt -> finalizeRuns body = map (fun f => (f, None)) fins).
Proof.
  induction fins as [|f fins IH]; intros ag1 ag2 r.
  - intros [= <- <-]. split; [done|]. exists []. by rewrite app_nil_r.
  - rewrite forRange_cons. unfold logged.
    pose proof (runFinalizeFn_state f ag1) as Hst.
    destruct (runFinalizeFn_emits f ag1) as (l & Hl & Hins).
    unfold keeps in Hst.
    destruct (runFinalizeFn f ag1) as [[[]|e|] ag3]; simpl in *.
    + intros Hrest. apply IH in Hrest as (Hs & body & Hb & Hbody & Hruns).
      simpl in *. split; [congruence|].
      exists (l ++ [CallFinalize f None] ++ body).
      rewrite Hb, Hl, <- !app_assoc. split; [done|]. split.
      * apply Forall_app. split; [by apply isInsertEvent_body|].
        by constructor.
      * intros Hr. unfold finalizeRuns in *. rewrite omap_app. simpl.
        fold (finalizeRuns l). rewrite finalizeRuns_inserts by done.
        simpl. f_equal. by apply Hruns.
    + intros [= <- <-]. simpl. split; [done|].
      exists (l ++ [CallFinalize f (Some e)]). rewrite Hl, <- app_assoc.
      split; [done|]. split; [|done].
      apply Forall_app. split; [by apply isInsertEvent_body|].
      by repeat constructor.
    + intros [= <- <-]. split; [done|]. exists l.
      split; [done|]. split; [by apply isInsertEvent_body|done].
Qed.

Lemma RunFinalize_log (ag1 ag2 : aggregator) r :
  RunFinalize ag1 = (r, ag2) ->
  state ag2 = state ag1 /\
  exists body,
    trace ag2 = trace ag1 ++ body /\
    Forall finalizeBodyCall body /\
    (r = Ok tt -> finalizeRuns body = map (fun f => (f, None)) (Finalize (state ag1))).
Proof. unfold RunFinalize, bind, get. apply finalizeLoop_log. Qed.

Lemma preFinalizeLoop_log pres :
  forall (ag1 ag2 : aggregator) r,
  forRange
    (fun (_ : unit) (f : HPre) => logged (CallPreFinalize f) (callE (runPreFinalize f)))
    pres tt ag1 = (r, ag2) ->
  state ag2 = state ag1 /\
  match r with
  | Ok _ => trace ag2 = trace ag1 ++ map (fun f => CallPreFinalize f None) pres
  | Err e =>
      exists ok f rest,
        pres = ok ++ f :: rest /\
        trace ag2
        = trace ag1 ++ map (fun f => CallPreFinalize f None) ok
          ++ [CallPreFinalize f (Some e)]
  | Panic => False
  end.
Proof.
  induction pres as [|f pres IH]; intros ag1 ag2 r.
  - intros [= <- <-]. split; [done|]. by rewrite app_nil_r.
  - rewrite forRange_cons. unfold logged, callE.
    destruct (runPreFinalize f (world ag1)) as [[e|] w]; simpl.
    + intros [= <- <-]. simpl. split; [done|]. by exists [], f, pres.
    + intros Hrest. apply IH in Hrest as [Hs Hr]. simpl in *. split; [done|].
      destruct r as [u|e|]; [|destruct Hr as (ok & g & rest & -> & Hr)|done].
      * rewrite Hr, <- app_assoc. done.
      * exists (f :: ok), g, rest. split; [done|].
        rewrite Hr, <- !app_assoc. done.
Qed.

Lemma RunPreFinalize_log (ag1 ag2 : aggregator) r :
  RunPreFinalize ag1 = (r, ag2) ->
  state ag2 = state ag1 /\
  match r with
  | Ok _ =>
      trace ag2
      = trace ag1 ++ map (fun f => CallPreFinalize f None) (PreFinalize (state ag1))
  | Err e =>
      exists ok f rest,
        PreFinalize (state ag1) = ok ++ f :: rest /\
        trace ag2
        = trace ag1 ++ map (fun f => CallPreFinalize f None) ok
          ++ [CallPreFinalize f (Some e)]
  | Panic => False
  end.
Proof. unfold RunPreFinalize, bind, get. apply preFinalizeLoop_log. Qed.

Lemma phased_body pre (body cs : list Call) :
  Forall finalizeBodyCall body ->
  phased pre true pre (body ++ cs) <-> phased pre true pre cs.
Proof.
  induction 1 as [|c body Hc _ IH]; simpl; [done|].
  destruct c; simpl in Hc; try done; rewrite IH; intuition.
Qed.

Lemma phased_pre_ok pre (ok succeeded : list HPre) (cs : list Call) :
  phased pre false succeeded (map (fun f => CallPreFinalize f None) ok ++ cs)
  <-> phased pre false (succeeded ++ ok) cs.
Proof.
  revert succeeded. induction ok as [|f ok IH]; intros succeeded; simpl.
  - by rewrite app_nil_r.
  - rewrite IH, <- app_assoc. intuition.
Qed.

Lemma groupCalls_body (body : list Call) :
  Forall finalizeBodyCall body -> groupCalls body = [].
Proof. induction 1 as [|[] l Hc _ IH]; simpl in *; done. Qed.

Lemma preFinalizeRuns_body (body : list Call) :
  Forall finalizeBodyCall body -> preFinalizeRuns body = [].
Proof. induction 1 as [|[] l Hc _ IH]; simpl in *; done. Qed.

Lemma RunAsGroup_eq (fn : AM unit) (ag : aggregator) :
  RunAsGroup fn ag =
  match beginGroup (world ag) with
  | (Some e, w) => (Err e, setWorld w ag)
  | (None, w) =>
      match fn (log CallGroupBegin (setWorld w ag)).2 with
      | (Ok _, ag1) =>
          match commitGroup (world ag1) with
          | (None, w') => log CallGroupCommit (setWorld w' ag1)
          | (Some e, w') =>
              (Err e, (log CallGroupRollback (setWorld (rollbackGroup w') ag1)).2)
          end
      | (Err e, ag1) =>
          (Err e, (log CallGroupRollback (setWorld (rollbackGroup (world ag1)) ag1)).2)
      | (Panic, ag1) => (Panic, ag1)
      end
  end.
Proof.
  unfold RunAsGroup, bind, callE.
  destruct (beginGroup (world ag)) as [[e|] w]; done.
Qed.

(** The end of a group in which the finalize closures ran. *)
Lemma finalizeInGroup_log pre (ag1 ag2 ag' : aggregator) rf r :
  RunFinalize ag1 = (rf, ag2) ->
  match rf with
  | Ok _ =>
      match commitGroup (world ag2) with
      | (None, w') => log CallGroupCommit (setWorld w' ag2)
      | (Some e, w') =>
          (Err e, (log CallGroupRollback (setWorld (rollbackGroup w') ag2)).2)
      end
  | Err e =>
      (Err e, (log CallGroupRollback (setWorld (rollbackGroup (world ag2)) ag2)).2)
  | Panic => (Panic, ag2)
  end = (r, ag') ->
  state ag' = state ag1 /\
  exists body closing,
    trace ag' = trace ag1 ++ body ++ closing /\
    phased pre true pre (body ++ closing) /\
    groupCalls body = [] /\ preFinalizeRuns body = [] /\
    (r = Ok tt ->
     closing = [CallGroupCommit] /\
     finalizeRuns body = map (fun f => (f, None)) (Finalize (state ag1))).
Proof.
  intros Hf Hend.
  apply RunFinalize_log in Hf as (Hs & body & Hb & Hbody & Hruns).
  assert (Hshape : forall closing,
            (closing = [] \/ closing = [CallGroupCommit]
             \/ closing = [CallGroupRollback]) ->
            phased pre true pre (body ++ closing)).
  { intros closing Hc. apply phased_body; [done|].
    destruct Hc as [-> | [-> | ->]]; simpl; auto. }
  destruct rf as [[]|e|].
  - destruct (commitGroup (world ag2)) as [[e|] w'].
    + injection Hend as <- <-. split; [done|].
      exists body, [CallGroupRollback]. simpl. rewrite Hb, <- app_assoc.
    split; [done|]. split; [auto|].
    split; [by apply groupCalls_body|].
    split; [by apply preFinalizeRuns_body|done].
    + injection Hend as <- <-. split; [done|].
      exists body, [CallGroupCommit]. simpl. rewrite Hb, <- app_assoc.
      split; [done|]. split; [auto|].
    split; [by apply groupCalls_body|].
      split; [by apply preFinalizeRuns_body|]. auto.
  - injection Hend as <- <-. split; [done|].
    exists body, [CallGroupRollback]. simpl. rewrite Hb, <- app_assoc.
    split; [done|]. split; [auto|].
    split; [by apply groupCalls_body|].
    split; [by apply preFinalizeRuns_body|done].
  - injection Hend as <- <-. split; [done|].
    exists body, []. rewrite Hb, app_nil_r.
    split; [done|]. split; [rewrite <- (app_nil_r body); auto|].
    split; [by apply groupCalls_body|].
    split; [by apply preFinalizeRuns_body|done].
Qed.

(** *** The rewind query *)

Lemma insertBySequence_perm p l : insertBySequence p l ≡ₚ p :: l.
Proof.
  induction l as [|q l IH]; simpl; [done|].
  destruct (Pin.Sequence p <=? Pin.Sequence q); [done|].
  rewrite IH. apply Permutation_swap.
Qed.

Lemma sortBySequence_perm l : sortBySequence l ≡ₚ l.
Proof.
  induction l as [|p l IH]; simpl; [done|].
  rewrite insertBySequence_perm. by constructor.
Qed.

Lemma insertBySequence_sorted p l :
  StronglySorted bySequence l -> StronglySorted bySequence (insertBySequence p l).
Proof.
  induction 1 as [|q l Hs IH Hq]; simpl.
  - repeat constructor.
  - destruct (Z.leb_spec (Pin.Sequence p) (Pin.Sequence q)) as [Hle|Hlt].
    + constructor; [by constructor|]. constructor; [done|].
      eapply Forall_impl; [exact Hq|]. unfold bySequence. intros; lia.
    + constructor; [done|].
      rewrite insertBySequence_perm. constructor; [|done].
      unfold bySequence. lia.
Qed.

Lemma sortBySequence_sorted l : StronglySorted bySequence (sortBySequence l).
Proof.
  induction l as [|p l IH]; simpl; [constructor|].
  by apply insertBySequence_sorted.
Qed.

(** The head of the sorted list is an element of least sequence. *)
Lemma sortBySequence_head l p rest :
  sortBySequence l = p :: rest ->
  p ∈ l /\ forall q, q ∈ l -> Pin.Sequence p <= Pin.Sequence q.
Proof.
  intros Hs. pose proof (sortBySequence_perm l) as Hperm.
  pose proof (sortBySequence_sorted l) as Hsorted.
  rewrite Hs in Hperm, Hsorted. split.
  - rewrite <- Hperm. by left.
  - intros q Hq. rewrite <- Hperm in Hq.
    apply StronglySorted_inv in Hsorted as [_ Hall].
    apply elem_of_cons in Hq as [->|Hq]; [lia|].
    rewrite Forall_forall in Hall. by apply Hall.
Qed.

Lemma rewindFilter_holds batchIDs p :
  holds (pinField p) (Filter.Cond (rewindFilter batchIDs)) = true
  <-> rewindCandidate batchIDs p.
Proof.
  unfold rewindCandidate, rewindFilter. simpl.
  rewrite andb_true_r, andb_true_iff, bool_decide_eq_true.
  unfold pinField. simpl.
  split.
  - intros [Hin Hd]. split; [|by injection Hd].
    destruct (Pin.Batch p) as [b|]; [|done]. simpl in Hin.
    exists b. split; [done|].
    apply existsb_exists in Hin as (v & Hv & Heq).
    apply bool_decide_eq_true in Heq. subst v.
    apply list_elem_of_In, list_elem_of_fmap in Hv as (b' & [= ->] & Hb'). done.
  - intros [(b & -> & Hb) ->]. split; [|done]. simpl.
    apply existsb_exists. exists (VUUID b). split; [|by apply bool_decide_eq_true].
    apply list_elem_of_In, list_elem_of_fmap. by exists b.
Qed.

(** What the store answers to the rewind query. *)
Lemma evalPins_rewindFilter batchIDs rows :
  match evalPins (rewindFilter batchIDs) rows with
  | [] => forall p, p ∈ rows -> ~ rewindCandidate batchIDs p
  | p :: _ =>
      p ∈ rows /\ rewindCandidate batchIDs p /\
      forall q, q ∈ rows -> rewindCandidate batchIDs q ->
                Pin.Sequence p <= Pin.Sequence q
  end.
Proof.
  unfold evalPins.
  set (matching := List.filter _ rows).
  assert (Hm : forall p, p ∈ matching <-> p ∈ rows /\ rewindCandidate batchIDs p).
  { intros p. unfold matching.
    rewrite list_elem_of_In, filter_In, <- list_elem_of_In.
    by rewrite rewindFilter_holds. }
  change (Filter.SortBy (rewindFilter batchIDs)) with ["sequence"].
  rewrite bool_decide_eq_true_2 by done.
  change (Filter.LimitTo (rewindFilter batchIDs)) with 1%nat. simpl.
  destruct (sortBySequence matching) as [|p rest] eqn:Hs; simpl.
  - pose proof (sortBySequence_perm matching) as Hperm. rewrite Hs in Hperm.
    apply Permutation_nil in Hperm.
    intros p Hp Hc. assert (Hin : p ∈ matching) by by apply Hm.
    rewrite Hperm in Hin. by apply elem_of_nil in Hin.
  - apply sortBySequence_head in Hs as [Hin Hmin].
    apply Hm in Hin as [Hin Hc]. split; [done|]. split; [done|].
    intros q Hq Hqc. apply Hmin. by apply Hm.
Qed.

Lemma retryDo_S {X : Type} fuel attempt
    (f : nat -> X -> AM (bool * option Error * X)) x (ag : aggregator) :
  retryDo (S fuel) attempt f x ag =
  match f (S attempt) x ag with
  | (Ok (retry, err, x'), ag1) =>
      if negb retry || bool_decide (err = None)
      then Some (Ok (err, x'), ag1)
      else if ctxDone (world ag1)
      then Some (Ok (Some "context cancelled", x'), ag1)
      else retryDo fuel (S attempt) f x' (setWorld (sleep (world ag1)) ag1)
  | (Err e, ag1) => Some (Err e, ag1)
  | (Panic, ag1) => Some (Panic, ag1)
  end.
Proof. reflexivity. Qed.

Lemma rewindAttempt_eq batchIDs attempt ro (ag : aggregator) :
  batchIDs <> [] ->
  rewindAttempt batchIDs attempt ro ag =
  match dbFault (world ag) with
  | (Some e, w) => (Ok (true, Some e, ro), setWorld w ag)
  | (None, w) =>
      (Ok (false, None,
           match evalPins (rewindFilter batchIDs) (pinsTable w) with
           | p :: _ => (true, wrap64 (Pin.Sequence p - 1))
           | [] => ro
           end),
       setWorld w ag)
  end.
Proof.
  intros Hne. unfold rewindAttempt.
  rewrite bool_decide_eq_true_2 by (destruct batchIDs; [done|simpl; lia]).
  unfold GetPins, query.
  destruct (dbFault (world ag)) as [[e|] w]; [done|].
  by destruct (evalPins _ _).
Qed.

Lemma retryDo_rewind batchIDs (n : nat) :
  forall (fuel attempt : nat) (ag : aggregator) ro w1 w2,
  batchIDs <> [] ->
  failedAttempts n (world ag) w1 ->
  dbFault w1 = (None, w2) ->
  (n < fuel)%nat ->
  retryDo fuel attempt (rewindAttempt batchIDs) ro ag
  = Some (Ok (None,
              match evalPins (rewindFilter batchIDs) (pinsTable w2) with
              | p :: _ => (true, wrap64 (Pin.Sequence p - 1))
              | [] => ro
              end),
          setWorld w2 ag).
Proof.
  induction n as [|n IH]; intros fuel attempt ag ro w1 w2 Hne Hfail Hok Hfuel;
    (destruct fuel as [|fuel]; [lia|]); simpl in Hfail;
    rewrite retryDo_S, rewindAttempt_eq by done.
  - subst w1. by rewrite Hok.
  - destruct Hfail as (e & wa & Hf & Hctx & Hfail).
    rewrite Hf. simpl. rewrite Hctx.
    rewrite (IH fuel (S attempt) (setWorld (sleep wa) (setWorld wa ag)) ro w1 w2);
      [done|done|done|done|lia].
Qed.

(** *** The on-chain consistency check *)

Lemma checkOnchainConsistency_key_mismatch msg pin (ag : aggregator) :
  ~ keyMatchesSigner msg pin ->
  checkOnchainConsistency msg pin ag = (Ok false, ag).
Proof.
  intros Hk. unfold checkOnchainConsistency, bind, get.
  destruct (String.eqb_spec (MessageHeader.Key (Message.Header msg)) "") as [He|He];
    [done|].
  destruct (String.eqb_spec (MessageHeader.Key (Message.Header msg)) (Pin.Signer pin))
    as [Hs|Hs]; [|done].
  destruct Hk. by split.
Qed.

Lemma checkOnchainConsistency_resolved msg pin (ag : aggregator) :
  keyMatchesSigner msg pin ->
  checkOnchainConsistency msg pin ag =
  match resolveSigner msg pin ag with
  | (Ok None, w) =>
      (Ok (isIdentityClaim msg
           || bool_decide (MessageHeader.Type_ (Message.Header msg)
                           = MessageTypePrivate)),
       setWorld w ag)
  | (Ok (Some resolvedAuthor), w) =>
      (Ok (negb (String.eqb (MessageHeader.Author (Message.Header msg)) "")
           && String.eqb (Identity.DID resolvedAuthor)
                (MessageHeader.Author (Message.Header msg))),
       setWorld w ag)
  | (Err e, w) => (Err e, setWorld w ag)
  | (Panic, w) => (Panic, setWorld w ag)
  end.
Proof.
  intros [He Hs]. unfold checkOnchainConsistency, bind, get, resolveSigner, call.
  destruct (String.eqb_spec (MessageHeader.Key (Message.Header msg)) "");
    [done|].
  destruct (String.eqb_spec (MessageHeader.Key (Message.Header msg)) (Pin.Signer pin));
    [|done].
  simpl.
  destruct (FindIdentityForVerifier _ _ _ _) as [[[ra|]|err|] w]; try done.
  - destruct (String.eqb _ ""), (String.eqb (Identity.DID ra) _); done.
  - destruct (isIdentityClaim msg); [done|].
    by destruct (bool_decide _).
Qed.

(** C9. A private message whose key is the signer of the pin and resolves
    to no identity passes the check, whatever its author; with such a key,
    the check fails exactly for the messages that are neither private nor
    identity claims. *)
Theorem checkOnchainConsistency_private_unresolved msg pin (ag : aggregator) w :
  keyMatchesSigner msg pin ->
  resolveSigner msg pin ag = (Ok None, w) ->
  (MessageHeader.Type_ (Message.Header msg) = MessageTypePrivate ->
   checkOnchainConsistency msg pin ag = (Ok true, setWorld w ag)) /\
  (checkOnchainConsistency msg pin ag = (Ok false, setWorld w ag) <->
   MessageHeader.Type_ (Message.Header msg) <> MessageTypePrivate /\
   isIdentityClaim msg = false).
Proof.
  intros Hk Hr. rewrite checkOnchainConsistency_resolved, Hr by done.
  split.
  - intros ->. by rewrite orb_true_r.
  - destruct (isIdentityClaim msg); simpl.
    + split; [done|]. by intros [_ ?].
    + destruct (bool_decide_reflect
                  (MessageHeader.Type_ (Message.Header msg) = MessageTypePrivate))
        as [Ht|Ht].
      * split; [intros [=]|]. by intros [? _].
      * by split.
Qed.

(** C2 (amended). A message is dispatched only if its key is the signer of
    the pin and either the key resolves to an identity whose DID is the
    author of the message, or the key resolves to no identity and the
    message is an identity claim definition or a private message. With a
    key that resolves to no identity, an identity claim definition passes
    the check, and a message that is neither private nor an identity claim
    is not dispatched. *)
Theorem attemptMessageDispatch_signer msg pin (ag : aggregator) :
  (forall data tx newState ag',
     attemptMessageDispatch msg data tx pin ag = (Ok (newState, true), ag') ->
     keyMatchesSigner msg pin /\
     exists r w,
       resolveSigner msg pin ag = (Ok r, w) /\
       match r with
       | Some resolvedAuthor =>
           MessageHeader.Author (Message.Header msg) <> "" /\
           Identity.DID resolvedAuthor = MessageHeader.Author (Message.Header msg)
       | None =>
           isIdentityClaim msg = true \/
           MessageHeader.Type_ (Message.Header msg) = MessageTypePrivate
       end) /\
  (forall w,
     keyMatchesSigner msg pin ->
     resolveSigner msg pin ag = (Ok None, w) ->
     (isIdentityClaim msg = true ->
      checkOnchainConsistency msg pin ag = (Ok true, setWorld w ag)) /\
     (isIdentityClaim msg = false ->
      MessageHeader.Type_ (Message.Header msg) <> MessageTypePrivate ->
      forall data tx,
        (attemptMessageDispatch msg data tx pin ag).1 = Ok (MessageStateUnset, false))).
Proof.
  split.
  - intros data tx newState ag' Hd.
    apply attemptMessageDispatch_dispatched in Hd as [[ag1 Hcheck] _].
    set (ag0 := (log _ ag).2) in Hcheck.
    assert (Hk : keyMatchesSigner msg pin).
    { assert (Hdec : Decision (keyMatchesSigner msg pin))
        by (unfold keyMatchesSigner; apply _).
      destruct Hdec as [|Hn]; [done|].
      by rewrite (checkOnchainConsistency_key_mismatch _ _ _ Hn) in Hcheck. }
    split; [done|].
    rewrite checkOnchainConsistency_resolved in Hcheck by done.
    change (resolveSigner msg pin ag0) with (resolveSigner msg pin ag) in Hcheck.
    destruct (resolveSigner msg pin ag) as [[[ra|]|err|] w]; try done.
    + exists (Some ra), w. split; [done|].
      injection Hcheck as Hb _. apply andb_true_iff in Hb as [Ha Hdid].
      split.
      * intros Hempty. by rewrite Hempty in Ha.
      * by apply String.eqb_eq.
    + exists None, w. split; [done|].
      injection Hcheck as Hb _. apply orb_true_iff in Hb as [Hb|Hb]; [by left|].
      right. by apply bool_decide_eq_true in Hb.
  - intros w Hk Hr. split.
    + intros Hic. by rewrite checkOnchainConsistency_resolved, Hr, Hic.
    + intros Hic Hnp data tx.
      unfold attemptMessageDispatch.
      unfold bind at 1. simpl.
      set (ag0 := mkAggregator _ _ _ _ _ _ _).
      unfold bind at 1.
      rewrite checkOnchainConsistency_resolved by done.
      change (resolveSigner msg pin ag0) with (resolveSigner msg pin ag).
      rewrite Hr, Hic. simpl.
      by rewrite bool_decide_eq_false_2.
Qed.

(** *** What ran *)

Lemma insertMessageEvents_no_panic eventType msg tx corr (ag : aggregator) :
  (insertMessageEvents eventType msg tx corr ag).1 <> Panic.
Proof.
  unfold insertMessageEvents. revert ag.
  induction (MessageHeader.Topics (Message.Header msg)) as [|topic topics IH];
    intros ag; [done|].
  rewrite forRange_cons.
  destruct (insertMessageEvent _ _ _ _ _ _) as [[[]|e|] ag1] eqn:Hstep;
    [apply IH|done|].
  exfalso. revert Hstep. unfold insertMessageEvent, bind, callT, callE, log, modify.
  destruct (NewUUID _) as [id w1]. destruct (Now _) as [now w2]. simpl.
  by destruct (InsertEvent _ _) as [[?|] ?].
Qed.

Lemma runFinalizeFn_no_panic f (ag : aggregator) : (runFinalizeFn f ag).1 <> Panic.
Proof.
  destruct f as [eventType msg tx corr|h]; simpl.
  - apply insertMessageEvents_no_panic.
  - unfold callE. by destruct (runFinalize h (world ag)) as [[?|] ?].
Qed.

Lemma runPreFinalize_no_panic (f : HPre) (ag : aggregator) :
  (callE (runPreFinalize f) ag).1 <> Panic.
Proof. unfold callE. by destruct (runPreFinalize f (world ag)) as [[?|] ?]. Qed.

Lemma loop_ran {F : Type} (runOne : F -> AM unit)
    (entry : F -> option Error -> Call) fs :
  (forall f ag, (runOne f ag).1 <> Panic) ->
  forall (ag1 ag2 : aggregator) r,
  forRange (fun (_ : unit) (f : F) => logged (entry f) (runOne f)) fs tt ag1
  = (r, ag2) ->
  match r with
  | Ok _ => ranAll runOne entry fs ag1 ag2
  | Err e => stoppedAt runOne entry fs ag1 e ag2
  | Panic => False
  end.
Proof.
  intros Hnp. induction fs as [|f fs IH]; intros ag1 ag2 r.
  - by intros [= <- <-].
  - rewrite forRange_cons. unfold logged. specialize (Hnp f ag1).
    destruct (runOne f ag1) as [[[]|e|] ag3] eqn:Hone; [| |done].
    + intros Hrest. apply IH in Hrest.
      destruct r as [u|e|]; [|destruct Hrest as (ok & g & later & ag4 & ag5 & -> & Hok & Hg & ->)|done].
      * simpl. by exists ag3.
      * exists (f :: ok), g, later, ag4, ag5. simpl. split; [done|].
        split; [by exists ag3|done].
    + intros [= <- <-]. by exists [], f, fs, ag1, ag3.
Qed.

Lemma RunFinalize_ran (ag1 ag2 : aggregator) r :
  RunFinalize ag1 = (r, ag2) ->
  match r with
  | Ok _ => ranAll runFinalizeFn CallFinalize (Finalize (state ag1)) ag1 ag2
  | Err e => stoppedAt runFinalizeFn CallFinalize (Finalize (state ag1)) ag1 e ag2
  | Panic => False
  end.
Proof.
  unfold RunFinalize, bind, get. apply loop_ran, runFinalizeFn_no_panic.
Qed.

Lemma RunPreFinalize_ran (ag1 ag2 : aggregator) r :
  RunPreFinalize ag1 = (r, ag2) ->
  match r with
  | Ok _ =>
      ranAll (fun f => callE (runPreFinalize f)) CallPreFinalize
        (PreFinalize (state ag1)) ag1 ag2
  | Err e =>
      stoppedAt (fun f => callE (runPreFinalize f)) CallPreFinalize
        (PreFinalize (state ag1)) ag1 e ag2
  | Panic => False
  end.
Proof.
  unfold RunPreFinalize, bind, get.
  apply (loop_ran (fun f => callE (runPreFinalize f))), runPreFinalize_no_panic.
Qed.

(** The end of a group in which the finalize closures ran. *)
Lemma finalizeInGroup_ran (ag1 ag2 ag' : aggregator) rf r :
  RunFinalize ag1 = (rf, ag2) ->
  match rf with
  | Ok _ =>
      match commitGroup (world ag2) with
      | (None, w') => log CallGroupCommit (setWorld w' ag2)
      | (Some e, w') =>
          (Err e, (log CallGroupRollback (setWorld (rollbackGroup w') ag2)).2)
      end
  | Err e =>
      (Err e, (log CallGroupRollback (setWorld (rollbackGroup (world ag2)) ag2)).2)
  | Panic => (Panic, ag2)
  end = (r, ag') ->
  finalizedInGroup (Finalize (state ag1)) ag1 r ag'.
Proof.
  intros Hf Hend. apply RunFinalize_ran in Hf.
  destruct rf as [[]|e|]; [| |done].
  - left. exists ag2. split; [done|].
    destruct (commitGroup (world ag2)) as [[e|] w']; by injection Hend as <- <-.
  - right. exists e, ag2. by injection Hend as <- <-.
Qed.

(** The closures do run: the end of a page, from the aggregator its
    callback left. *)
Lemma processWithBatchState_ran (callback : AM unit)
    (ag agc ag' : aggregator) w u r :
  beginGroup (world ag) = (None, w) ->
  callback (log CallGroupBegin (setWorld w (setState newBatchState ag))).2
  = (Ok u, agc) ->
  processWithBatchState callback ag = (r, ag') ->
  twoPhases (PreFinalize (state agc)) (Finalize (state agc)) agc r ag'.
Proof.
  intros Hbegin Hcb. unfold processWithBatchState.
  unfold bind at 1. simpl.
  unfold bind at 1. rewrite RunAsGroup_eq. simpl. rewrite Hbegin.
  unfold bind at 1. simpl in Hcb. rewrite Hcb.
  unfold bind at 1. unfold noPreFinalize at 1, bind at 1, get at 1, ret at 1.
  unfold twoPhases.
  destruct (PreFinalize (state agc)) as [|p pre] eqn:Hpre; simpl.
  - destruct (RunFinalize agc) as [rf ag2] eqn:Hf.
    match goal with
    | |- (let (_, _) := ?x in _) = _ -> _ => destruct x as [r1 ag3] eqn:Hend
    end.
    pose proof (finalizeInGroup_ran _ _ _ _ _ Hf Hend) as Hran.
    destruct (finalizeInGroup_log [] _ _ _ _ _ Hf Hend) as (Hs & _).
    destruct r1 as [[]|e|]; [|by intros [= <- <-]..].
    unfold noPreFinalize, bind, get, ret. rewrite Hs, Hpre. simpl.
    by intros [= <- <-].
  - destruct (commitGroup (world agc)) as [[e|] w1].
    { by intros [= <- <-]. }
    unfold log at 1, modify at 1. simpl.
    set (ag2 := mkAggregator _ _ _ _ _ _ _).
    change (committed w1 agc) with ag2.
    unfold bind at 1, noPreFinalize at 1, bind at 1, get at 1, ret at 1.
    assert (Hs2 : state ag2 = state agc) by done.
    rewrite Hs2, Hpre. simpl.
    unfold bind at 1.
    destruct (RunPreFinalize ag2) as [rp ag3] eqn:Hrp.
    pose proof (RunPreFinalize_log _ _ _ Hrp) as [Hs3 _].
    apply RunPreFinalize_ran in Hrp. rewrite Hs2, Hpre in Hrp.
    destruct rp as [[]|e|]; [| |done].
    2: { intros [= <- <-]. left. by exists e. }
    rewrite RunAsGroup_eq. intros Hend. right. exists ag3. split; [done|].
    revert Hend.
    destruct (beginGroup (world ag3)) as [[e|] w2]; [by intros [= <- <-]|].
    change ((log CallGroupBegin (setWorld w2 ag3)).2) with (opened w2 ag3).
    destruct (RunFinalize (opened w2 ag3)) as [rf ag4] eqn:Hf.
    intros Hend.
    pose proof (finalizeInGroup_ran _ _ _ _ _ Hf Hend) as Hran.
    replace (Finalize (state (opened w2 ag3))) with (Finalize (state agc)) in Hran;
      [done|].
    change (state (opened w2 ag3)) with (state ag3). by rewrite Hs3, Hs2.
Qed.

(** *** The two phases *)

(** The calls logged from the return of the callback of a page to the end
    of the page. *)
Lemma processWithBatchState_log (callback : AM unit)
    (ag agc ag' : aggregator) w rc r :
  beginGroup (world ag) = (None, w) ->
  callback (log CallGroupBegin (setWorld w (setState newBatchState ag))).2
  = (rc, agc) ->
  processWithBatchState callback ag = (r, ag') ->
  match rc with
  | Ok _ =>
      exists calls : list Call,
    trace ag' = trace agc ++ calls /\
    phased (PreFinalize (state agc)) true [] calls /\
    (r = Ok tt ->
     exists body,
       groupCalls body = [] /\ preFinalizeRuns body = [] /\
       finalizeRuns body = map (fun f => (f, None)) (Finalize (state agc)) /\
       calls
       = match PreFinalize (state agc) with
         | [] => body ++ [CallGroupCommit]
         | _ :: _ =>
             [CallGroupCommit]
             ++ map (fun f => CallPreFinalize f None) (PreFinalize (state agc))
             ++ [CallGroupBegin] ++ body ++ [CallGroupCommit]
             end)
  | Err e => r = Err e /\ trace ag' = trace agc ++ [CallGroupRollback]
  | Panic => r = Panic /\ trace ag' = trace agc
  end.
Proof.
  intros Hbegin Hcb. unfold processWithBatchState.
  unfold bind at 1. simpl.
  unfold bind at 1. rewrite RunAsGroup_eq. simpl. rewrite Hbegin.
  unfold bind at 1. simpl in Hcb. rewrite Hcb.
  destruct rc as [[]|e|]; [|by intros [= <- <-]..].
  unfold bind at 1. unfold noPreFinalize at 1, bind at 1, get at 1, ret at 1.
  destruct (PreFinalize (state agc)) as [|p pre] eqn:Hpre; simpl.
  - (* no pre-finalize closure: the finalize closures run in this group *)
    destruct (RunFinalize agc) as [rf ag2] eqn:Hf.
    match goal with
    | |- (let (_, _) := ?x in _) = _ -> _ => destruct x as [r1 ag3] eqn:Hend
    end.
    destruct (finalizeInGroup_log [] _ _ _ _ _ Hf Hend)
      as (Hs & body & closing & Ht & Hph & Hg & Hp & Hok).
    destruct r1 as [[]|e|].
    + unfold noPreFinalize, bind, get, ret. rewrite Hs, Hpre. simpl.
      intros [= <- <-]. exists (body ++ closing).
      split; [done|]. split; [done|]. intros _.
      destruct (Hok eq_refl) as [-> Hruns]. by exists body.
    + intros [= <- <-]. exists (body ++ closing). by split.
    + intros [= <- <-]. exists (body ++ closing). by split.
  - (* pre-finalize closures: the group commits, they run, a second group *)
    destruct (commitGroup (world agc)) as [[e|] w1].
    { intros [= <- <-]. exists [CallGroupRollback]. simpl. by auto. }
    unfold log at 1, modify at 1. simpl.
    set (ag2 := mkAggregator _ _ _ _ _ _ _).
    unfold bind at 1, noPreFinalize at 1, bind at 1, get at 1, ret at 1.
    assert (Hs2 : state ag2 = state agc) by done.
    assert (Ht2 : trace ag2 = trace agc ++ [CallGroupCommit]) by done.
    rewrite Hs2, Hpre. simpl.
    unfold bind at 1.
    destruct (RunPreFinalize ag2) as [rp ag3] eqn:Hrp.
    apply RunPreFinalize_log in Hrp as [Hs3 Hrp].
    rewrite Hs2, Hpre in Hrp.
    destruct rp as [[]|e|]; [| |done].
    2: { destruct Hrp as (ok & f & rest & Hsplit & Ht).
         intros [= <- <-].
         exists ([CallGroupCommit] ++ map (fun f => CallPreFinalize f None) ok
                 ++ [CallPreFinalize f (Some e)]).
         split; [by rewrite Ht, Ht2, <- app_assoc|].
         split; [|done]. simpl. split; [done|].
         apply phased_pre_ok. simpl. auto. }
    rewrite RunAsGroup_eq.
    destruct (beginGroup (world ag3)) as [[e|] w2].
    { intros [= <- <-].
      exists ([CallGroupCommit] ++ map (fun f => CallPreFinalize f None) (p :: pre)).
      split; [simpl; by rewrite Hrp, Ht2, <- app_assoc|].
      split; [|done]. simpl. split; [done|]. split; [done|].
      rewrite <- (app_nil_r (map _ pre)). apply phased_pre_ok. done. }
    set (agb := (log CallGroupBegin (setWorld w2 ag3)).2).
    destruct (RunFinalize agb) as [rf ag4] eqn:Hf.
    intros Hend.
    destruct (finalizeInGroup_log (p :: pre) _ _ _ _ _ Hf Hend)
      as (Hs & body & closing & Ht & Hph & Hg & Hp & Hok).
    exists ([CallGroupCommit] ++ map (fun f => CallPreFinalize f None) (p :: pre)
            ++ [CallGroupBegin] ++ body ++ closing).
    split.
    { rewrite Ht. unfold agb. simpl. rewrite Hrp, Ht2. simpl.
      rewrite <- !app_assoc. done. }
    split.
    { simpl. split; [done|]. split; [done|].
      apply (phased_pre_ok (p :: pre) pre [p]). simpl. split; [done|].
      exact Hph. }
    intros ->. destruct (Hok eq_refl) as [-> Hruns].
    exists body. split; [done|]. split; [done|]. split; [|done].
    rewrite Hruns. unfold agb. simpl. by rewrite Hs3, Hs2.
Qed.

(** C3. Take a page for which [processWithBatchState] opened its group,
    and the end of the page from the return of the callback. If the
    callback failed, the group is rolled back and no closure runs. If it
    succeeded, the closures do run, in two phases ([twoPhases]): with no
    pre-finalize closure registered, the finalize closures run, in the
    order of their registration, inside the group of the callback, which
    commits when all of them succeeded; otherwise that group commits first,
    then the pre-finalize closures run outside of any group, and only when
    all of them succeeded a second group opens, in which the finalize
    closures run and which then commits; a closure that fails ends the
    page, and no later closure runs. The log agrees: whatever the outcome
    of the page, every finalize closure it records runs inside a group and
    only after all the registered pre-finalize closures have succeeded,
    and every pre-finalize closure runs outside of any group ([phased]);
    when the page succeeds, the log is that of the one group, or of the
    commit, the pre-finalize closures and the second group. *)
Theorem processWithBatchState_phases (callback : AM unit)
    (ag agc ag' : aggregator) w rc r :
  beginGroup (world ag) = (None, w) ->
  callback (log CallGroupBegin (setWorld w (setState newBatchState ag))).2
  = (rc, agc) ->
  processWithBatchState callback ag = (r, ag') ->
  match rc with
  | Ok _ =>
      twoPhases (PreFinalize (state agc)) (Finalize (state agc)) agc r ag' /\
      exists calls : list Call,
        trace ag' = trace agc ++ calls /\
        phased (PreFinalize (state agc)) true [] calls /\
        (r = Ok tt ->
         exists body,
           groupCalls body = [] /\ preFinalizeRuns body = [] /\
           finalizeRuns body = map (fun f => (f, None)) (Finalize (state agc)) /\
           calls
           = match PreFinalize (state agc) with
             | [] => body ++ [CallGroupCommit]
             | _ :: _ =>
                 [CallGroupCommit]
                 ++ map (fun f => CallPreFinalize f None) (PreFinalize (state agc))
                 ++ [CallGroupBegin] ++ body ++ [CallGroupCommit]
             end)
  | Err e =>
      r = Err e /\ ag' = rolledBack (world agc) agc /\
      trace ag' = trace agc ++ [CallGroupRollback]
  | Panic => r = Panic /\ ag' = agc
  end.
Proof.
  intros Hbegin Hcb Hp.
  pose proof (processWithBatchState_log callback ag agc ag' w rc r Hbegin Hcb Hp)
    as Hlog.
  destruct rc as [u|e|].
  - split; [|exact Hlog].
    exact (processWithBatchState_ran callback ag agc ag' w u r Hbegin Hcb Hp).
  - destruct Hlog as [-> Ht]. split; [done|]. split; [|done].
    revert Hp. unfold processWithBatchState.
    unfold bind at 1. simpl.
    unfold bind at 1. rewrite RunAsGroup_eq. simpl. rewrite Hbegin.
    unfold bind at 1. simpl in Hcb. rewrite Hcb. by intros [= <-].
  - destruct Hlog as [-> Ht]. split; [done|].
    revert Hp. unfold processWithBatchState.
    unfold bind at 1. simpl.
    unfold bind at 1. rewrite RunAsGroup_eq. simpl. rewrite Hbegin.
    unfold bind at 1. simpl in Hcb. rewrite Hcb. by intros [= <-].
Qed.

(** *** The rewind check *)

(** C5. Take a rewind check that finds at least one queued batch id, and
    whose query is answered by the store after [n] failed attempts, with
    enough fuel for [n + 1] attempts, on a table of pins whose sequences
    are 64-bit integers above the least one. The check returns and leaves
    the queue empty. If some pin of the queued batches is not dispatched,
    it signals a rewind and the offset is the sequence, minus one, of such
    a pin of least sequence; if there is none, it signals no rewind. *)
Theorem rewindOffchainBatches_earliest (ag : aggregator) (n fuel : nat) w1 w2 :
  queuedRewinds ag <> [] ->
  failedAttempts n (world ag) w1 ->
  dbFault w1 = (None, w2) ->
  (n < fuel)%nat ->
  Forall (fun p => - 2 ^ 63 < Pin.Sequence p < 2 ^ 63) (pinsTable w2) ->
  exists rewind offset,
    rewindOffchainBatches fuel ag
    = Some (Ok (rewind, offset), setWorld w2 (setQueuedRewinds [] ag)) /\
    ((exists p, p ∈ pinsTable w2 /\ rewindCandidate (queuedRewinds ag) p) ->
     rewind = true /\
     exists p,
       p ∈ pinsTable w2 /\ rewindCandidate (queuedRewinds ag) p /\
       (forall q, q ∈ pinsTable w2 -> rewindCandidate (queuedRewinds ag) q ->
                  Pin.Sequence p <= Pin.Sequence q) /\
       offset = Pin.Sequence p - 1) /\
    ((forall p, p ∈ pinsTable w2 -> ~ rewindCandidate (queuedRewinds ag) p) ->
     rewind = false).
Proof.
  intros Hne Hfail Hok Hfuel Hseq. unfold rewindOffchainBatches.
  rewrite (retryDo_rewind (queuedRewinds ag) n fuel 0 _ (false, 0) w1 w2)
    by done.
  pose proof (evalPins_rewindFilter (queuedRewinds ag) (pinsTable w2)) as Hq.
  destruct (evalPins _ _) as [|p rest].
  - exists false, 0. split; [done|]. split; [|done].
    intros (p & Hp & Hc). by destruct (Hq p Hp).
  - destruct Hq as (Hp & Hc & Hmin).
    exists true, (wrap64 (Pin.Sequence p - 1)). split; [done|]. split.
    + intros _. split; [done|]. exists p. split; [done|]. split; [done|].
      split; [done|].
      apply wrap64_id. rewrite Forall_forall in Hseq.
      specialize (Hseq p Hp). unfold int64. lia.
    + intros Hnone. by destruct (Hnone p Hp).
Qed.

(** *** Manifests *)

(** C7. [extractManifest] yields a manifest in exactly two cases: the stored
    manifest parses with version 1, and then it is returned as parsed; or
    it parses with the version unset, the stored JSON also parses as a
    full payload with at least one message, and then the result is the
    manifest generated from the messages and data of that payload, which
    has version 1. In every other case there is no manifest, and a pin
    whose batch is read from the store with such a manifest is parked:
    [GetBatchForPin] returns no batch and the loop of [processPins] goes to
    the next pin. *)
Theorem extractManifest_forms (batch : BatchPersisted.t) :
  (forall m,
     extractManifest batch = Some m <->
     exists parsed,
       UnmarshalBatchManifest (BatchPersisted.Manifest batch) = Some parsed /\
       ((BatchManifest.Version parsed = ManifestVersion1 /\ m = parsed) \/
        (BatchManifest.Version parsed = ManifestVersionUnset /\
         exists fullPayload,
           UnmarshalBatchPayload (BatchPersisted.Manifest batch) = Some fullPayload /\
           BatchPayload.Messages fullPayload <> [] /\
           m = GenManifest batch (BatchPayload.Messages fullPayload)
                 (BatchPayload.Data fullPayload) /\
           BatchManifest.Version m = ManifestVersion1))) /\
  (extractManifest batch = None ->
   forall (pin : Pin.t) (ag : aggregator) w1 w2 dupMsgCheck,
     batchCacheGet (getBatchCacheKey (Pin.Batch pin) (Pin.BatchHash pin)) (world ag)
     = (None, w1) ->
     GetBatchByID (Pin.Batch pin) w1 = (Ok (Some batch), w2) ->
     GetBatchForPin pin ag = (Ok None, setWorld w2 ag) /\
     processPin (None, dupMsgCheck) pin ag = (Ok (None, dupMsgCheck), setWorld w2 ag)).
Proof.
  split.
  - intros m. unfold extractManifest, migrateManifest.
    destruct (UnmarshalBatchManifest _) as [parsed|]; [|by split; [|intros (? & ? & _)]].
    destruct (bool_decide_reflect (BatchManifest.Version parsed = ManifestVersionUnset))
      as [Hunset|Hset].
    + destruct (UnmarshalBatchPayload _) as [fullPayload|].
      * destruct (bool_decide_reflect (length (BatchPayload.Messages fullPayload) = 0%nat))
          as [Hlen|Hlen].
        { apply nil_length_inv in Hlen. split; [done|].
          intros (parsed' & [= <-] & [[Hv _]|(_ & fp & [= <-] & Hne & _)]).
          - rewrite Hunset in Hv. done.
          - done. }
        split.
        { intros [= <-]. exists parsed. split; [done|]. right. split; [done|].
          exists fullPayload. split; [done|]. split; [|done].
          intros Hnil. by rewrite Hnil in Hlen. }
        intros (parsed' & [= <-] & [[Hv _]|(_ & fp & [= <-] & _ & -> & _)]).
        { rewrite Hunset in Hv. done. }
        done.
      * split; [done|].
        intros (parsed' & [= <-] & [[Hv _]|(_ & fp & Hfp & _)]); [|done].
        rewrite Hunset in Hv. done.
    + destruct (bool_decide_reflect (BatchManifest.Version parsed = ManifestVersion1))
        as [Hv1|Hv1].
      * split.
        { intros [= <-]. exists parsed. split; [done|]. by left. }
        intros (parsed' & [= <-] & [[_ ->]|[Hv _]]); [done|]. done.
      * split; [done|].
        intros (parsed' & [= <-] & [[Hv _]|[Hv _]]); done.
  - intros Hnone pin ag w1 w2 dup Hcache Hdb.
    assert (Hget : GetBatchForPin pin ag = (Ok None, setWorld w2 ag)).
    { unfold GetBatchForPin, bind, callT, call. rewrite Hcache. simpl.
      rewrite Hdb. simpl. destruct (negb _); [done|]. by rewrite Hnone. }
    split; [done|].
    unfold processPin, batchForPin, bind. by rewrite Hget.
Qed.

(** *** The page of pins *)


(** C10. [processPins] panics on the empty page; on any other page, when it
    returns without an error, the offset of the poller is the sequence of
    the last pin of the page, and committing it is the last thing the
    function did. *)
Theorem processPins_commits_last_sequence :
  (forall ag : aggregator, processPins [] ag = (Panic, ag)) /\
  (forall pins (ag ag' : aggregator),
     pins <> [] ->
     processPins pins ag = (Ok tt, ag') ->
     exists p calls,
       last pins = Some p /\
       pollingOffset ag' = Pin.Sequence p /\
       trace ag' = calls ++ [CallCommitOffset (Pin.Sequence p)]).
Proof.
  split; [done|].
  intros pins ag ag' Hne. unfold processPins. intros Hp.
  apply bind_Ok in Hp as (acc & ag1 & _ & Hp).
  destruct (last pins) as [p|] eqn:Hlast; [|done].
  injection Hp as <-. exists p, (trace ag1). by simpl.
Qed.

(** *** What a dispatch went through *)

Lemma call_Ok {A : Type} (f : W -> result A * W) (ag ag' : aggregator) a :
  call f ag = (Ok a, ag') ->
  exists w, f (world ag) = (Ok a, w) /\ ag' = setWorld w ag.
Proof.
  unfold call. destruct (f (world ag)) as [r w]. intros [= -> <-]. by exists w.
Qed.

Lemma callU_state (f : W -> W) : preserves (keeps state) (callU f : AM unit).
Proof. prim. Qed.

Lemma checkOnchainConsistency_state msg pin :
  preserves (keeps state) (checkOnchainConsistency msg pin : AM _).
Proof. unfold checkOnchainConsistency. frame. Qed.

Lemma resolveBlobs_state data : preserves (keeps state) (resolveBlobs data : AM _).
Proof. unfold resolveBlobs. frame. Qed.

(** The steps behind a dispatch: the consistency check and the blobs
    passed, the transfer of a transfer message was found with the hash of
    the message, and the verdict came from the definition handler, from
    the kind of the message, or from the validation of its data. *)
Lemma attemptMessageDispatch_inv msg data tx pin (ag ag' : aggregator) newState :
  attemptMessageDispatch msg data tx pin ag = (Ok (newState, true), ag') ->
  let h := Message.Header msg in
  exists (ag1 ag2 ag3 ag4 : aggregator) (valid : bool) corr,
    checkOnchainConsistency msg pin
      (log (CallAttemptMessageDispatch (MessageHeader.ID h)) ag).2
    = (Ok true, ag1) /\
    resolveBlobs data ag1 = (Ok true, ag2) /\
    (if isTransfer msg
     then exists t ts w,
            GetTokenTransfers (And [Eq "message" (VUUID (MessageHeader.ID h))])
              (world ag2)
            = (Ok (t :: ts), w) /\
            Equals (Message.Hash msg) (TokenTransfer.MessageHash t) = true /\
            ag3 = setWorld w ag2
     else ag3 = ag2) /\
    ((MessageHeader.Type_ h = MessageTypeDefinition /\
      exists handlerResult err,
        handleDefinitionBroadcast msg data tx ag3 = (Ok (handlerResult, err), ag4) /\
        HandlerResult.Action handlerResult <> ActionRetry /\
        HandlerResult.Action handlerResult <> ActionWait /\
        valid = bool_decide (HandlerResult.Action handlerResult = ActionConfirm) /\
        corr = HandlerResult.CustomCorrelator handlerResult) \/
     (MessageHeader.Type_ h <> MessageTypeDefinition /\
      (MessageHeader.Type_ h = MessageTypeGroupInit \/ Message.Data msg = []) /\
      valid = true /\ corr = None /\ ag4 = ag3) \/
     (MessageHeader.Type_ h <> MessageTypeDefinition /\
      MessageHeader.Type_ h <> MessageTypeGroupInit /\
      Message.Data msg <> [] /\ corr = None /\
      exists w, ValidateAll data (world ag3) = (Ok valid, w) /\ ag4 = setWorld w ag3)) /\
    queueDispatch msg tx valid corr ag4 = (Ok (newState, true), ag').
Proof.
  intros Hd h. unfold attemptMessageDispatch in Hd.
  apply bind_Ok in Hd as (u & ag0 & Hlog & Hd).
  injection Hlog as _ <-.
  apply bind_Ok in Hd as (valid & ag1 & Hcheck & Hd).
  destruct valid; [|by apply notDispatched_false in Hd].
  simpl in Hd.
  apply bind_Ok in Hd as (resolved & ag2 & Hblobs & Hd).
  destruct resolved; [|by apply notDispatched_false in Hd].
  simpl in Hd.
  apply bind_Ok in Hd as (transferOk & ag3 & Htransfer & Hd).
  destruct transferOk; [|by apply notDispatched_false in Hd].
  simpl in Hd.
  assert (Ht : if isTransfer msg
               then exists t ts w,
                   GetTokenTransfers
                     (And [Eq "message" (VUUID (MessageHeader.ID h))]) (world ag2)
                   = (Ok (t :: ts), w) /\
                   Equals (Message.Hash msg) (TokenTransfer.MessageHash t) = true /\
                   ag3 = setWorld w ag2
               else ag3 = ag2).
  { destruct (isTransfer msg).
    - apply bind_Ok in Htransfer as (transfers & agt & Hq & Hr).
      apply call_Ok in Hq as (w & Hq & ->).
      destruct transfers as [|t ts]; [done|].
      injection Hr as Heq <-. by exists t, ts, w.
    - by injection Htransfer as <-. }
  exists ag1, ag2, ag3.
  case_bool_decide as Hdef.
  - apply bind_Ok in Hd as ([handlerResult err] & ag4 & Hh & Hd).
    case_bool_decide as Hretry.
    { destruct err; [done|by apply notDispatched_false in Hd]. }
    case_bool_decide as Hwait; [by apply notDispatched_false in Hd|].
    eexists ag4, _, _. repeat (split; [done|]). split; [|exact Hd].
    left. split; [done|]. by exists handlerResult, err.
  - case_bool_decide as Hgi.
    { exists ag3, true, None. repeat (split; [done|]). split; [|exact Hd].
      right. left. auto. }
    case_bool_decide as Hlen.
    { exists ag3, true, None. repeat (split; [done|]). split; [|exact Hd].
      right. left. apply nil_length_inv in Hlen. auto. }
    apply bind_Ok in Hd as (valid & ag4 & Hv & Hd).
    apply call_Ok in Hv as (w & Hv & ->).
    exists (setWorld w ag3), valid, None. repeat (split; [done|]).
    split; [|exact Hd].
    right. right. repeat (split; [done|]).
    split; [by intros Hnil; rewrite Hnil in Hlen|]. split; [done|]. by exists w.
Qed.

Lemma queueDispatch_state msg tx valid corr (ag ag' : aggregator) r :
  queueDispatch msg tx valid corr ag = (r, ag') ->
  r = Ok (if valid then MessageStateConfirmed else MessageStateRejected, true) /\
  pendingConfirms (state ag')
  = (if valid
     then <[MessageHeader.ID (Message.Header msg) := msg]> (pendingConfirms (state ag))
     else pendingConfirms (state ag)) /\
  rest (state ag') = rest (state ag).
Proof.
  unfold queueDispatch, bind, get, ret, callU, setPendingConfirm, AddFinalize, modify.
  destruct valid; simpl;
    match goal with
    | |- context [IsMetricsEnabled ?w] => destruct (IsMetricsEnabled w)
    end; by intros [= <- <-].
Qed.

Lemma handleDefinitionBroadcast_state msg data tx (ag ag' : aggregator) r :
  handleDefinitionBroadcast msg data tx ag = (r, ag') ->
  pendingConfirms (state ag') = pendingConfirms (state ag) /\
  rest (state ag') = rest (state ag).
Proof.
  unfold handleDefinitionBroadcast.
  destruct (HandleDefinitionBroadcast _ _ _ _ _) as [[hr [pre fin]] w].
  by intros [= <- <-].
Qed.

(** X1. A dispatch ends in one of the two final states. A message that is
    confirmed is recorded under its identifier among the pending
    confirmations of the page, where the definition handlers of later
    messages of the page find it; a rejected message is not. The dispatch
    leaves the rest of the batch state as it was. *)
Theorem attemptMessageDispatch_pendingConfirms msg data tx pin
    (ag ag' : aggregator) newState :
  attemptMessageDispatch msg data tx pin ag = (Ok (newState, true), ag') ->
  (newState = MessageStateConfirmed \/ newState = MessageStateRejected) /\
  pendingConfirms (state ag')
  = match newState with
    | MessageStateConfirmed =>
        <[MessageHeader.ID (Message.Header msg) := msg]> (pendingConfirms (state ag))
    | _ => pendingConfirms (state ag)
    end /\
  rest (state ag') = rest (state ag).
Proof.
  intros Hd.
  apply attemptMessageDispatch_inv in Hd
    as (ag1 & ag2 & ag3 & ag4 & valid & corr & Hcheck & Hblobs & Ht & Hv & Hq).
  apply (preserves_run _ _ _ _ _ (checkOnchainConsistency_state msg pin)) in Hcheck.
  apply (preserves_run _ _ _ _ _ (resolveBlobs_state data)) in Hblobs.
  unfold keeps in Hcheck, Hblobs. simpl in Hcheck.
  assert (Hs3 : state ag3 = state ag).
  { destruct (isTransfer msg).
    - destruct Ht as (t & ts & w & _ & _ & ->). simpl. congruence.
    - subst ag3. congruence. }
  assert (Hs4 : pendingConfirms (state ag4) = pendingConfirms (state ag) /\
                rest (state ag4) = rest (state ag)).
  { destruct Hv as [(_ & hr & err & Hh & _)|[(_ & _ & _ & _ & ->)|(_ & _ & _ & _ & w & _ & ->)]].
    - apply handleDefinitionBroadcast_state in Hh. by rewrite <- Hs3.
    - by rewrite Hs3.
    - simpl. by rewrite Hs3. }
  apply queueDispatch_state in Hq as (Hr & Hp & Hrest).
  injection Hr as ->. destruct Hs4 as [Hp4 Hr4].
  rewrite Hp, Hrest, Hp4, Hr4. by destruct valid; auto.
Qed.

(** X2. A dispatch rejects a message only on the verdict of the definition
    handler, for a definition, or of the validation of its data, for a
    message of another kind that has data; a group init message and a
    message without data are never rejected. *)
Theorem attemptMessageDispatch_rejected msg data tx pin (ag ag' : aggregator) :
  attemptMessageDispatch msg data tx pin ag = (Ok (MessageStateRejected, true), ag') ->
  let h := Message.Header msg in
  (MessageHeader.Type_ h = MessageTypeDefinition /\
   exists (ag3 ag4 : aggregator) handlerResult err,
     handleDefinitionBroadcast msg data tx ag3 = (Ok (handlerResult, err), ag4) /\
     HandlerResult.Action handlerResult = ActionReject) \/
  (MessageHeader.Type_ h <> MessageTypeDefinition /\
   MessageHeader.Type_ h <> MessageTypeGroupInit /\
   Message.Data msg <> [] /\
   exists (ag3 : aggregator) w,
     state ag3 = state ag /\
     ValidateAll data (world ag3) = (Ok false, w)).
Proof.
  intros Hd h.
  apply attemptMessageDispatch_inv in Hd
    as (ag1 & ag2 & ag3 & ag4 & valid & corr & Hcheck & Hblobs & Ht & Hv & Hq).
  apply queueDispatch_state in Hq as (Hr & _).
  destruct valid; [done|].
  destruct Hv as [(Hdef & hr & err & Hh & Hretry & Hwait & Hvalid & _)
                 |[(_ & _ & [=] & _)|(Hdef & Hgi & Hdata & _ & w & Hval & _)]].
  - left. split; [done|]. exists ag3, ag4, hr, err. split; [done|].
    symmetry in Hvalid. apply bool_decide_eq_false in Hvalid.
    by destruct (HandlerResult.Action hr).
  - right. repeat (split; [done|]). exists ag3, w. split; [|done].
    apply (preserves_run _ _ _ _ _ (checkOnchainConsistency_state msg pin)) in Hcheck.
    apply (preserves_run _ _ _ _ _ (resolveBlobs_state data)) in Hblobs.
    unfold keeps in Hcheck, Hblobs. simpl in Hcheck.
    destruct (isTransfer msg).
    + destruct Ht as (t & ts & w' & _ & _ & ->). simpl. congruence.
    + subst ag3. congruence.
Qed.

(** X3. A transfer message is dispatched only when the store has a token
    transfer for the message, and the first transfer it returns carries
    the hash of the message. *)
Theorem attemptMessageDispatch_transfer msg data tx pin (ag ag' : aggregator) newState :
  isTransfer msg = true ->
  attemptMessageDispatch msg data tx pin ag = (Ok (newState, true), ag') ->
  exists (ag2 : aggregator) t ts w,
    state ag2 = state ag /\
    GetTokenTransfers
      (And [Eq "message" (VUUID (MessageHeader.ID (Message.Header msg)))]) (world ag2)
    = (Ok (t :: ts), w) /\
    Equals (Message.Hash msg) (TokenTransfer.MessageHash t) = true.
Proof.
  intros Hkind Hd.
  apply attemptMessageDispatch_inv in Hd
    as (ag1 & ag2 & ag3 & ag4 & valid & corr & Hcheck & Hblobs & Ht & _).
  rewrite Hkind in Ht. destruct Ht as (t & ts & w & Hq & Heq & _).
  exists ag2, t, ts, w. split; [|done].
  apply (preserves_run _ _ _ _ _ (checkOnchainConsistency_state msg pin)) in Hcheck.
  apply (preserves_run _ _ _ _ _ (resolveBlobs_state data)) in Hblobs.
  unfold keeps in Hcheck, Hblobs. simpl in Hcheck. congruence.
Qed.

(** X4. An attempt that does not dispatch reports the empty state. For a
    message that is not a definition it leaves the batch state as it was:
    it registers no closure and records no pending confirmation, whether
    it ends without an error or with one. *)
Theorem attemptMessageDispatch_undispatched msg data tx pin (ag ag' : aggregator) r :
  attemptMessageDispatch msg data tx pin ag = (r, ag') ->
  (forall newState, r <> Ok (newState, true)) ->
  (forall newState dispatched, r = Ok (newState, dispatched) ->
     newState = MessageStateUnset) /\
  (MessageHeader.Type_ (Message.Header msg) <> MessageTypeDefinition ->
   state ag' = state ag).
Proof.
  intros Hd Hnd. unfold attemptMessageDispatch in Hd.
  assert (Hno : forall (agq : aggregator),
            notDispatched agq = (r, ag') ->
            r = Ok (MessageStateUnset, false) /\ ag' = agq).
  { by intros agq [= <- <-]. }
  assert (Hq : forall valid corr (agq : aggregator),
            queueDispatch msg tx valid corr agq = (r, ag') -> False).
  { intros valid corr agq Hq. apply queueDispatch_state in Hq as [-> _].
    by eapply Hnd. }
  apply bind_cases in Hd as [(u & ag0 & Hlog & Hd)|[(e & [=] & _)|[[=] _]]].
  apply (preserves_run _ _ _ _ _ (log_state _)) in Hlog as Hs0.
  unfold keeps in Hs0. clear Hlog.
  assert (Hfail :
            state ag' = state ag ->
            (exists e, r = Err e) \/ r = Panic \/ r = Ok (MessageStateUnset, false) ->
            (forall newState dispatched, r = Ok (newState, dispatched) ->
               newState = MessageStateUnset) /\
            (MessageHeader.Type_ (Message.Header msg) <> MessageTypeDefinition ->
             state ag' = state ag)).
  { intros Hs Hr. split; [|done].
    intros newState dispatched ->.
    destruct Hr as [[e [=]]|[[=]|[= -> _]]]. done. }
  apply bind_cases in Hd as [(valid & ag1 & Hcheck & Hd)|Hd].
  2: { destruct Hd as [(e & Hcheck & ->)|[Hcheck ->]];
       apply (preserves_run _ _ _ _ _ (checkOnchainConsistency_state msg pin))
         in Hcheck;
       unfold keeps in Hcheck;
       (apply Hfail; [congruence|eauto]). }
  apply (preserves_run _ _ _ _ _ (checkOnchainConsistency_state msg pin)) in Hcheck.
  unfold keeps in Hcheck.
  destruct valid; simpl in Hd.
  2: { apply Hno in Hd as [-> ->]. apply Hfail; [congruence|eauto]. }
  apply bind_cases in Hd as [(resolved & ag2 & Hblobs & Hd)|Hd].
  2: { destruct Hd as [(e & Hblobs & ->)|[Hblobs ->]];
       apply (preserves_run _ _ _ _ _ (resolveBlobs_state data)) in Hblobs;
       unfold keeps in Hblobs;
       (apply Hfail; [congruence|eauto]). }
  apply (preserves_run _ _ _ _ _ (resolveBlobs_state data)) in Hblobs.
  unfold keeps in Hblobs.
  destruct resolved; simpl in Hd.
  2: { apply Hno in Hd as [-> ->]. apply Hfail; [congruence|eauto]. }
  apply bind_cases in Hd as [(transferOk & ag3 & Htransfer & Hd)|Hd].
  2: { destruct Hd as [(e & Htransfer & ->)|[Htransfer ->]];
       (assert (Hs3 : keeps state ag2 ag')
          by (eapply preserves_run; [|exact Htransfer]; frame));
       unfold keeps in Hs3;
       (apply Hfail; [congruence|eauto]). }
  assert (Hs3 : keeps state ag2 ag3)
    by (eapply preserves_run; [|exact Htransfer]; frame).
  unfold keeps in Hs3. clear Htransfer.
  destruct transferOk; simpl in Hd.
  2: { apply Hno in Hd as [-> ->]. apply Hfail; [congruence|eauto]. }
  case_bool_decide as Hdef.
  - split; [|done]. intros newState dispatched ->.
    apply bind_cases in Hd as [([handlerResult err] & ag4 & Hh & Hd)|Hd].
    2: { by destruct Hd as [(e & _ & [=])|[_ [=]]]. }
    case_bool_decide as Hretry.
    { destruct err; [done|]. by apply Hno in Hd as [[= -> _] _]. }
    case_bool_decide as Hwait; [by apply Hno in Hd as [[= -> _] _]|].
    by apply Hq in Hd.
  - case_bool_decide as Hgi; [by apply Hq in Hd|].
    case_bool_decide as Hlen; [by apply Hq in Hd|].
    apply bind_cases in Hd as [(valid & ag4 & Hv & Hd)|Hd]; [by apply Hq in Hd|].
    destruct Hd as [(e & Hv & ->)|[Hv ->]];
      apply (preserves_run _ _ _ _ _ (call_state _)) in Hv;
      unfold keeps in Hv;
      (apply Hfail; [congruence|eauto]).
Qed.

(** *** Where the error of an attempt comes from *)

Lemma call_Err {A : Type} (f : W -> result A * W) (ag ag' : aggregator) e :
  call f ag = (Err e, ag') -> exists w, f (world ag) = (Err e, w).
Proof.
  unfold call. destruct (f (world ag)) as [r w]. intros [= -> _]. by exists w.
Qed.

Lemma resolveBlobs_error data (ag ag' : aggregator) e :
  resolveBlobs data ag = (Err e, ag') ->
  exists hash w w', GetBlobMatchingHash hash w = (Err e, w').
Proof.
  unfold resolveBlobs.
  match goal with |- forRange ?b _ _ _ = _ -> _ => set (body := b) end.
  generalize true as acc. revert ag.
  induction data as [|d data IH]; intros ag acc; [done|].
  rewrite forRange_cons.
  destruct (body acc d ag) as [[acc1|e1|] ag1] eqn:Hstep; [by apply IH| |done].
  intros [= -> _]. clear IH. unfold body in Hstep.
  destruct (negb acc); [done|].
  destruct (Data.Blob d) as [b|]; [|done].
  destruct (BlobRef.Hash b) as [hash|]; [|done].
  apply bind_cases in Hstep as [(blob & ag2 & _ & Hr)|[(e' & Hcall & [= <-])|[_ [=]]]].
  { by destruct blob. }
  apply call_Err in Hcall as [w Hcall]. by exists (Some hash), (world ag), w.
Qed.

(** X22. An attempt returns an error only when one of its collaborators
    did, and it returns that error: the identity manager on the lookup of
    the signer, the store on the lookup of a blob or of the token
    transfers, the definition handler when it asks for a retry, or the
    data manager on the validation of the data. *)
Theorem attemptMessageDispatch_error msg data tx pin (ag ag' : aggregator) e :
  attemptMessageDispatch msg data tx pin ag = (Err e, ag') ->
  (exists types ns ref w w', FindIdentityForVerifier types ns ref w = (Err e, w')) \/
  (exists hash w w', GetBlobMatchingHash hash w = (Err e, w')) \/
  (exists filter w w', GetTokenTransfers filter w = (Err e, w')) \/
  (exists pending handlerResult registered w w',
     HandleDefinitionBroadcast pending msg data tx w
     = ((handlerResult, Some e), registered, w') /\
     HandlerResult.Action handlerResult = ActionRetry) \/
  (exists w w', ValidateAll data w = (Err e, w')).
Proof.
  intros Hd. unfold attemptMessageDispatch in Hd.
  assert (Hq : forall valid corr (agq : aggregator),
            queueDispatch msg tx valid corr agq = (Err e, ag') -> False).
  { intros valid corr agq Hq. by apply queueDispatch_state in Hq as [[=] _]. }
  apply bind_cases in Hd as [(u & ag0 & _ & Hd)|[(e' & [=] & _)|[_ [=]]]].
  apply bind_cases in Hd as [(valid & ag1 & _ & Hd)|[(e' & Hcheck & [= <-])|[_ [=]]]].
  2: { left. unfold checkOnchainConsistency in Hcheck.
       apply bind_cases in Hcheck as [(agr & ag2 & [= <- <-] & Hcheck)|[(? & [=] & _)|[[=] _]]].
       destruct (_ || _); [done|].
       apply bind_cases in Hcheck
         as [(author & ag3 & _ & Hr)|[(e' & Hcall & [= <-])|[_ [=]]]].
       - destruct author as [author|].
         + by destruct (_ || _).
         + destruct (isIdentityClaim msg); [done|]. by destruct (negb _).
       - apply call_Err in Hcall as [w Hcall]. eauto 10. }
  destruct valid; [|done]. simpl in Hd.
  apply bind_cases in Hd as [(resolved & ag2 & _ & Hd)|[(e' & Hblobs & [= <-])|[_ [=]]]].
  2: { right. left. by apply resolveBlobs_error in Hblobs. }
  destruct resolved; [|done]. simpl in Hd.
  apply bind_cases in Hd as [(transferOk & ag3 & _ & Hd)|[(e' & Ht & [= <-])|[_ [=]]]].
  2: { right. right. left. destruct (isTransfer msg); [|done].
       apply bind_cases in Ht as [(ts & ag3 & _ & Hr)|[(e' & Hcall & [= <-])|[_ [=]]]].
       - by destruct ts.
       - apply call_Err in Hcall as [w Hcall]. eauto 10. }
  destruct transferOk; [|done]. simpl in Hd.
  case_bool_decide as Hdef.
  - apply bind_cases in Hd as [([hr err] & ag4 & Hh & Hd)|[(e' & Hh & _)|[Hh _]]].
    2,3: unfold handleDefinitionBroadcast in Hh;
         by destruct (HandleDefinitionBroadcast _ _ _ _ _) as [[? [? ?]] ?].
    case_bool_decide as Hretry.
    + destruct err as [e'|]; [|done]. injection Hd as <- _.
      right. right. right. left.
      unfold handleDefinitionBroadcast in Hh.
      destruct (HandleDefinitionBroadcast _ _ _ _ _) as [[r [pre fin]] w] eqn:Hcall.
      injection Hh as -> _. eauto 10.
    + case_bool_decide as Hwait; [done|]. by apply Hq in Hd.
  - case_bool_decide as Hgi; [by apply Hq in Hd|].
    case_bool_decide as Hlen; [by apply Hq in Hd|].
    apply bind_cases in Hd as [(valid & ag4 & _ & Hd)|[(e' & Hv & [= <-])|[_ [=]]]];
      [by apply Hq in Hd|].
    right. right. right. right.
    apply call_Err in Hv as [w Hv]. eauto.
Qed.

(** *** The offset of the poller *)

Lemma call_offset {A : Type} (f : W -> result A * W) :
  preserves (keeps pollingOffset) (call f : AM A).
Proof. prim. Qed.

Lemma callE_offset (f : W -> option Error * W) :
  preserves (keeps pollingOffset) (callE f : AM unit).
Proof. prim. Qed.

Lemma callT_offset {A : Type} (f : W -> A * W) :
  preserves (keeps pollingOffset) (callT f : AM A).
Proof. prim. Qed.

Lemma callU_offset (f : W -> W) : preserves (keeps pollingOffset) (callU f : AM unit).
Proof. prim. Qed.

Lemma onState_offset {A : Type} (f : BS -> W -> result A * BS * W) :
  preserves (keeps pollingOffset) (onState f : AM A).
Proof. prim. Qed.

Lemma log_offset c : preserves (keeps pollingOffset) (log c : AM unit).
Proof. prim. Qed.

Lemma setPendingConfirm_offset id msg :
  preserves (keeps pollingOffset) (setPendingConfirm id msg : AM unit).
Proof. prim. Qed.

Lemma AddFinalize_offset f : preserves (keeps pollingOffset) (AddFinalize f : AM unit).
Proof. prim. Qed.

Lemma handleDefinitionBroadcast_offset msg data tx :
  preserves (keeps pollingOffset) (handleDefinitionBroadcast msg data tx : AM _).
Proof.
  intros ag. unfold keeps, handleDefinitionBroadcast.
  by destruct (HandleDefinitionBroadcast _ _ _ _ _) as [[? [? ?]] ?].
Qed.

Lemma isMetricsEnabled_offset :
  preserves (keeps pollingOffset) (isMetricsEnabled : AM bool).
Proof. by intros ag. Qed.

#[local] Hint Resolve call_offset callE_offset callT_offset callU_offset
  onState_offset log_offset setPendingConfirm_offset AddFinalize_offset
  handleDefinitionBroadcast_offset isMetricsEnabled_offset : frame.

Lemma attemptMessageDispatch_offset msg data tx pin :
  preserves (keeps pollingOffset) (attemptMessageDispatch msg data tx pin : AM _).
Proof.
  unfold attemptMessageDispatch, checkOnchainConsistency, resolveBlobs,
    queueDispatch, notDispatched.
  frame.
Qed.

Lemma processMessage_offset manifest pin msgBaseIndex msgEntry :
  preserves (keeps pollingOffset)
    (processMessage manifest pin msgBaseIndex msgEntry : AM unit).
Proof.
  unfold processMessage, maskedReady, unmaskedReady, updBS.
  frame; apply attemptMessageDispatch_offset.
Qed.

Lemma processPin_offset acc pin :
  preserves (keeps pollingOffset) (processPin acc pin : AM _).
Proof.
  unfold processPin, batchForPin, GetBatchForPin, cacheBatch.
  frame; apply processMessage_offset.
Qed.

(** X5. A page that does not end well leaves the offset of the poller where it
    was: whatever the error, and for the empty page, nothing is committed,
    so that the poller reads the same pins again. *)
Theorem processPins_failure_keeps_offset pins (ag ag' : aggregator) r :
  processPins pins ag = (r, ag') ->
  r <> Ok tt ->
  pollingOffset ag' = pollingOffset ag.
Proof.
  unfold processPins. intros Hp Hr.
  assert (Hloop : forall rl (agl : aggregator),
            forRange processPin pins (None, ∅) ag = (rl, agl) ->
            pollingOffset agl = pollingOffset ag).
  { intros rl agl Hl. eapply (preserves_run (keeps pollingOffset)); [|exact Hl].
    apply preserves_forRange; [apply keeps_preorder|].
    intros acc pin. apply processPin_offset. }
  apply bind_cases in Hp as [(acc & ag1 & Hl & Hp)|[(e & Hl & _)|[Hl _]]].
  - apply Hloop in Hl. destruct (last pins) as [p|].
    + unfold commitOffset, bind, log, modify in Hp. simpl in Hp.
      by injection Hp as <- _.
    + by injection Hp as _ <-.
  - by apply Hloop in Hl.
  - by apply Hloop in Hl.
Qed.

(** *** Blobs *)

Lemma setWorld_world (ag : aggregator) : setWorld (world ag) ag = ag.
Proof. by destruct ag. Qed.

Lemma resolveBlobs_loop data :
  (forall hash w, (GetBlobMatchingHash hash w).2 = w) ->
  forall acc (ag ag' : aggregator) resolved,
  forRange
    (fun (resolved : bool) (d : Data.t) =>
       if negb resolved then ret false
       else
         match Data.Blob d with
         | None => ret true
         | Some b =>
             match BlobRef.Hash b with
             | None => ret true
             | Some hash =>
                 bind (call (GetBlobMatchingHash (Some hash)))
                   (fun blob =>
                      match blob with
                      | Some _ => ret true
                      | None => ret false
                      end)
             end
         end)
    data acc ag = (Ok resolved, ag') ->
  ag' = ag /\
  (resolved = true <->
   acc = true /\
   forall d blobRef hash,
     d ∈ data -> Data.Blob d = Some blobRef -> BlobRef.Hash blobRef = Some hash ->
     exists blob,
       GetBlobMatchingHash (Some hash) (world ag) = (Ok (Some blob), world ag)).
Proof.
  intros Hro. induction data as [|d data IH]; intros acc ag ag' resolved.
  - intros [= <- <-]. split; [done|]. split; [|by intros [? _]].
    intros ->. split; [done|]. intros d b h Hin. by apply elem_of_nil in Hin.
  - rewrite forRange_cons. intros Hl.
    apply bind_Ok in Hl as (acc1 & ag1 & Hstep & Hl).
    apply IH in Hl as [-> Hl].
    destruct acc; simpl in Hstep.
    2: { injection Hstep as <- <-. split; [done|]. rewrite Hl.
         split; [by intros [? _]|by intros [? _]]. }
    destruct (Data.Blob d) as [b|] eqn:Hb.
    2: { injection Hstep as <- <-. split; [done|]. rewrite Hl.
         split.
         - intros [_ Hall]. split; [done|]. intros d' b' h' Hin Hb' Hh'.
           apply elem_of_cons in Hin as [->|Hin]; [congruence|by eapply Hall].
         - intros [_ Hall]. split; [done|]. intros d' b' h' Hin.
           apply Hall. by right. }
    destruct (BlobRef.Hash b) as [hash|] eqn:Hh.
    2: { injection Hstep as <- <-. split; [done|]. rewrite Hl.
         split.
         - intros [_ Hall]. split; [done|]. intros d' b' h' Hin Hb' Hh'.
           apply elem_of_cons in Hin as [->|Hin]; [congruence|by eapply Hall].
         - intros [_ Hall]. split; [done|]. intros d' b' h' Hin.
           apply Hall. by right. }
    apply bind_Ok in Hstep as (blob & ag2 & Hcall & Hstep).
    apply call_Ok in Hcall as (w & Hcall & ->).
    pose proof (Hro (Some hash) (world ag)) as Hw. rewrite Hcall in Hw.
    simpl in Hw. subst w. rewrite setWorld_world in *.
    destruct blob as [blob|]; injection Hstep as <- <-.
    + split; [done|]. rewrite Hl. split.
      * intros [_ Hall]. split; [done|]. intros d' b' h' Hin Hb' Hh'.
        apply elem_of_cons in Hin as [->|Hin]; [|by eapply Hall].
        rewrite Hb in Hb'. injection Hb' as <-. rewrite Hh in Hh'.
        injection Hh' as <-. by exists blob.
      * intros [_ Hall]. split; [done|]. intros d' b' h' Hin.
        apply Hall. by right.
    + split; [done|]. rewrite Hl. split; [by intros [? _]|].
      intros [_ Hall].
      destruct (Hall d b hash) as [blob Hblob]; [by left|done..|].
      rewrite Hcall in Hblob. done.
Qed.

(** X6. With a store whose blob lookup is a read, [resolveBlobs] changes
    nothing, and it answers that the blobs are resolved exactly when the
    store has a blob for the hash of every attachment of the data; a record
    without attachment, or whose attachment has no hash, asks for
    nothing. *)
Theorem resolveBlobs_all_stored data (ag ag' : aggregator) resolved :
  (forall hash w, (GetBlobMatchingHash hash w).2 = w) ->
  resolveBlobs data ag = (Ok resolved, ag') ->
  ag' = ag /\
  (resolved = true <->
   forall d blobRef hash,
     d ∈ data -> Data.Blob d = Some blobRef -> BlobRef.Hash blobRef = Some hash ->
     exists blob,
       GetBlobMatchingHash (Some hash) (world ag) = (Ok (Some blob), world ag)).
Proof.
  intros Hro Hr. apply (resolveBlobs_loop data Hro) in Hr as [-> Hr].
  split; [done|]. rewrite Hr. split; [by intros [_ ?]|done].
Qed.

(** *** The batch of a pin *)

(** X7. [GetBatchForPin] answers from the cache when the cache has an entry
    under the key of the pin, without a look at the store. Otherwise it
    returns a batch exactly when the store has the batch of the pin, the
    hash of that batch is the batch hash of the pin, and its manifest can
    be extracted; the pair it returns is then cached under the key of the
    pin. A batch whose hash differs from the one on the chain is never
    returned from the store. *)
Theorem GetBatchForPin_cases (pin : Pin.t) (ag : aggregator) :
  let cacheKey := getBatchCacheKey (Pin.Batch pin) (Pin.BatchHash pin) in
  (forall bce w1,
     batchCacheGet cacheKey (world ag) = (Some bce, w1) ->
     GetBatchForPin pin ag
     = (Ok (Some (batchCacheEntry.batch bce, batchCacheEntry.manifest bce)),
        setWorld w1 ag)) /\
  (forall w1 batch manifest (ag' : aggregator),
     batchCacheGet cacheKey (world ag) = (None, w1) ->
     GetBatchForPin pin ag = (Ok (Some (batch, manifest)), ag') <->
     exists w2,
       GetBatchByID (Pin.Batch pin) w1 = (Ok (Some batch), w2) /\
       Equals (BatchPersisted.Hash batch) (Pin.BatchHash pin) = true /\
       extractManifest batch = Some manifest /\
       ag' = setWorld
               (batchCacheSet cacheKey (batchCacheEntry.mk batch manifest) w2) ag).
Proof.
  intros cacheKey. split.
  - intros bce w1 Hhit. unfold GetBatchForPin, bind, callT. fold cacheKey.
    by rewrite Hhit.
  - intros w1 batch manifest ag' Hmiss.
    unfold GetBatchForPin, bind, callT, call, cacheBatch, callU. fold cacheKey.
    rewrite Hmiss. simpl.
    destruct (GetBatchByID (Pin.Batch pin) w1) as [[[b|]|e|] w2] eqn:Hdb; simpl.
    2-4: split; [done|]; by intros (w & [=] & _).
    destruct (Equals (BatchPersisted.Hash b) (Pin.BatchHash pin)) eqn:Hh; simpl.
    2: { split; [done|]. intros (w & [= <- <-] & Hh' & _). congruence. }
    destruct (extractManifest b) as [m|] eqn:Hm; simpl.
    2: { split; [done|]. intros (w & [= <- <-] & _ & Hm' & _). congruence. }
    split.
    + intros [= <- <- <-]. by exists w2.
    + intros (w & [= <- <-] & _ & Hm' & ->).
      rewrite Hm in Hm'. by injection Hm' as <-.
Qed.

(** *** The events of a message, when an insert fails *)

Lemma insertMessageEvent_fails eventType msg tx corr topic (ag ag' : aggregator) e :
  insertMessageEvent eventType msg tx corr topic ag = (Err e, ag') ->
  trace ag' = trace ag /\
  exists event w w',
    Event.Topic event = topic /\
    isMessageEvent eventType msg tx corr event /\
    InsertEvent event w = (Some e, w').
Proof.
  unfold insertMessageEvent. intros Hi.
  apply bind_cases in Hi as [(id & ag1 & Hid & Hi)|[(e' & Hid & _)|[Hid _]]].
  2,3: unfold callT in Hid; by destruct (NewUUID (world ag)).
  apply bind_cases in Hi as [(now & ag2 & Hnow & Hi)|[(e' & Hnow & _)|[Hnow _]]].
  2,3: unfold callT in Hnow; by destruct (Now (world ag1)).
  pose proof (preserves_run _ _ _ _ _ (callT_trace _) Hid) as Hk1.
  pose proof (preserves_run _ _ _ _ _ (callT_trace _) Hnow) as Hk2.
  apply bind_cases in Hi as [(u & ag3 & Hins & Hi)|[(e' & Hins & [= <-])|[_ [=]]]].
  { unfold log, modify in Hi. done. }
  pose proof (preserves_run _ _ _ _ _ (callE_trace _) Hins) as Hk3.
  unfold keeps in *. split; [congruence|].
  unfold callE in Hins.
  match type of Hins with
  | context [InsertEvent ?ev ?w] =>
      exists ev, w; destruct (InsertEvent ev w) as [[err|] w'] eqn:Hdb; [|done];
      exists w'
  end.
  injection Hins as -> _. unfold isMessageEvent. by destruct corr.
Qed.


(** *** The contexts of a broadcast *)

Lemma unmaskedReady_loop msg pin topics :
  forall acc (ag ag' : aggregator) r,
  forRange
    (fun (acc : option (list Bytes32)) (topic : string) =>
       match acc with
       | None => ret None
       | Some unmaskedContexts =>
           let msgContext := sha256 topic in
           let unmaskedContexts := unmaskedContexts ++ [msgContext] in
           bind (onState (CheckUnmaskedContextReady msgContext msg topic
                            (Pin.Sequence pin)))
             (fun ready => if ready then ret (Some unmaskedContexts) else ret None)
       end)
    topics acc ag = (Ok r, ag') ->
  match r with
  | Some contexts => exists seen, acc = Some seen /\ contexts = seen ++ map sha256 topics
  | None => True
  end.
Proof.
  induction topics as [|topic topics IH]; intros acc ag ag' r.
  - intros [= <- <-]. destruct acc as [seen|]; [|done].
    exists seen. by rewrite app_nil_r.
  - rewrite forRange_cons. intros Hl.
    apply bind_Ok in Hl as (acc1 & ag1 & Hstep & Hl).
    apply IH in Hl. destruct r as [contexts|]; [|done].
    destruct Hl as (seen1 & -> & ->).
    destruct acc as [seen|]; [|done]. simpl in Hstep.
    apply bind_Ok in Hstep as (ready & ag2 & _ & Hstep).
    destruct ready; [|done]. injection Hstep as <- _.
    exists seen. split; [done|]. by rewrite <- app_assoc.
Qed.

(** X9. A broadcast whose contexts are all ready is attempted. When the
    attempt does not dispatch it, every context of the message, the hash
    of each of its topics, is recorded as blocked by the sequence of the
    pin, in the order of the topics, so that no later message of the page
    overtakes it on one of these topics; when it is dispatched, the message
    is marked dispatched and no context is blocked. A broadcast with a
    context that is not ready is left without an attempt. *)
Theorem processMessage_unmasked manifest pin msgBaseIndex msgEntry
    (ag ag2 : aggregator) msg data w :
  Pin.Masked pin = false ->
  GetMessageWithDataCached (MessageManifestEntry.ID msgEntry)
    CRORequirePublicBlobRefs (world ag)
  = (Ok (msg, data, true), w) ->
  (unmaskedReady msg pin (setWorld w ag) = (Ok None, ag2) ->
   processMessage manifest pin msgBaseIndex msgEntry ag = (Ok tt, ag2)) /\
  (forall contexts (ag3 : aggregator) newState dispatched,
     unmaskedReady msg pin (setWorld w ag) = (Ok (Some contexts), ag2) ->
     attemptMessageDispatch msg data
       (TransactionRef.ID (BatchManifest.TX manifest)) pin ag2
     = (Ok (newState, dispatched), ag3) ->
     contexts = map sha256 (MessageHeader.Topics (Message.Header msg)) /\
     exists ag' : aggregator,
       processMessage manifest pin msgBaseIndex msgEntry ag = (Ok tt, ag') /\
       world ag' = world ag3 /\ trace ag' = trace ag3 /\
       closures ag' = closures ag3 /\
       pendingConfirms (state ag') = pendingConfirms (state ag3) /\
       rest (state ag')
       = if dispatched
         then MarkMessageDispatched (BatchManifest.ID manifest) msg msgBaseIndex
                newState (rest (state ag3))
         else foldl (fun bs c => SetContextBlockedBy c (Pin.Sequence pin) bs)
                (rest (state ag3)) contexts).
Proof.
  intros Hmasked Hget.
  assert (Hstart : forall k : Message.t * list Data.t * bool -> AM unit,
            bind (call (GetMessageWithDataCached (MessageManifestEntry.ID msgEntry)
                          CRORequirePublicBlobRefs)) k ag
            = k (msg, data, true) (setWorld w ag)).
  { intros k. unfold bind, call. by rewrite Hget. }
  split.
  - intros Hready. unfold processMessage. rewrite Hmasked, Hstart. simpl.
    unfold bind at 1. unfold bind at 1. by rewrite Hready.
  - intros contexts ag3 newState dispatched Hready Hd.
    assert (Hcs : contexts = map sha256 (MessageHeader.Topics (Message.Header msg))).
    { apply unmaskedReady_loop in Hready as (seen & [= <-] & ->). done. }
    split; [done|].
    unfold processMessage. rewrite Hmasked, Hstart. simpl.
    unfold bind at 1. unfold bind at 1. rewrite Hready. simpl.
    unfold bind at 1. rewrite Hd. clear Hd Hready Hstart Hget Hcs.
    destruct dispatched; simpl.
    + unfold bind, updBS, onState. simpl. eexists. split; [reflexivity|]. done.
    + generalize contexts ag3.
      induction contexts0 as [|c cs IH]; intros ag4.
      * simpl. exists ag4. by destruct ag4 as [? ? [? ? ? ?] ? ? ? ?].
      * rewrite forRange_cons. unfold updBS at 1, onState at 1. simpl.
        match goal with
        | |- context [forRange _ cs tt ?a] => destruct (IH a) as (ag' & -> & IHp)
        end.
        exists ag'. split; [done|]. exact IHp.
Qed.

(** X10. A private message whose pin data is not usable (no group, no pin, or
    not one pin per topic) is left alone, and so is one with a context
    that is not ready. When all its contexts are ready the message is
    attempted: on a dispatch the next pin of every context is advanced, in
    the order of the topics, and the message is marked dispatched; without
    a dispatch nothing is advanced and no context is blocked. *)
Theorem processMessage_masked manifest pin msgBaseIndex msgEntry
    (ag ag2 : aggregator) msg data w :
  Pin.Masked pin = true ->
  GetMessageWithDataCached (MessageManifestEntry.ID msgEntry) CRORequirePins (world ag)
  = (Ok (msg, data, true), w) ->
  let h := Message.Header msg in
  let unusable :=
    MessageHeader.Group h = None \/ Message.Pins msg = [] \/
    length (MessageHeader.Topics h) <> length (Message.Pins msg) in
  (unusable ->
   processMessage manifest pin msgBaseIndex msgEntry ag = (Ok tt, setWorld w ag)) /\
  (~ unusable ->
   maskedReady msg pin (setWorld w ag) = (Ok None, ag2) ->
   processMessage manifest pin msgBaseIndex msgEntry ag = (Ok tt, ag2)) /\
  (forall nextPins (ag3 : aggregator) newState dispatched,
     ~ unusable ->
     maskedReady msg pin (setWorld w ag) = (Ok (Some nextPins), ag2) ->
     attemptMessageDispatch msg data
       (TransactionRef.ID (BatchManifest.TX manifest)) pin ag2
     = (Ok (newState, dispatched), ag3) ->
     exists ag' : aggregator,
       processMessage manifest pin msgBaseIndex msgEntry ag = (Ok tt, ag') /\
       trace ag' = trace ag3 /\ closures ag' = closures ag3 /\
       pendingConfirms (state ag') = pendingConfirms (state ag3) /\
       (rest (state ag'), world ag')
       = if dispatched
         then
           let advanced :=
             foldl (fun (s : BS * W) np => IncrementNextPin np s.1 s.2)
               (rest (state ag3), world ag3) nextPins in
           (MarkMessageDispatched (BatchManifest.ID manifest) msg msgBaseIndex
              newState advanced.1,
            advanced.2)
         else (rest (state ag3), world ag3)).
Proof.
  intros Hmasked Hget h unusable.
  assert (Hstart : forall k : Message.t * list Data.t * bool -> AM unit,
            bind (call (GetMessageWithDataCached (MessageManifestEntry.ID msgEntry)
                          CRORequirePins)) k ag
            = k (msg, data, true) (setWorld w ag)).
  { intros k. unfold bind, call. by rewrite Hget. }
  assert (Hguard :
            bool_decide (MessageHeader.Group h = None)
            || bool_decide (length (Message.Pins msg) = 0%nat)
            || negb (bool_decide (length (MessageHeader.Topics h)
                                  = length (Message.Pins msg)))
            = true <-> unusable).
  { unfold unusable. rewrite !orb_true_iff, negb_true_iff, !bool_decide_eq_true.
    rewrite bool_decide_eq_false. split.
    - intros [[?|Hl]|?]; [by left| |by right; right].
      right. left. by apply nil_length_inv.
    - intros [?|[Hl|?]]; [by left; left| |by right].
      left. right. by rewrite Hl. }
  split; [|split].
  - intros Hbad. apply Hguard in Hbad.
    unfold processMessage. rewrite Hmasked, Hstart. simpl.
    unfold bind at 1. fold h. by rewrite Hbad.
  - intros Hok Hready.
    assert (Hg : bool_decide (MessageHeader.Group h = None)
                 || bool_decide (length (Message.Pins msg) = 0%nat)
                 || negb (bool_decide (length (MessageHeader.Topics h)
                                       = length (Message.Pins msg)))
                 = false).
    { apply not_true_is_false. by rewrite Hguard. }
    unfold processMessage. rewrite Hmasked, Hstart. simpl.
    unfold bind at 1. fold h. rewrite Hg.
    unfold bind at 1. by rewrite Hready.
  - intros nextPins ag3 newState dispatched Hok Hready Hd.
    assert (Hg : bool_decide (MessageHeader.Group h = None)
                 || bool_decide (length (Message.Pins msg) = 0%nat)
                 || negb (bool_decide (length (MessageHeader.Topics h)
                                       = length (Message.Pins msg)))
                 = false).
    { apply not_true_is_false. by rewrite Hguard. }
    unfold processMessage. rewrite Hmasked, Hstart. simpl.
    unfold bind at 1. fold h. rewrite Hg.
    unfold bind at 1. rewrite Hready. simpl.
    unfold bind at 1. rewrite Hd. clear Hd Hready Hstart Hget Hguard Hg Hok.
    destruct dispatched; simpl.
    + revert ag3. induction nextPins as [|np nps IH]; intros ag3.
      * unfold bind, updBS, onState. simpl. eexists. split; [reflexivity|]. done.
      * unfold bind at 1. rewrite forRange_cons. unfold onState at 1. simpl.
        destruct (IncrementNextPin np (rest (state ag3)) (world ag3))
          as [bs1 w1] eqn:Hinc. simpl.
        match goal with
        | |- context [forRange _ nps tt ?a] =>
            destruct (IH a) as (ag' & Hp & IHp)
        end.
        unfold bind at 1 in Hp.
        exists ag'. split; [exact Hp|]. exact IHp.
    + exists ag3. by destruct ag3 as [? ? [? ? ? ?] ? ? ? ?].
Qed.

(** *** The pins of a private message *)

Lemma maskedReady_loop msg pin (ips : list (nat * string)) :
  Forall (fun ip => (ip.1 < length (MessageHeader.Topics (Message.Header msg)))%nat)
    ips ->
  forall acc (ag ag' : aggregator),
  forRange
    (fun (acc : option (list NP)) (ip : nat * string) =>
       match acc with
       | None => ret None
       | Some nextPins =>
           let '(i, pinStr) := ip in
           let pinSplit := Split pinStr in
           let nonceStr :=
             match pinSplit with
             | _ :: n :: _ => n
             | _ => ""
             end in
           match ParseBytes32 (hd "" pinSplit) with
           | None => ret None
           | Some msgContext =>
               match MessageHeader.Topics (Message.Header msg) !! i with
               | None => panic
               | Some topic =>
                   bind (onState (CheckMaskedContextReady msg topic (Pin.Sequence pin)
                                    msgContext nonceStr))
                     (fun nextPin =>
                        match nextPin with
                        | None => ret None
                        | Some np => ret (Some (nextPins ++ [np]))
                        end)
               end
           end
       end)
    ips acc ag = (Panic, ag') ->
  exists topic msgContext nonceStr bs w bs' w',
    topic ∈ MessageHeader.Topics (Message.Header msg) /\
    CheckMaskedContextReady msg topic (Pin.Sequence pin) msgContext nonceStr bs w
    = (Panic, bs', w').
Proof.
  induction 1 as [|[i pinStr] ips Hi _ IH]; intros acc ag ag'; [done|].
  rewrite forRange_cons.
  match goal with
  | |- match ?step with _ => _ end = _ -> _ =>
      destruct step as [[acc1|e|] ag1] eqn:Hstep; [by apply IH|done|]
  end.
  intros [= <-]. clear IH.
  destruct acc as [nextPins|]; [|done].
  cbv zeta in Hstep.
  destruct (ParseBytes32 (hd "" (Split pinStr))) as [msgContext|]; [|done].
  simpl in Hi. apply lookup_lt_is_Some in Hi as [topic Htopic].
  rewrite Htopic in Hstep.
  apply bind_cases in Hstep as [(np & ag2 & _ & Hstep)|[(e & _ & [=])|[Hstep _]]].
  { by destruct np. }
  unfold onState in Hstep.
  match type of Hstep with
  | context [CheckMaskedContextReady ?m ?t ?s ?c ?n ?bs ?w] =>
      destruct (CheckMaskedContextReady m t s c n bs w) as [[r bs'] w'] eqn:Hc;
      exists t, c, n, bs, w, bs', w'
  end.
  injection Hstep as -> _. split; [|done].
  by eapply list_elem_of_lookup_2.
Qed.

(** X11. The loop over the pins of a private message reads the topic of the
    same index. When the message has no more pins than topics, which
    [processMessage] checks before it enters the loop, that index is in
    range: the loop does not panic unless the readiness check of the batch
    state does. *)
Theorem maskedReady_in_range msg pin :
  (length (Message.Pins msg) <= length (MessageHeader.Topics (Message.Header msg)))%nat ->
  (forall topic msgContext nonceStr bs w,
     (CheckMaskedContextReady msg topic (Pin.Sequence pin) msgContext nonceStr bs w).1.1
     <> Panic) ->
  forall ag : aggregator, (maskedReady msg pin ag).1 <> Panic.
Proof.
  intros Hlen Hsafe ag.
  destruct (maskedReady msg pin ag) as [r ag'] eqn:Hm. simpl. intros ->.
  revert Hm. unfold maskedReady. intros Hm.
  apply maskedReady_loop in Hm
    as (topic & msgContext & nonceStr & bs & w & bs' & w' & _ & Hc).
  - apply (Hsafe topic msgContext nonceStr bs w). by rewrite Hc.
  - apply Forall_lookup. intros k [i pinStr] Hk.
    rewrite list_lookup_imap in Hk.
    destruct (Message.Pins msg !! k) as [p|] eqn:Hp; [|done].
    injection Hk as <- _. simpl.
    apply lookup_lt_Some in Hp. lia.
Qed.

(** *** The queue of the rewind check *)

Lemma rewindAttempt_world batchIDs attempt ro (ag ag1 : aggregator) r :
  rewindAttempt batchIDs attempt ro ag = (r, ag1) ->
  ag1 = setWorld (world ag1) ag /\
  (batchIDs = [] -> r = Ok (false, None, ro) /\ world ag1 = world ag).
Proof.
  unfold rewindAttempt. case_bool_decide as Hlen.
  - destruct (GetPins _ _) as [[[|p ps]|e|] w]; intros [= <- <-];
      (split; [done|]); intros ->; simpl in Hlen; lia.
  - intros [= <- <-]. split; [by destruct ag|done].
Qed.

Lemma retryDo_rewind_world batchIDs fuel :
  forall attempt ro (ag ag' : aggregator) r,
  retryDo fuel attempt (rewindAttempt batchIDs) ro ag = Some (r, ag') ->
  ag' = setWorld (world ag') ag /\
  (batchIDs = [] -> r = Ok (None, ro) /\ world ag' = world ag).
Proof.
  induction fuel as [|fuel IH]; intros attempt ro ag ag' r; [done|].
  rewrite retryDo_S.
  destruct (rewindAttempt batchIDs (S attempt) ro ag) as [r1 ag1] eqn:Hstep.
  apply rewindAttempt_world in Hstep as [Hag1 Hempty].
  destruct r1 as [[[retry err] ro']|e|].
  - destruct (negb retry || bool_decide (err = None)) eqn:Hstop.
    + intros [= <- <-]. split; [done|]. intros Hnil.
      destruct (Hempty Hnil) as [[= -> -> ->] Hw]. done.
    + destruct (ctxDone (world ag1)).
      * intros [= <- <-]. split; [done|]. intros Hnil.
        destruct (Hempty Hnil) as [[= -> -> ->] Hw]. done.
      * intros Hrec. apply IH in Hrec as [Hag' Hrec]. split.
        { rewrite Hag'. rewrite Hag1. done. }
        intros Hnil. destruct (Hempty Hnil) as [[= -> -> ->] Hw]. done.
  - intros [= <- <-]. split; [done|]. intros Hnil. by destruct (Hempty Hnil).
  - intros [= <- <-]. split; [done|]. intros Hnil. by destruct (Hempty Hnil).
Qed.

(** X12. When the rewind check returns, the queue it read is empty and it has
    changed nothing else of the aggregator but the store. With nothing
    queued it does not ask the store at all: it signals no rewind and the
    store is as it was. *)
Theorem rewindOffchainBatches_drains fuel (ag ag' : aggregator) r :
  rewindOffchainBatches fuel ag = Some (r, ag') ->
  ag' = setWorld (world ag') (setQueuedRewinds [] ag) /\
  (queuedRewinds ag = [] -> r = Ok (false, 0) /\ world ag' = world ag).
Proof.
  unfold rewindOffchainBatches.
  destruct (retryDo _ _ _ _ _) as [[r1 ag1]|] eqn:Hretry; [|done].
  apply retryDo_rewind_world in Hretry as [Hag1 Hempty].
  destruct r1 as [[err ro]|e|]; intros [= <- <-]; (split; [done|]);
    intros Hnil; destruct (Hempty Hnil) as [Hr Hw]; [|done..].
  by injection Hr as -> ->.
Qed.

(** *** The hop between the two rewind channels *)

(** X13. After [n] turns of the listener, the first [n] batch ids sent on
    [rewindBatches] have moved to the end of [queuedRewinds], in the order
    in which they were sent: no id is lost, repeated or reordered on the
    way to the rewind check. *)
Theorem batchRewindListener_hops (n : nat) (ag : aggregator) :
  let ag' := Nat.iter n (fun a : aggregator => (batchRewindListener a).2) ag in
  queuedRewinds ag' = queuedRewinds ag ++ take n (rewindBatches ag) /\
  rewindBatches ag' = drop n (rewindBatches ag).
Proof.
  induction n as [|n [IHq IHr]]; simpl.
  - by rewrite app_nil_r.
  - set (agn := Nat.iter n _ ag) in *.
    unfold batchRewindListener, modify. simpl.
    destruct (rewindBatches agn) as [|uuid l] eqn:Hrb; simpl.
    + rewrite IHq, Hrb. symmetry in IHr. apply drop_nil_inv in IHr.
      rewrite !take_ge, !drop_ge by lia. done.
    + rewrite IHq.
      assert (Hn : rewindBatches ag !! n = Some uuid).
      { rewrite <- (Nat.add_0_r n), <- lookup_drop, <- IHr. done. }
      rewrite (take_S_r _ _ _ Hn), app_assoc. split; [done|].
      rewrite (drop_S _ _ _ Hn) in IHr. congruence.
Qed.

(** *** The batches queued on the arrival of a blob *)

Lemma call_rewindBatches {A : Type} (f : W -> result A * W) :
  preserves (keeps rewindBatches) (call f : AM A).
Proof. prim. Qed.

Lemma query_run {A : Type} (eval : W -> A) (ag ag1 : aggregator) r :
  call (query eval) ag = (r, ag1) ->
  ag1 = setWorld (dbFault (world ag)).2 ag /\
  forall a, r = Ok a -> a = eval (dbFault (world ag)).2.
Proof.
  unfold call, query. destruct (dbFault (world ag)) as [[e|] w]; simpl.
  - intros [= <- <-]. by split.
  - intros [= <- <-]. split; [done|]. by intros a [= <-].
Qed.

Lemma collectBatchIDs_lookup (messages : list Message.t) b :
  forall (acc : gmap UUID bool) v,
  fold_left
    (fun (batchIDs : gmap UUID bool) (msg : Message.t) =>
       match Message.BatchID msg with
       | Some b => <[b := true]> batchIDs
       | None => batchIDs
       end)
    messages acc !! b = Some v ->
  acc !! b = Some v \/ exists m, m ∈ messages /\ Message.BatchID m = Some b.
Proof.
  induction messages as [|m messages IH]; intros acc v; simpl; [by left|].
  intros Hl. apply IH in Hl as [Hl|(m' & Hin & Hb)].
  - destruct (Message.BatchID m) as [b'|] eqn:Hb; [|by left].
    destruct (decide (b' = b)) as [->|Hne].
    + right. exists m. split; [by left|done].
    + left. by rewrite lookup_insert_ne in Hl.
  - right. exists m'. split; [by right|done].
Qed.

Lemma queueRewinds_loop (ids : list UUID) :
  forall ag : aggregator,
  exists ag2 : aggregator,
    forRange
      (fun (_ : unit) (bid : UUID) =>
         modify (fun ag : aggregator =>
                   setRewindBatches (rewindBatches ag ++ [bid]) ag))
      ids tt ag
    = (Ok tt, ag2) /\
    rewindBatches ag2 = rewindBatches ag ++ ids.
Proof.
  induction ids as [|bid ids IH]; intros ag.
  - exists ag. by rewrite app_nil_r.
  - rewrite forRange_cons. unfold modify at 1.
    destruct (IH (setRewindBatches (rewindBatches ag ++ [bid]) ag))
      as (ag2 & -> & Hq).
    exists ag2. split; [done|]. rewrite Hq. simpl. by rewrite <- app_assoc.
Qed.

Section stable_tables.
(** A query reads the tables: it leaves them as they are. *)
Hypothesis tables_dbFault :
  forall w, dataTable (dbFault w).2 = dataTable w /\
            messagesTable (dbFault w).2 = messagesTable w.

Lemma blobMessages_loop (data : list DataRef.t) :
  forall acc (ag1 ag2 : aggregator) r,
  forRange
    (fun (messages : list Message.t) (d : DataRef.t) =>
       bind (call (GetMessagesForData (DataRef.ID d) (And [Eq "confirmed" VNull])))
         (fun found => ret found))
    data acc ag1 = (r, ag2) ->
  dataTable (world ag2) = dataTable (world ag1) /\
  messagesTable (world ag2) = messagesTable (world ag1) /\
  rewindBatches ag2 = rewindBatches ag1 /\
  forall messages m,
    r = Ok messages -> m ∈ messages ->
    m ∈ acc \/
    (m ∈ messagesTable (world ag1) /\ Message.Confirmed m = None /\
     exists d ref, d ∈ data /\ ref ∈ Message.Data m /\ DataRef.ID ref = DataRef.ID d).
Proof.
  induction data as [|d data IH]; intros acc ag1 ag2 r.
  - intros [= <- <-]. repeat (split; [done|]). intros ms m [= <-]. by left.
  - rewrite forRange_cons.
    destruct (bind _ _ ag1) as [r1 ag3] eqn:Hstep.
    apply bind_cases in Hstep as [(found & ag4 & Hq & Hret)|Hfail].
    + injection Hret as <- <-.
      apply query_run in Hq as [-> Hfound]. specialize (Hfound _ eq_refl).
      destruct (tables_dbFault (world ag1)) as [Hd Hm].
      intros Hrest. apply IH in Hrest as (Hd2 & Hm2 & Hrb & Hrest). simpl in *.
      split; [congruence|]. split; [congruence|]. split; [done|].
      intros ms m Hr Hin. destruct (Hrest ms m Hr Hin) as [Hacc|(Ht & Hc & d' & ref & Hd' & Href)].
      * right. subst found. unfold evalMessagesForData in Hacc. simpl in Hacc.
        apply list_elem_of_In, filter_In in Hacc as [Hrow Hcond].
        apply list_elem_of_In in Hrow. rewrite Hm in Hrow.
        apply andb_true_iff in Hcond as [Href Hconf].
        apply existsb_exists in Href as (ref & Href & Hid).
        apply list_elem_of_In in Href. apply bool_decide_eq_true in Hid.
        split; [done|]. split.
        { rewrite andb_true_r in Hconf. apply bool_decide_eq_true in Hconf.
          unfold messageField in Hconf. simpl in Hconf.
          by destruct (Message.Confirmed m). }
        exists d, ref. split; [by left|done].
      * right. split; [congruence|]. split; [done|].
        exists d', ref. split; [by right|done].
    + assert (Hk : keeps rewindBatches ag1 ag3 /\
                   world ag3 = (dbFault (world ag1)).2 /\
                   forall a, r1 <> Ok a).
      { destruct Hfail as [(e & Hq & ->)|[Hq ->]];
          (split; [by apply (preserves_run _ _ _ _ _ (call_rewindBatches _)) in Hq|]);
          apply query_run in Hq as [-> _]; by split. }
      destruct Hk as (Hrb & Hw & Hr1).
      destruct r1 as [a|e|]; [by destruct (Hr1 a)|..]; intros [= <- <-];
        destruct (tables_dbFault (world ag1)) as [Hd Hm]; rewrite Hw;
        (repeat (split; [done|])); by intros ms m [=].
Qed.

(** X14. On the arrival of a blob, every batch id that is queued for a rewind
    is the batch of a message of the store that is not confirmed and that
    refers to a data record whose attachment has the hash of the blob; a
    batch is queued once, however many of its messages wait for the blob;
    and when a query fails nothing is queued. *)
Theorem rewindForBlobArrival_queues blobHash (ag ag' : aggregator) r :
  rewindForBlobArrival blobHash ag = (r, ag') ->
  exists batchIDs,
    rewindBatches ag' = rewindBatches ag ++ batchIDs /\
    NoDup batchIDs /\
    (r <> Ok tt -> batchIDs = []) /\
    forall b, b ∈ batchIDs ->
      exists m ref d blobRef,
        m ∈ messagesTable (world ag) /\
        Message.Confirmed m = None /\
        Message.BatchID m = Some b /\
        ref ∈ Message.Data m /\ DataRef.ID ref = Data.ID d /\
        d ∈ dataTable (world ag) /\
        Data.Blob d = Some blobRef /\ BlobRef.Hash blobRef = Some blobHash.
Proof.
  unfold rewindForBlobArrival. intros Hr.
  assert (Hnone : forall agx : aggregator,
            rewindBatches agx = rewindBatches ag -> ag' = agx -> r <> Ok tt ->
            exists batchIDs,
              rewindBatches ag' = rewindBatches ag ++ batchIDs /\
              NoDup batchIDs /\
              (r <> Ok tt -> batchIDs = []) /\
              forall b, b ∈ batchIDs ->
                exists m ref d blobRef,
                  m ∈ messagesTable (world ag) /\
                  Message.Confirmed m = None /\
                  Message.BatchID m = Some b /\
                  ref ∈ Message.Data m /\ DataRef.ID ref = Data.ID d /\
                  d ∈ dataTable (world ag) /\
                  Data.Blob d = Some blobRef /\ BlobRef.Hash blobRef = Some blobHash).
  { intros agx Hrb -> _. exists []. rewrite app_nil_r.
    split; [done|]. split; [constructor|]. split; [done|].
    intros b Hb. by apply elem_of_nil in Hb. }
  destruct (tables_dbFault (world ag)) as [Hd0 Hm0].
  apply bind_cases in Hr as [(data & ag1 & Hq & Hr)|Hfail].
  2: { destruct Hfail as [(e & Hq & ->)|[Hq ->]];
       (eapply Hnone; [|done|done]);
       by apply (preserves_run _ _ _ _ _ (call_rewindBatches _)) in Hq. }
  apply query_run in Hq as [-> Hdata]. specialize (Hdata _ eq_refl).
  apply bind_cases in Hr as [(messages & ag2 & Hloop & Hr)|Hfail].
  2: { destruct Hfail as [(e & Hloop & ->)|[Hloop ->]];
       apply blobMessages_loop in Hloop as (_ & _ & Hrb & _);
       (eapply Hnone; [|done|done]); done. }
  apply blobMessages_loop in Hloop as (Hd2 & Hm2 & Hrb & Hmsgs). simpl in *.
  destruct (queueRewinds_loop (map fst (map_to_list (collectBatchIDs messages))) ag2)
    as (ag3 & Hq & Hrb3).
  rewrite Hq in Hr. injection Hr as <- <-.
  exists (map fst (map_to_list (collectBatchIDs messages))).
  split; [by rewrite Hrb3, Hrb|]. split; [apply NoDup_fst_map_to_list|].
  split; [done|].
  intros b Hb. apply list_elem_of_fmap in Hb as ([b' v] & -> & Hb). simpl.
  apply elem_of_map_to_list in Hb. unfold collectBatchIDs in Hb.
  apply collectBatchIDs_lookup in Hb as [Hb|(m & Hin & Hbatch)]; [done|].
  destruct (Hmsgs messages m eq_refl Hin) as [Hnil|(Ht & Hc & ref & mref & Href & Hmref & Hid)];
    [by apply elem_of_nil in Hnil|].
  subst data. unfold evalDataRefs in Href. simpl in Href.
  apply list_elem_of_fmap in Href as (d & -> & Hd).
  apply list_elem_of_In, filter_In in Hd as [Hrow Hcond].
  apply list_elem_of_In in Hrow. rewrite Hd0 in Hrow.
  apply bool_decide_eq_true in Hcond. unfold dataField in Hcond. simpl in Hcond.
  destruct (Data.Blob d) as [blobRef|] eqn:Hblob; [|done].
  exists m, mref, d, blobRef. rewrite <- Hm0.
  repeat (split; [done|]).
  destruct (BlobRef.Hash blobRef) as [h|]; [|done]. by injection Hcond as ->.
Qed.

End stable_tables.

End aggregator_spec.

End events_spec.

(** ** The private messaging dispatcher *)

Module privatemessaging_spec.

Import database identity operations dataexchange privatemessaging.

Section privateMessaging_spec.
Context {W : Type}.
Context `{!Codec} `{!Runtime W} `{!database.Plugin W} `{!identity.Manager W}.
Context `{!operations.Manager W} `{!dataexchange.Plugin W} `{!GroupManager W}.

Abbreviation privateMessaging := (@privatemessaging.privateMessaging W).
Abbreviation PM := (@privatemessaging.PM W).

#[local] Instance pm_keeps_preorder {X : Type} (proj : privateMessaging -> X) :
  PreOrder (keeps proj).
Proof. split; [by intros ?|]. intros a b c Hab Hbc. unfold keeps in *. congruence. Qed.

Lemma pm_call_trace {A : Type} (f : W -> result A * W) :
  preserves (keeps trace) (call f : PM A).
Proof. intros pm. unfold keeps, call. by destruct (f (world pm)). Qed.

Lemma pm_callE_trace (f : W -> option Error * W) :
  preserves (keeps trace) (callE f : PM unit).
Proof. intros pm. unfold keeps, callE. by destruct (f (world pm)) as [[?|] ?]. Qed.

Lemma pm_callT_trace {A : Type} (f : W -> A * W) :
  preserves (keeps trace) (callT f : PM A).
Proof. intros pm. unfold keeps, callT. by destruct (f (world pm)). Qed.

Lemma newOperation_new ns tx opType (pm pm' : privateMessaging) op :
  newOperation ns tx opType pm = (Ok op, pm') ->
  trace pm' = trace pm /\
  Operation.Type_ op = opType /\ Operation.Namespace op = ns /\
  Operation.Transaction op = tx.
Proof.
  unfold newOperation. intros Hn.
  apply bind_Ok in Hn as (id & pm1 & Hid & Hn).
  apply bind_Ok in Hn as (now & pm2 & Hnow & Hn).
  injection Hn as <- <-.
  pose proof (preserves_run _ _ _ _ _ (pm_callT_trace _) Hid) as Hk1.
  pose proof (preserves_run _ _ _ _ _ (pm_callT_trace _) Hnow) as Hk2.
  unfold keeps in *. split; [congruence|done].
Qed.

Lemma addOrReuseOperation_log op (pm pm' : privateMessaging) :
  addOrReuseOperation op pm = (Ok tt, pm') ->
  trace pm' = trace pm ++ [CallAddOrReuseOperation op].
Proof.
  unfold addOrReuseOperation. intros Ha.
  apply bind_Ok in Ha as (u & pm1 & Hlog & Ha). injection Hlog as _ <-.
  by rewrite (preserves_run _ _ _ _ _ (pm_callE_trace _) Ha).
Qed.

Lemma operationsRunOperation_blob op node blob (pm pm' : privateMessaging) :
  Operation.Type_ op = OpTypeDataExchangeSendBlob ->
  operationsRunOperation (opSendBlob op node blob) pm = (Ok tt, pm') ->
  trace pm'
  = trace pm ++ [CallRunOperation (opSendBlob op node blob);
                 CallTransferBLOB (Operation.ID op) (peerID node)
                   (Blob.PayloadRef blob)].
Proof.
  intros Ht. unfold operationsRunOperation. intros Hr.
  apply bind_Ok in Hr as (u & pm1 & Hlog & Hr). injection Hlog as _ <-.
  simpl in Hr. rewrite Ht in Hr. simpl in Hr.
  unfold RunOperation in Hr. simpl in Hr.
  unfold bind, log, modify, callE in Hr. simpl in Hr.
  destruct (TransferBLOB _ _ _ _) as [[e|] w]; simpl in Hr; [done|].
  injection Hr as <-. simpl. by rewrite <- app_assoc.
Qed.

Lemma operationsRunOperation_batch op node tw (pm pm' : privateMessaging) :
  Operation.Type_ op = OpTypeDataExchangeSendBatch ->
  operationsRunOperation (opSendBatch op node tw) pm = (Ok tt, pm') ->
  exists payload,
    MarshalTransportWrapper tw = Ok payload /\
    trace pm'
    = trace pm ++ [CallRunOperation (opSendBatch op node tw);
                   CallSendMessage (Operation.ID op) (peerID node) payload].
Proof.
  intros Ht. unfold operationsRunOperation. intros Hr.
  apply bind_Ok in Hr as (u & pm1 & Hlog & Hr). injection Hlog as _ <-.
  simpl in Hr. rewrite Ht in Hr. simpl in Hr.
  unfold RunOperation in Hr. simpl in Hr.
  destruct (MarshalTransportWrapper tw) as [payload|e|]; [|done..].
  exists payload. split; [done|].
  unfold bind, log, modify, callE in Hr. simpl in Hr.
  destruct (SendMessage _ _ _ _) as [[e|] w]; simpl in Hr; [done|].
  injection Hr as <-. simpl. by rewrite <- app_assoc.
Qed.

Lemma transferBlobs_calls txid node data :
  forall (pm pm' : privateMessaging),
  transferBlobs data txid node pm = (Ok tt, pm') ->
  exists blobs,
    Forall2 (blobCalls txid node) data blobs /\
    trace pm' = trace pm ++ concat blobs.
Proof.
  unfold transferBlobs.
  induction data as [|d data IH]; intros pm pm'.
  - intros [= <-]. exists []. by rewrite app_nil_r.
  - rewrite forRange_cons.
    match goal with
    | |- (let (_, _) := ?step in _) = _ -> _ =>
        destruct step as [[[]|e|] pm1] eqn:Hstep; [|done..]
    end.
    intros Hrest. apply IH in Hrest as (blobs & Hall & Ht).
    assert (Hd : exists calls, blobCalls txid node d calls /\
                               trace pm1 = trace pm ++ calls).
    { unfold blobCalls. destruct (Data.Blob d) as [b|].
      - destruct (BlobRef.Hash b) as [hash|]; [|done].
        apply bind_Ok in Hstep as (blob & pm2 & Hblob & Hstep).
        pose proof (preserves_run _ _ _ _ _ (pm_call_trace _) Hblob) as Hk.
        destruct blob as [blob|]; [|done].
        apply bind_Ok in Hstep as (op & pm3 & Hop & Hstep).
        apply newOperation_new in Hop as (Ht3 & Htype & Hns & Htx).
        apply bind_Ok in Hstep as (u & pm4 & Hadd & Hrun). destruct u.
        apply addOrReuseOperation_log in Hadd.
        apply operationsRunOperation_blob in Hrun; [|done].
        eexists. split.
        + exists hash, blob,
            (addTransferBlobInputs op (Identity.ID node) (Blob.Hash blob)).
          split; [done|]. split.
          { unfold call in Hblob.
            destruct (GetBlobMatchingHash (Some hash) (world pm)) as [rb wb] eqn:Hget.
            injection Hblob as -> _. by exists (world pm), wb. }
          repeat (split; [done|]). reflexivity.
        + unfold keeps in Hk. rewrite Hrun, Hadd, Ht3, Hk.
          by rewrite <- app_assoc.
      - injection Hstep as <-. exists []. by rewrite app_nil_r. }
    destruct Hd as (calls & Hcalls & Ht1).
    exists (calls :: blobs). split; [by constructor|].
    simpl. by rewrite Ht, Ht1, <- app_assoc.
Qed.

Lemma sendToNode_calls tw localOrg node (pm pm' : privateMessaging) :
  sendToNode tw localOrg node pm = (Ok tt, pm') ->
  exists calls, nodeCalls tw localOrg node calls /\ trace pm' = trace pm ++ calls.
Proof.
  unfold sendToNode, nodeCalls.
  destruct (Equals (Identity.Parent node) (Identity.ID localOrg)).
  - intros [= <-]. exists []. by rewrite app_nil_r.
  - intros Hs.
    apply bind_Ok in Hs as (u & pm1 & Hblobs & Hs).
    destruct u. apply transferBlobs_calls in Hblobs as (blobs & Hall & Ht1).
    apply bind_Ok in Hs as (op & pm2 & Hop & Hs).
    apply newOperation_new in Hop as (Ht2 & Htype & Hns & Htx).
    apply bind_Ok in Hs as (u & pm3 & Hadd & Hrun). destruct u.
    apply addOrReuseOperation_log in Hadd.
    apply operationsRunOperation_batch in Hrun as (payload & Hm & Hrun); [|done].
    eexists. split.
    + exists blobs. eexists. split; [done|]. split; [|reflexivity].
      eexists (addBatchSendInputs op _ _ _), payload.
      repeat (split; [done|]). reflexivity.
    + rewrite Hrun, Hadd, Ht2, Ht1. by rewrite <- !app_assoc.
Qed.

(** *** What a dispatch does *)

Lemma addOrReuseOperation_added ns txid opType inputs op0
    (pm pm1 pm2 : privateMessaging) :
  newOperation ns txid opType pm = (Ok op0, pm1) ->
  addOrReuseOperation (inputs op0) pm1 = (Ok tt, pm2) ->
  operationAdded ns txid opType inputs (inputs op0) pm pm2.
Proof.
  intros Hnew Hadd. exists op0, pm1.
  unfold addOrReuseOperation, bind, log, modify, callE in Hadd. simpl in Hadd.
  destruct (AddOrReuseOperation (inputs op0) (world pm1)) as [[e|] w] eqn:Hcall;
    [done|].
  exists w. by injection Hadd as <-.
Qed.

Lemma operationsRunOperation_transfer op node blob (pm pm' : privateMessaging) :
  Operation.Type_ op = OpTypeDataExchangeSendBlob ->
  operationsRunOperation (opSendBlob op node blob) pm = (Ok tt, pm') ->
  exists w,
    TransferBLOB (Operation.ID op) (peerID node) (Blob.PayloadRef blob) (world pm)
    = (None, w) /\
    pm' = mkPrivateMessaging w
            (trace pm ++ [CallRunOperation (opSendBlob op node blob);
                          CallTransferBLOB (Operation.ID op) (peerID node)
                            (Blob.PayloadRef blob)]).
Proof.
  intros Ht. unfold operationsRunOperation. intros Hr.
  apply bind_Ok in Hr as (u & pm1 & Hlog & Hr). injection Hlog as _ <-.
  simpl in Hr. rewrite Ht in Hr. simpl in Hr.
  unfold RunOperation in Hr. simpl in Hr.
  unfold bind, log, modify, callE in Hr. simpl in Hr.
  destruct (TransferBLOB _ _ _ _) as [[e|] w]; simpl in Hr; [done|].
  injection Hr as <-. exists w. split; [done|]. simpl. by rewrite <- app_assoc.
Qed.

Lemma operationsRunOperation_send op node tw (pm pm' : privateMessaging) :
  Operation.Type_ op = OpTypeDataExchangeSendBatch ->
  operationsRunOperation (opSendBatch op node tw) pm = (Ok tt, pm') ->
  exists payload w,
    MarshalTransportWrapper tw = Ok payload /\
    SendMessage (Operation.ID op) (peerID node) payload (world pm) = (None, w) /\
    pm' = mkPrivateMessaging w
            (trace pm ++ [CallRunOperation (opSendBatch op node tw);
                          CallSendMessage (Operation.ID op) (peerID node) payload]).
Proof.
  intros Ht. unfold operationsRunOperation. intros Hr.
  apply bind_Ok in Hr as (u & pm1 & Hlog & Hr). injection Hlog as _ <-.
  simpl in Hr. rewrite Ht in Hr. simpl in Hr.
  unfold RunOperation in Hr. simpl in Hr.
  destruct (MarshalTransportWrapper tw) as [payload|e|]; [|done..].
  exists payload.
  unfold bind, log, modify, callE in Hr. simpl in Hr.
  destruct (SendMessage _ _ _ _) as [[e|] w]; simpl in Hr; [done|].
  injection Hr as <-. exists w. split; [done|]. split; [done|].
  simpl. by rewrite <- app_assoc.
Qed.

Lemma transferBlobs_chain txid node data :
  forall (pm pm' : privateMessaging),
  transferBlobs data txid node pm = (Ok tt, pm') ->
  chain (blobTransferred txid node) data pm pm'.
Proof.
  unfold transferBlobs.
  induction data as [|d data IH]; intros pm pm'.
  - by intros [= <-].
  - rewrite forRange_cons.
    match goal with
    | |- (let (_, _) := ?step in _) = _ -> _ =>
        destruct step as [[[]|e|] pm1] eqn:Hstep; [|done..]
    end.
    intros Hrest. apply IH in Hrest. exists pm1. split; [|done].
    clear IH Hrest. unfold blobTransferred.
    destruct (Data.Blob d) as [b|]; [|by injection Hstep as <-].
    destruct (BlobRef.Hash b) as [hash|]; [|done].
    apply bind_Ok in Hstep as (blob & pm2 & Hblob & Hstep).
    unfold call in Hblob.
    destruct (GetBlobMatchingHash (Some hash) (world pm)) as [rb w1] eqn:Hget.
    injection Hblob as -> <-.
    destruct blob as [blob|]; [|done].
    apply bind_Ok in Hstep as (op0 & pm3 & Hop & Hstep).
    apply bind_Ok in Hstep as (u & pm4 & Hadd & Hrun). destruct u.
    pose proof (newOperation_new _ _ _ _ _ _ Hop) as (_ & Htype & _).
    apply operationsRunOperation_transfer in Hrun as (w3 & Hcall & ->); [|done].
    exists hash, blob, w1,
      (addTransferBlobInputs op0 (Identity.ID node) (Blob.Hash blob)), pm4, w3.
    split; [done|]. split; [done|]. split; [|done].
    exact (addOrReuseOperation_added _ _ _
             (fun op => addTransferBlobInputs op (Identity.ID node) (Blob.Hash blob))
             _ _ _ _ Hop Hadd).
Qed.

Lemma sendToNode_sent tw localOrg node (pm pm' : privateMessaging) :
  sendToNode tw localOrg node pm = (Ok tt, pm') ->
  nodeSent tw localOrg node pm pm'.
Proof.
  unfold sendToNode, nodeSent.
  destruct (Equals (Identity.Parent node) (Identity.ID localOrg));
    [by intros [= <-]|].
  intros Hs.
  apply bind_Ok in Hs as (u & pm1 & Hblobs & Hs). destruct u.
  apply transferBlobs_chain in Hblobs.
  apply bind_Ok in Hs as (op0 & pm2 & Hop & Hs).
  apply bind_Ok in Hs as (u & pm3 & Hadd & Hrun). destruct u.
  pose proof (newOperation_new _ _ _ _ _ _ Hop) as (_ & Htype & _).
  apply operationsRunOperation_send in Hrun as (payload & w & Hm & Hcall & ->);
    [|done].
  exists pm1. split; [done|].
  eexists _, pm3, payload, w. split; [|done].
  exact (addOrReuseOperation_added _ _ _
           (fun op => addBatchSendInputs op (Identity.ID node) _ _)
           _ _ _ _ Hop Hadd).
Qed.

Lemma sendData_chain tw localOrg nodes :
  forall pma pmb : privateMessaging,
  forRange (fun (_ : unit) node => sendToNode tw localOrg node) nodes tt pma
  = (Ok tt, pmb) ->
  chain (nodeSent tw localOrg) nodes pma pmb.
Proof.
  induction nodes as [|node nodes IH]; intros pma pmb.
  - by intros [= <-].
  - rewrite forRange_cons.
    destruct (sendToNode tw localOrg node pma) as [[[]|e|] pm1] eqn:Hnode;
      [|done..].
    apply sendToNode_sent in Hnode. intros Hrest. apply IH in Hrest.
    by exists pm1.
Qed.


End privateMessaging_spec.

End privatemessaging_spec.

(** ** The operation handler and the batch dispatchers *)

Module privatemessaging_handlers_spec.

Import database identity operations dataexchange privatemessaging.
Import privatemessaging_handlers privatemessaging_spec.

Section handlers_spec.
Context {W : Type}.
Context `{!Codec} `{!parse.Text} `{!Runtime W} `{!database.Plugin W}.
Context `{!identity.Manager W} `{!operations.Manager W} `{!dataexchange.Plugin W}.
Context `{!GroupManager W} `{!Store W} `{!Submitter W}.

Abbreviation privateMessaging := (@privatemessaging.privateMessaging W).
Abbreviation PM := (@privatemessaging.PM W).

Lemma pm_call_Ok {A : Type} (f : W -> result A * W) (pm pm' : privateMessaging) a :
  call f pm = (Ok a, pm') ->
  exists w, f (world pm) = (Ok a, w) /\ pm' = setWorld w pm.
Proof.
  unfold call. destruct (f (world pm)) as [r w]. intros [= -> <-]. by exists w.
Qed.

Lemma pm_call_eq {A : Type} (f : W -> result A * W) (pm : privateMessaging) r w :
  f (world pm) = (r, w) -> call f pm = (r, setWorld w pm).
Proof. unfold call. by intros ->. Qed.

(** *** Preparing an operation again *)

(** X15. [PrepareOperation] rebuilds, from the blob transfer operation that
    [transferBlobs] recorded for a node and a blob, the prepared operation
    that [transferBlobs] ran, when the texts of the two inputs parse back
    and the store still has the node and the blob: the inputs are read
    under the names under which they were written. *)
Theorem PrepareOperation_sendBlob op node blob nodeID blobHash
    (pm : privateMessaging) w1 w2 :
  Operation.Type_ op = OpTypeDataExchangeSendBlob ->
  Identity.ID node = Some nodeID ->
  Blob.Hash blob = Some blobHash ->
  parse.ParseUUID (UUIDString (Some nodeID)) = Ok nodeID ->
  parse.ParseBytes32 (Bytes32String (Some blobHash)) = Ok blobHash ->
  GetIdentityByID (Some nodeID) (world pm) = (Ok (Some node), w1) ->
  GetBlobMatchingHash (Some blobHash) w1 = (Ok (Some blob), w2) ->
  let recorded := addTransferBlobInputs op (Identity.ID node) (Blob.Hash blob) in
  PrepareOperation recorded pm
  = (Ok (opSendBlob recorded node blob), setWorld w2 pm).
Proof.
  intros Htype Hid Hhash Hpu Hpb Hnode Hblob recorded.
  unfold PrepareOperation. subst recorded. simpl. rewrite Htype, Hid, Hhash.
  unfold retrieveSendBlobInputs, pure, bind at 1 2 3. simpl.
  rewrite Hpu, Hpb. simpl.
  unfold bind at 1. rewrite (pm_call_eq _ _ _ _ Hnode).
  unfold bind. by rewrite (pm_call_eq _ (setWorld w1 pm) _ _ Hblob).
Qed.

(** X16. From the batch send operation that [sendData] recorded with the hash
    of a group, [PrepareOperation] rebuilds a prepared operation for the
    same node, whose transport carries the group of that hash and the
    hydrated batch of the recorded identifier. *)
Theorem PrepareOperation_sendBatch op node nodeID groupHash batchID group bp batch
    (pm : privateMessaging) w1 w2 w3 w4 :
  Operation.Type_ op = OpTypeDataExchangeSendBatch ->
  Identity.ID node = Some nodeID ->
  parse.ParseUUID (UUIDString (Some nodeID)) = Ok nodeID ->
  parse.ParseBytes32 (Bytes32String (Some groupHash)) = Ok groupHash ->
  parse.ParseUUID (UUIDString (Some batchID)) = Ok batchID ->
  GetIdentityByID (Some nodeID) (world pm) = (Ok (Some node), w1) ->
  GetGroupByHash (Some groupHash) w1 = (Ok (Some group), w2) ->
  GetBatchByID (Some batchID) w2 = (Ok (Some bp), w3) ->
  HydrateBatch bp w3 = (Ok batch, w4) ->
  let recorded :=
    addBatchSendInputs op (Identity.ID node) (Some groupHash) (Some batchID) in
  PrepareOperation recorded pm
  = (Ok (opSendBatch recorded node (TransportWrapper.mk (Some group) batch)),
     setWorld w4 pm).
Proof.
  intros Htype Hid Hpu Hpg Hpb Hnode Hgroup Hbp Hbatch recorded.
  unfold PrepareOperation. subst recorded. simpl. rewrite Htype, Hid.
  unfold retrieveBatchSendInputs, pure, bind at 1 2 3 4. simpl.
  rewrite Hpu, Hpg, Hpb. simpl.
  unfold bind at 1. rewrite (pm_call_eq _ _ _ _ Hnode).
  unfold bind at 1. rewrite (pm_call_eq _ (setWorld w1 pm) _ _ Hgroup).
  unfold bind at 1. rewrite (pm_call_eq _ (setWorld w2 (setWorld w1 pm)) _ _ Hbp).
  unfold bind.
  by rewrite (pm_call_eq _ (setWorld w3 (setWorld w2 (setWorld w1 pm))) _ _ Hbatch).
Qed.

(** X17. A batch send operation recorded without a group, which is what
    [sendData] records for a pinned batch, whose transport carries no
    group, has the text of a nil hash as its group input. When that text
    does not parse as a hash, [PrepareOperation] fails with the error of
    the parser before it asks the store for anything. *)
Theorem PrepareOperation_sendBatch_no_group op nodeID batchID e
    (pm : privateMessaging) :
  Operation.Type_ op = OpTypeDataExchangeSendBatch ->
  parse.ParseUUID (UUIDString (Some nodeID)) = Ok nodeID ->
  parse.ParseBytes32 (Bytes32String None) = Err e ->
  PrepareOperation (addBatchSendInputs op (Some nodeID) None batchID) pm
  = (Err e, pm).
Proof.
  intros Htype Hpu Hpg.
  unfold PrepareOperation. simpl. rewrite Htype.
  unfold retrieveBatchSendInputs, pure, bind. simpl.
  by rewrite Hpu, Hpg.
Qed.
(** *** What the handler accepts and returns *)

#[local] Instance pm_keeps_trace_preorder {X : Type} (proj : privateMessaging -> X) :
  PreOrder (keeps proj).
Proof. split; [by intros ?|]. intros a b c Hab Hbc. unfold keeps in *. congruence. Qed.

Lemma pure_trace {A : Type} (r : result A) :
  preserves (keeps trace) (pure r : PM A).
Proof. by intros pm. Qed.

Lemma PrepareOperation_trace op :
  preserves (keeps trace) (PrepareOperation op : PM _).
Proof.
  unfold PrepareOperation, retrieveSendBlobInputs, retrieveBatchSendInputs.
  destruct (Operation.Type_ op);
    repeat first
      [ apply pm_call_trace
      | apply pure_trace
      | apply preserves_ret
      | apply preserves_fail
      | apply preserves_bind; [apply pm_keeps_trace_preorder| |intros ?]
      | match goal with
        | |- preserves _ (match ?x with _ => _ end) => destruct x
        | |- preserves _ (let '(_, _) := ?x in _) => destruct x
        end ].
Qed.

(** X18. [PrepareOperation] sends nothing. It prepares the two types of
    operation of the data exchange and no other: for any other type it
    fails without a look at the store. What it returns has the identifier
    and the type of the operation and the data that [RunOperation] expects
    for that type; a prepared batch send always carries a group. *)
Theorem PrepareOperation_handled op (pm pm' : privateMessaging) r :
  PrepareOperation op pm = (r, pm') ->
  trace pm' = trace pm /\
  (handles (Operation.Type_ op) = false ->
   r = Err operationNotSupported /\ pm' = pm) /\
  (forall prepared, r = Ok prepared ->
     handles (PreparedOperation.Type_ prepared) = true /\
     PreparedOperation.ID prepared = Operation.ID op /\
     PreparedOperation.Type_ prepared = Operation.Type_ op /\
     match PreparedOperation.Data prepared with
     | transferBlobData _ _ => Operation.Type_ op = OpTypeDataExchangeSendBlob
     | batchSendData _ transport =>
         Operation.Type_ op = OpTypeDataExchangeSendBatch /\
         TransportWrapper.Group transport <> None
     | otherData => False
     end).
Proof.
  intros Hp. split.
  { exact (preserves_run _ _ _ _ _ (PrepareOperation_trace op) Hp). }
  unfold PrepareOperation in Hp.
  destruct (Operation.Type_ op) eqn:Htype; simpl.
  - injection Hp as <- <-. split; [done|]. by intros p.
  - split; [done|]. intros p ->.
    apply bind_Ok in Hp as ([[nodeID groupHash] batchID] & pm1 & _ & Hp).
    apply bind_Ok in Hp as ([node|] & pm2 & _ & Hp); [|done].
    apply bind_Ok in Hp as ([group|] & pm3 & _ & Hp); [|done].
    apply bind_Ok in Hp as ([bp|] & pm4 & _ & Hp); [|done].
    apply bind_Ok in Hp as (batch & pm5 & _ & Hp).
    injection Hp as <- _. simpl. by rewrite Htype.
  - split; [done|]. intros p ->.
    apply bind_Ok in Hp as ([nodeID blobHash] & pm1 & _ & Hp).
    apply bind_Ok in Hp as ([node|] & pm2 & _ & Hp); [|done].
    apply bind_Ok in Hp as ([blob|] & pm3 & _ & Hp); [|done].
    injection Hp as <- _. simpl. by rewrite Htype.
  - injection Hp as <- <-. split; [done|]. by intros p.
Qed.


(** *** Blobs go first *)

Lemma quiet_keeps {A : Type} (m : PM A) : preserves (keeps trace) m -> quiet m.
Proof.
  intros Hm pm r pm' Hr. exists []. rewrite app_nil_r. split; [|done].
  exact (preserves_run _ _ _ _ _ Hm Hr).
Qed.

Lemma quiet_bind {A B : Type} (m : PM A) (k : A -> PM B) :
  quiet m -> (forall a, quiet (k a)) -> quiet (bind m k).
Proof.
  intros Hm Hk pm r pm' Hr.
  apply bind_cases in Hr as [(a & pm1 & Hma & Hka)|[(e & Hma & _)|[Hma _]]].
  - apply Hm in Hma as (l1 & Ht1 & Hl1). apply Hk in Hka as (l2 & Ht2 & Hl2).
    exists (l1 ++ l2). rewrite Ht2, Ht1, app_assoc. split; [done|].
    by apply Forall_app.
  - by apply Hm in Hma.
  - by apply Hm in Hma.
Qed.

Lemma quiet_log c : notSendMessage c -> quiet (log c : PM unit).
Proof.
  intros Hc pm r pm' [= <- <-]. exists [c]. split; [done|]. by constructor.
Qed.

Lemma quiet_forRange {A X : Type} (body : A -> X -> PM A) l :
  (forall acc x, quiet (body acc x)) -> forall acc, quiet (forRange body l acc).
Proof.
  intros Hbody. induction l as [|x l IH]; intros acc.
  - intros pm r pm' [= <- <-]. exists []. by rewrite app_nil_r.
  - change (forRange body (x :: l) acc) with (bind (body acc x) (forRange body l)).
    by apply quiet_bind.
Qed.

Lemma quiet_ret {A : Type} (a : A) : quiet (ret a : PM A).
Proof. intros pm r pm' [= <- <-]. exists []. by rewrite app_nil_r. Qed.

Lemma quiet_fail {A : Type} e : quiet (fail e : PM A).
Proof. intros pm r pm' [= <- <-]. exists []. by rewrite app_nil_r. Qed.

Lemma transferBlobs_quiet data txid node :
  quiet (transferBlobs data txid node : PM unit).
Proof.
  unfold transferBlobs. apply quiet_forRange. intros [] d.
  destruct (Data.Blob d) as [b|]; [|apply quiet_ret].
  destruct (BlobRef.Hash b) as [hash|];
    [|apply quiet_fail].
  apply quiet_bind; [apply quiet_keeps, pm_call_trace|].
  intros [blob|]; [|apply quiet_fail].
  apply quiet_bind.
  { apply quiet_keeps. unfold newOperation.
    apply preserves_bind; [apply _|apply pm_callT_trace|intros id].
    apply preserves_bind; [apply _|apply pm_callT_trace|intros now].
    apply preserves_ret, _. }
  intros op. cbv zeta.
  apply quiet_bind.
  { unfold addOrReuseOperation. apply quiet_bind; [by apply quiet_log|].
    intros _. apply quiet_keeps, pm_callE_trace. }
  intros _. unfold operationsRunOperation.
  apply quiet_bind; [by apply quiet_log|]. intros _.
  destruct (handles _); [|apply quiet_fail].
  intros pm r pm'. unfold RunOperation. simpl.
  unfold bind, log, modify, callE. simpl.
  destruct (TransferBLOB _ _ _ _) as [[e|] w]; intros [= <- <-]; simpl;
    (eexists [_]; split; [done|]; by constructor).
Qed.

(** X20. The batch is handed to the data exchange for a node only after the
    blobs of all its data records have been transferred to that node: a
    send in the log of [sendToNode] means that the node is not one of the
    local organization and that [transferBlobs] returned without an error.
    When a blob is missing, or a transfer fails, the node is not sent the
    batch. *)
Theorem sendToNode_blobs_first tw localOrg node (pm pm' : privateMessaging) r
    calls opID peer payload :
  sendToNode tw localOrg node pm = (r, pm') ->
  trace pm' = trace pm ++ calls ->
  CallSendMessage opID peer payload ∈ calls ->
  Equals (Identity.Parent node) (Identity.ID localOrg) = false /\
  exists pm1 : privateMessaging,
    transferBlobs
      (BatchPayload.Data (Batch.Payload (TransportWrapper.Batch tw)))
      (TransactionRef.ID (BatchPayload.TX (Batch.Payload (TransportWrapper.Batch tw))))
      node pm
    = (Ok tt, pm1).
Proof.
  unfold sendToNode. intros Hs Ht Hin.
  assert (Hquiet : forall calls',
            trace pm' = trace pm ++ calls' -> Forall notSendMessage calls' -> False).
  { intros calls' Ht' Hall. rewrite Ht in Ht'. apply app_inv_head in Ht'.
    subst calls'. rewrite Forall_forall in Hall. by apply Hall in Hin. }
  destruct (Equals (Identity.Parent node) (Identity.ID localOrg)).
  { injection Hs as _ <-. exfalso. apply (Hquiet []); [by rewrite app_nil_r|done]. }
  split; [done|].
  apply bind_cases in Hs as [([] & pm1 & Hblobs & _)|[(e & Hblobs & _)|[Hblobs _]]].
  - by exists pm1.
  - exfalso. apply transferBlobs_quiet in Hblobs as (l & Hl & Hall).
    exact (Hquiet _ Hl Hall).
  - exfalso. apply transferBlobs_quiet in Hblobs as (l & Hl & Hall).
    exact (Hquiet _ Hl Hall).
Qed.

(** *** The dispatch of a batch *)

Lemma sendData_loop tw localOrg nodes :
  forall pma pmb : privateMessaging,
  forRange (fun (_ : unit) node => sendToNode tw localOrg node) nodes tt pma
  = (Ok tt, pmb) ->
  exists perNode,
    Forall2 (nodeCalls tw localOrg) nodes perNode /\
    trace pmb = trace pma ++ concat perNode.
Proof.
  induction nodes as [|node nodes IH]; intros pma pmb.
  - intros [= <-]. exists []. by rewrite app_nil_r.
  - rewrite forRange_cons.
    destruct (sendToNode tw localOrg node pma) as [[[]|e|] pm1] eqn:Hnode;
      [|done..].
    apply sendToNode_calls in Hnode as (calls & Hcalls & Ht1).
    intros Hrest. apply IH in Hrest as (perNode & Hall & Ht).
    exists (calls :: perNode). split; [by constructor|].
    simpl. by rewrite Ht, Ht1, <- app_assoc.
Qed.


End handlers_spec.

End privatemessaging_handlers_spec.

(** ** The small node at work *)

Module demo_spec.

Import database identity data definitions metrics operations dataexchange.
Import privatemessaging demo events_spec privatemessaging_spec.

Local Open Scope Z_scope.

Lemma findMessage_id id w m :
  findMessage id w = Some m -> MessageHeader.ID (Message.Header m) = id.
Proof.
  unfold findMessage. intros Hf. apply find_some in Hf as [_ Hid].
  by apply N.eqb_eq in Hid.
Qed.

Lemma GetMessageWithDataCached_id id cro w msg data w' :
  GetMessageWithDataCached id cro w = (Ok (msg, data, true), w') ->
  MessageHeader.ID (Message.Header msg) = id.
Proof.
  simpl. destruct (findMessage id w) as [m|] eqn:Hf; [|done].
  intros [= <- _ _]. by apply findMessage_id in Hf.
Qed.

(** The pin with index 2 of batch 101 belongs to the second entry of the
    manifest, whose range starts at 2. *)
Lemma extractBatchMessagePin_owner_witness :
  Forall (fun e => 0 <= MessageManifestEntry.Topics e)
    (BatchManifest.Messages manifest101) /\
  topicTotal (BatchManifest.Messages manifest101) < 2 ^ 63 /\
  (extractBatchMessagePin manifest101 2).1.2
  = Some (MessageManifestEntry.mk 7 (Some 500%N) 1).
Proof.
  assert (Hpos : Forall (fun e => 0 <= MessageManifestEntry.Topics e)
                   (BatchManifest.Messages manifest101)).
  { repeat constructor; simpl; lia. }
  assert (Hsum : topicTotal (BatchManifest.Messages manifest101) < 2 ^ 63).
  { simpl. lia. }
  split; [exact Hpos|]. split; [exact Hsum|].
  pose proof (extractBatchMessagePin_owner (W := World.t) (BS := unit)
                (HPre := unit) (HFin := unit) manifest101 2 Hpos Hsum) as Hthm.
  destruct (extractBatchMessagePin manifest101 2) as [[total msgEntry] base].
  destruct Hthm as (_ & Hown & _).
  destruct (Hown 1%nat (MessageManifestEntry.mk 7 (Some 500%N) 1)) as [He _].
  - reflexivity.
  - unfold baseIndex. simpl. lia.
  - exact He.
Defined.

(** The pin of [M7], signed by its key. *)
Definition pinM7 : Pin.t := pin 5 101 2 false "0xdef".

(** [M7] is private, its key signs the pin and resolves to no identity:
    it passes the check. *)
Lemma checkOnchainConsistency_private_unresolved_witness :
  keyMatchesSigner M7 pinM7 /\
  resolveSigner M7 pinM7 ag0 = (Ok None, world0) /\
  checkOnchainConsistency M7 pinM7 ag0 = (Ok true, events.setWorld world0 ag0).
Proof.
  assert (Hk : keyMatchesSigner M7 pinM7) by (by split).
  assert (Hr : resolveSigner M7 pinM7 ag0 = (Ok None, world0)) by reflexivity.
  split; [exact Hk|]. split; [exact Hr|].
  exact (proj1 (checkOnchainConsistency_private_unresolved M7 pinM7 ag0 world0 Hk Hr)
           eq_refl).
Defined.

(** C2 as stated fails on [M7]: it is dispatched, though its key resolves
    to no identity and it is no identity claim. *)
Lemma dispatch_of_unregistered_private_key :
  ~ dispatchRequiresRegisteredAuthor M7 pinM7 ag0.
Proof.
  intros Hclaim.
  destruct (Hclaim [] None MessageStateConfirmed
              (attemptMessageDispatch M7 [] None pinM7 ag0).2)
    as [_ [(resolvedAuthor & w & Hr & _)|Hic]].
  - vm_compute. reflexivity.
  - vm_compute in Hr. discriminate Hr.
  - vm_compute in Hic. discriminate Hic.
Qed.

(** The dispatch of [M7] meets the amended statement through its last
    case. *)
Lemma attemptMessageDispatch_signer_witness :
  attemptMessageDispatch M7 [] None pinM7 ag0
  = (Ok (MessageStateConfirmed, true),
     (attemptMessageDispatch M7 [] None pinM7 ag0).2) /\
  keyMatchesSigner M7 pinM7 /\
  exists r w,
    resolveSigner M7 pinM7 ag0 = (Ok r, w) /\
    match r with
    | Some resolvedAuthor =>
        MessageHeader.Author (Message.Header M7) <> "" /\
        Identity.DID resolvedAuthor = MessageHeader.Author (Message.Header M7)
    | None =>
        isIdentityClaim M7 = true \/
        MessageHeader.Type_ (Message.Header M7) = MessageTypePrivate
    end.
Proof.
  assert (Hd : attemptMessageDispatch M7 [] None pinM7 ag0
               = (Ok (MessageStateConfirmed, true),
                  (attemptMessageDispatch M7 [] None pinM7 ag0).2)).
  { vm_compute. reflexivity. }
  split; [exact Hd|].
  exact (proj1 (attemptMessageDispatch_signer M7 pinM7 ag0) _ _ _ _ Hd).
Defined.


(** A page of which every pin is skipped still commits its last sequence. *)
Lemma processPins_commits_last_sequence_witness :
  pageParked <> [] /\
  processPins pageParked ag0 = (Ok tt, (processPins pageParked ag0).2) /\
  exists p calls,
    last pageParked = Some p /\
    pollingOffset (processPins pageParked ag0).2 = Pin.Sequence p /\
    events.trace (processPins pageParked ag0).2 = calls ++ [CallCommitOffset (Pin.Sequence p)].
Proof.
  assert (Hne : pageParked <> []) by done.
  assert (Hp : processPins pageParked ag0 = (Ok tt, (processPins pageParked ag0).2)).
  { vm_compute. reflexivity. }
  split; [exact Hne|]. split; [exact Hp|].
  exact (proj2 processPins_commits_last_sequence pageParked ag0 _ Hne Hp).
Defined.

(** The page of [M6] has no pre-finalize closure: its finalize closure
    runs in the one group of the page. A page whose callback registers a
    closure of each kind succeeds in two phases. *)
Lemma processWithBatchState_phases_witness :
  let agb := (events.log CallGroupBegin (events.setWorld world0 (setState newBatchState ag0))).2 in
  let agc := (processPins pageM6 agb).2 in
  let page := processWithBatchState (processPins pageM6) ag0 in
  let agr := (registerBoth agb).2 in
  let both := processWithBatchState registerBoth ag0 in
  (beginGroup (events.world ag0) = (None, world0) /\
   processPins pageM6 agb = (Ok tt, agc) /\
   twoPhases (PreFinalize (state agc)) (Finalize (state agc)) agc page.1 page.2 /\
   exists calls : list (@events.Call unit unit),
     events.trace page.2 = events.trace agc ++ calls /\
     phased (PreFinalize (state agc)) true [] calls) /\
  (registerBoth agb = (Ok tt, agr) /\
   PreFinalize (state agr) = [tt] /\
   both.1 = Ok tt /\
   twoPhases (PreFinalize (state agr)) (Finalize (state agr)) agr both.1 both.2).
Proof.
  intros agb agc page agr both.
  assert (Hb : beginGroup (events.world ag0) = (None, world0)) by reflexivity.
  assert (Hcb : processPins pageM6 agb = (Ok tt, agc)).
  { vm_compute. reflexivity. }
  assert (Hp : processWithBatchState (processPins pageM6) ag0 = (page.1, page.2))
    by apply surjective_pairing.
  assert (Hcb2 : registerBoth agb = (Ok tt, agr)) by reflexivity.
  assert (Hp2 : processWithBatchState registerBoth ag0 = (both.1, both.2))
    by apply surjective_pairing.
  split.
  - split; [exact Hb|]. split; [exact Hcb|].
    destruct (processWithBatchState_phases (processPins pageM6) ag0 agc page.2 world0
                (Ok tt) page.1 Hb Hcb Hp) as (Hran & calls & Ht & Hph & _).
    split; [exact Hran|].
    exists calls. split; [exact Ht|exact Hph].
  - split; [exact Hcb2|]. split; [reflexivity|]. split; [reflexivity|].
    exact (proj1 (processWithBatchState_phases registerBoth ag0 agr both.2 world0
                    (Ok tt) both.1 Hb Hcb2 Hp2)).
Defined.

(** One failed query, then the answer: the oldest pin of batch 101 that is
    not dispatched has sequence 3. *)
Definition agRewind : @events.aggregator World.t unit unit unit :=
  setQueuedRewinds [101%N] (events.setWorld (World.withFaults 1 world0) ag0).

Lemma rewindOffchainBatches_earliest_witness :
  queuedRewinds agRewind <> [] /\
  failedAttempts 1 (events.world agRewind) world0 /\
  dbFault world0 = (None, world0) /\
  (1 < 2)%nat /\
  Forall (fun p => - 2 ^ 63 < Pin.Sequence p < 2 ^ 63) (pinsTable world0) /\
  exists rewind offset,
    rewindOffchainBatches 2 agRewind
    = Some (Ok (rewind, offset), events.setWorld world0 (setQueuedRewinds [] agRewind)).
Proof.
  assert (Hq : queuedRewinds agRewind <> []) by done.
  assert (Hf : failedAttempts 1 (events.world agRewind) world0).
  { exists "store unavailable", world0. by repeat split. }
  assert (Hok : dbFault world0 = (None, world0)) by reflexivity.
  assert (Hfuel : (1 < 2)%nat) by lia.
  assert (Hseq : Forall (fun p => - 2 ^ 63 < Pin.Sequence p < 2 ^ 63)
                   (pinsTable world0)).
  { repeat constructor; simpl; lia. }
  repeat (split; [assumption|]).
  destruct (rewindOffchainBatches_earliest agRewind 1 2 world0 world0
              Hq Hf Hok Hfuel Hseq) as (rewind & offset & Hr & _).
  by exists rewind, offset.
Defined.

(** The legacy batch 102 is migrated. *)
Lemma extractManifest_forms_witness :
  extractManifest batch102
  = Some (GenManifest batch102 (BatchPayload.Messages payload102)
            (BatchPayload.Data payload102)).
Proof.
  apply (proj1 (extractManifest_forms (W := World.t) (BS := unit) (HPre := unit)
                  (HFin := unit) batch102)).
  eexists. split; [reflexivity|]. right. split; [reflexivity|].
  exists payload102. split; [reflexivity|]. split; [done|]. split; reflexivity.
Defined.


(** C6, on the store of the small node: the blob 77 is referenced by the
    data records 11 and 12; the unconfirmed message [M8] of batch 103
    refers to the record 11; no message refers to the record 12. On the
    arrival of the blob nothing is queued, although the batch 103 is
    queued when the record 11 is the only one that references the blob. *)
Theorem rewindForBlobArrival_last_record_only :
  M8 ∈ messagesTable world0 /\
  Message.Confirmed M8 = None /\
  Message.BatchID M8 = Some 103%N /\
  DataRef.mk 11 None ∈ Message.Data M8 /\
  evalDataRefs (Where (Eq "blob.hash" (VBytes32 77))) (dataTable world0)
  = [DataRef.mk 11 None; DataRef.mk 12 None] /\
  rewindForBlobArrival 77 ag0 = (Ok tt, ag0) /\
  rewindBatches (rewindForBlobArrival 77 ag0).2 = [] /\
  rewindBatches
    (rewindForBlobArrival 77
       (events.setWorld
          (World.mk (World.pins world0) [blobData 11 77] (World.messages world0)
             (World.batches world0) (World.blobs world0)
             (World.identities world0) 0 1000) ag0)).2
  = [103%N].
Proof.
  split; [by repeat constructor|].
  split; [done|]. split; [done|].
  split; [by repeat constructor|].
  split; [by vm_compute|].
  split; [by vm_compute|].
  split; by vm_compute.
Qed.

End demo_spec.

(** ** More of the small node at work *)

Module demo_extra_spec.

Import database identity data definitions metrics operations dataexchange.
Import privatemessaging demo events_spec.

Local Open Scope Z_scope.

(** [M6] is dispatched and confirmed on its pin: it joins the pending
    confirmations of the page. *)
Lemma attemptMessageDispatch_pendingConfirms_witness :
  attemptMessageDispatch M6 [] None demo_strict.pinM6 ag0
  = (Ok (MessageStateConfirmed, true),
     (attemptMessageDispatch M6 [] None demo_strict.pinM6 ag0).2) /\
  pendingConfirms (state (attemptMessageDispatch M6 [] None demo_strict.pinM6 ag0).2)
  = <[6%N := M6]> (pendingConfirms (state ag0)).
Proof.
  assert (Hd : attemptMessageDispatch M6 [] None demo_strict.pinM6 ag0
               = (Ok (MessageStateConfirmed, true),
                  (attemptMessageDispatch M6 [] None demo_strict.pinM6 ag0).2)).
  { vm_compute. reflexivity. }
  split; [exact Hd|].
  exact (proj1 (proj2 (attemptMessageDispatch_pendingConfirms _ _ _ _ _ _ _ Hd))).
Defined.

(** A pin of [M6] signed by another key: no dispatch, the batch state is
    untouched. *)
Lemma attemptMessageDispatch_undispatched_witness :
  attemptMessageDispatch M6 [] None demo_strict.pinForged ag0
  = (Ok (MessageStateUnset, false),
     (attemptMessageDispatch M6 [] None demo_strict.pinForged ag0).2) /\
  state (attemptMessageDispatch M6 [] None demo_strict.pinForged ag0).2 = state ag0.
Proof.
  assert (Hd : attemptMessageDispatch M6 [] None demo_strict.pinForged ag0
               = (Ok (MessageStateUnset, false),
                  (attemptMessageDispatch M6 [] None demo_strict.pinForged ag0).2)).
  { vm_compute. reflexivity. }
  split; [exact Hd|].
  apply (proj2 (attemptMessageDispatch_undispatched _ _ _ _ _ _ _ Hd
                  ltac:(intros newState; discriminate))).
  discriminate.
Defined.

(** The empty page panics and commits nothing. *)
Lemma processPins_failure_keeps_offset_witness :
  processPins [] ag0 = (Panic, ag0) /\
  pollingOffset (processPins [] ag0).2 = pollingOffset ag0.
Proof.
  assert (Hp : processPins [] ag0 = (Panic, ag0)) by reflexivity.
  split; [exact Hp|].
  rewrite Hp.
  exact (processPins_failure_keeps_offset [] ag0 ag0 Panic Hp ltac:(discriminate)).
Defined.

(** The blob 77 of the data record 11 is in the store. *)
Lemma resolveBlobs_all_stored_witness :
  resolveBlobs [blobData 11 77] ag0 = (Ok true, ag0) /\
  forall d blobRef hash,
    d ∈ [blobData 11 77] -> Data.Blob d = Some blobRef ->
    BlobRef.Hash blobRef = Some hash ->
    exists blob,
      GetBlobMatchingHash (Some hash) (events.world ag0)
      = (Ok (Some blob), events.world ag0).
Proof.
  assert (Hr : resolveBlobs [blobData 11 77] ag0 = (Ok true, ag0)) by reflexivity.
  split; [exact Hr|].
  assert (Hro : forall hash (w : World.t), (GetBlobMatchingHash hash w).2 = w)
    by reflexivity.
  apply (proj2 (resolveBlobs_all_stored [blobData 11 77] ag0 ag0 true Hro Hr)).
  reflexivity.
Defined.

(** The batch 101 is read from the store for its pin. *)
Lemma GetBatchForPin_cases_witness :
  GetBatchForPin demo_strict.pinM6 ag0 = (Ok (Some (batch101, manifest101)), ag0).
Proof.
  assert (Hmiss : batchCacheGet
                    (getBatchCacheKey (Pin.Batch demo_strict.pinM6)
                       (Pin.BatchHash demo_strict.pinM6))
                    (events.world ag0)
                  = (None, world0)) by reflexivity.
  apply (proj2 (GetBatchForPin_cases demo_strict.pinM6 ag0) world0 batch101
           manifest101 ag0 Hmiss).
  exists world0. split; [reflexivity|]. split; [reflexivity|].
  split; reflexivity.
Defined.

(** [M6] on its first pin: both topics are ready, the message is
    dispatched and marked. *)
Lemma processMessage_unmasked_witness :
  exists ag' : aggregator (W := World.t) (BS := unit) (HPre := unit) (HFin := unit),
    processMessage manifest101 demo_strict.pinM6 0 (MessageManifestEntry.mk 6 (Some 500%N) 2)
      ag0
    = (Ok tt, ag').
Proof.
  assert (Hget : GetMessageWithDataCached 6%N CRORequirePublicBlobRefs (events.world ag0)
                 = (Ok (M6, [], true), world0)) by reflexivity.
  destruct (unmaskedReady M6 demo_strict.pinM6 (events.setWorld world0 ag0))
    as [r2 ag2] eqn:Hready.
  assert (Hr2 : r2 = Ok (Some (map sha256 ["t1"; "t2"]))).
  { vm_compute in Hready. by injection Hready as <- _. }
  subst r2.
  destruct (attemptMessageDispatch M6 [] (Some 301%N) demo_strict.pinM6 ag2)
    as [r3 ag3] eqn:Hd.
  assert (Hr3 : r3 = Ok (MessageStateConfirmed, true)).
  { vm_compute in Hready. injection Hready as <-.
    vm_compute in Hd. by injection Hd as <- _. }
  subst r3.
  destruct (proj2 (processMessage_unmasked manifest101 demo_strict.pinM6 0
                     (MessageManifestEntry.mk 6 (Some 500%N) 2) ag0 ag2 M6 [] world0
                     eq_refl Hget)
              _ _ _ _ Hready Hd)
    as (_ & ag' & Hp & _).
  by exists ag'.
Defined.

(** A masked pin for [M6], which has no group: the message is left
    alone. *)
Lemma processMessage_masked_witness :
  processMessage manifest101 demo_strict.pinMasked 0
    (MessageManifestEntry.mk 6 (Some 500%N) 2) ag0
  = (Ok tt, events.setWorld world0 ag0).
Proof.
  assert (Hget : GetMessageWithDataCached 6%N CRORequirePins (events.world ag0)
                 = (Ok (M6, [], true), world0)) by reflexivity.
  apply (proj1 (processMessage_masked manifest101 demo_strict.pinMasked 0
                  (MessageManifestEntry.mk 6 (Some 500%N) 2) ag0 ag0 M6 [] world0
                  eq_refl Hget)).
  by left.
Defined.

(** [M10] has one pin for its one topic; the readiness check of the small
    node does not panic. *)
Lemma maskedReady_in_range_witness :
  (maskedReady demo_strict.M10 demo_strict.pinM6 ag0).1 <> Panic.
Proof.
  apply (maskedReady_in_range demo_strict.M10 demo_strict.pinM6).
  - simpl. lia.
  - intros topic msgContext nonceStr bs w. discriminate.
Defined.

(** Nothing is queued on the small node: no rewind. *)
Lemma rewindOffchainBatches_drains_witness :
  rewindOffchainBatches 1 ag0 = Some (Ok (false, 0), ag0) /\
  ag0 = events.setWorld (events.world ag0) (setQueuedRewinds [] ag0).
Proof.
  assert (Hr : rewindOffchainBatches 1 ag0 = Some (Ok (false, 0), ag0)) by reflexivity.
  split; [exact Hr|].
  exact (proj1 (rewindOffchainBatches_drains 1 ag0 ag0 _ Hr)).
Defined.

(** With the record 11 as the only one that carries the blob 77, the
    batch 103 of [M8] is queued, once. *)
Lemma rewindForBlobArrival_queues_witness :
  exists batchIDs,
    rewindBatches (rewindForBlobArrival 77 demo_strict.agOneRecord).2
    = rewindBatches demo_strict.agOneRecord ++ batchIDs /\
    NoDup batchIDs.
Proof.
  destruct (rewindForBlobArrival 77 demo_strict.agOneRecord) as [r ag'] eqn:Hr.
  assert (Hst : forall w : World.t,
            dataTable (dbFault w).2 = dataTable w /\
            messagesTable (dbFault w).2 = messagesTable w).
  { intros w. simpl. by destruct (World.faults w). }
  destruct (rewindForBlobArrival_queues Hst 77 demo_strict.agOneRecord ag' r Hr)
    as (batchIDs & Hq & Hnd & _).
  by exists batchIDs.
Defined.

End demo_extra_spec.

Module demo_strict_spec.

Import database identity data definitions metrics.
Import demo demo_strict events_spec.

Local Open Scope Z_scope.

(** [M8] has data; the strict data manager finds it invalid: the message
    is rejected, on the verdict of the validation. *)
Lemma attemptMessageDispatch_rejected_witness :
  attemptMessageDispatch M8 [blobData 11 77] None pinM6 ag0
  = (Ok (MessageStateRejected, true),
     (attemptMessageDispatch M8 [blobData 11 77] None pinM6 ag0).2) /\
  Message.Data M8 <> [] /\
  exists (ag3 : aggregator (W := World.t) (BS := unit) (HPre := unit) (HFin := unit)) w,
    state ag3 = state ag0 /\
    ValidateAll [blobData 11 77] (events.world ag3) = (Ok false, w).
Proof.
  assert (Hd : attemptMessageDispatch M8 [blobData 11 77] None pinM6 ag0
               = (Ok (MessageStateRejected, true),
                  (attemptMessageDispatch M8 [blobData 11 77] None pinM6 ag0).2)).
  { vm_compute. reflexivity. }
  split; [exact Hd|].
  destruct (attemptMessageDispatch_rejected _ _ _ _ _ _ Hd)
    as [[Hdef _]|(_ & _ & Hdata & Hv)]; [discriminate Hdef|].
  split; [exact Hdata|exact Hv].
Defined.

(** [M9] is the broadcast of a transfer; the store has the transfer with
    the hash of the message. *)
Lemma attemptMessageDispatch_transfer_witness :
  attemptMessageDispatch M9 [] None pinM6 ag0
  = (Ok (MessageStateConfirmed, true),
     (attemptMessageDispatch M9 [] None pinM6 ag0).2) /\
  exists (ag2 : aggregator (W := World.t) (BS := unit) (HPre := unit) (HFin := unit))
         t ts w,
    state ag2 = state ag0 /\
    GetTokenTransfers (And [Eq "message" (VUUID 9%N)]) (events.world ag2)
    = (Ok (t :: ts), w) /\
    Equals (Message.Hash M9) (TokenTransfer.MessageHash t) = true.
Proof.
  assert (Hd : attemptMessageDispatch M9 [] None pinM6 ag0
               = (Ok (MessageStateConfirmed, true),
                  (attemptMessageDispatch M9 [] None pinM6 ag0).2)).
  { vm_compute. reflexivity. }
  split; [exact Hd|].
  exact (attemptMessageDispatch_transfer M9 [] None pinM6 ag0 _ _ eq_refl Hd).
Defined.


End demo_strict_spec.

Module demo_handlers_spec.

Import database identity operations dataexchange.
Import privatemessaging privatemessaging_handlers.
Import demo demo_handlers privatemessaging_spec privatemessaging_handlers_spec.

(** The blob transfer recorded for [node2] and the blob 77 is prepared
    again as it was run. *)
Lemma PrepareOperation_sendBlob_witness :
  PrepareOperation
    (addTransferBlobInputs sendBlobOp (Identity.ID node2) (Blob.Hash blob77)) pm0
  = (Ok (opSendBlob
           (addTransferBlobInputs sendBlobOp (Identity.ID node2) (Blob.Hash blob77))
           node2 blob77),
     privatemessaging.setWorld world0 pm0).
Proof.
  assert (Hnode : GetIdentityByID (Some 212%N) (privatemessaging.world pm0)
                  = (Ok (Some node2), world0)) by reflexivity.
  assert (Hblob : GetBlobMatchingHash (Some 77%N) world0 = (Ok (Some blob77), world0))
    by reflexivity.
  assert (Hpu : parse.ParseUUID (UUIDString (Some 212%N)) = Ok 212%N)
    by (vm_compute; reflexivity).
  assert (Hpb : parse.ParseBytes32 (Bytes32String (Some 77%N)) = Ok 77%N)
    by (vm_compute; reflexivity).
  exact (PrepareOperation_sendBlob sendBlobOp node2 blob77 212%N 77%N pm0 world0 world0
           eq_refl eq_refl eq_refl Hpu Hpb Hnode Hblob).
Defined.

(** The batch send recorded for [node2] with the group 600 is prepared
    again with that group and the hydrated batch 101. *)
Lemma PrepareOperation_sendBatch_witness :
  PrepareOperation
    (addBatchSendInputs sendBatchOp (Identity.ID node2) (Some 600%N) (Some 101%N)) pm0
  = (Ok (opSendBatch
           (addBatchSendInputs sendBatchOp (Identity.ID node2) (Some 600%N)
              (Some 101%N))
           node2
           (TransportWrapper.mk (Some group600)
              (GenInflight batch101 [M7] [blobData 11 77]))),
     privatemessaging.setWorld world0 pm0).
Proof.
  assert (Hnode : GetIdentityByID (Some 212%N) (privatemessaging.world pm0)
                  = (Ok (Some node2), world0)) by reflexivity.
  assert (Hgroup : GetGroupByHash (Some 600%N) world0 = (Ok (Some group600), world0))
    by reflexivity.
  assert (Hbp : GetBatchByID (Some 101%N) world0 = (Ok (Some batch101), world0))
    by reflexivity.
  assert (Hbatch : HydrateBatch batch101 world0
                   = (Ok (GenInflight batch101 [M7] [blobData 11 77]), world0))
    by reflexivity.
  assert (Hpu : parse.ParseUUID (UUIDString (Some 212%N)) = Ok 212%N)
    by (vm_compute; reflexivity).
  assert (Hpg : parse.ParseBytes32 (Bytes32String (Some 600%N)) = Ok 600%N)
    by (vm_compute; reflexivity).
  assert (Hpb : parse.ParseUUID (UUIDString (Some 101%N)) = Ok 101%N)
    by (vm_compute; reflexivity).
  exact (PrepareOperation_sendBatch sendBatchOp node2 212%N 600%N 101%N group600
           batch101 _ pm0 world0 world0 world0 world0
           eq_refl eq_refl Hpu Hpg Hpb Hnode Hgroup Hbp Hbatch).
Defined.

(** The batch send recorded without a group cannot be prepared again: the
    empty text is not a hash. *)
Lemma PrepareOperation_sendBatch_no_group_witness :
  PrepareOperation (addBatchSendInputs sendBatchOp (Some 212%N) None (Some 101%N)) pm0
  = (Err "not a hash", pm0).
Proof.
  assert (Hpu : parse.ParseUUID (UUIDString (Some 212%N)) = Ok 212%N)
    by (vm_compute; reflexivity).
  assert (Hpg : parse.ParseBytes32 (Bytes32String None) = Err "not a hash")
    by reflexivity.
  exact (PrepareOperation_sendBatch_no_group sendBatchOp 212%N (Some 101%N) _ pm0
           eq_refl Hpu Hpg).
Defined.

(** The operation that pins a batch is not one of this handler. *)
Lemma PrepareOperation_handled_witness :
  PrepareOperation pinBatchOp pm0 = (Err operationNotSupported, pm0).
Proof.
  destruct (PrepareOperation pinBatchOp pm0) as [r pm'] eqn:Hp.
  destruct (PrepareOperation_handled pinBatchOp pm0 pm' r Hp) as (_ & Hno & _).
  destruct (Hno eq_refl) as [-> ->]. reflexivity.
Defined.


(** The batch is sent to [node2], after its blob. *)
Lemma sendToNode_blobs_first_witness :
  CallSendMessage 1001 "peer2" "wrapper"
    ∈ privatemessaging.trace (sendToNode wrapper org1 node2 pm0).2 /\
  exists pm1 : privateMessaging (W := World.t),
    transferBlobs [blobData 11 77] (Some 301%N) node2 pm0 = (Ok tt, pm1).
Proof.
  destruct (sendToNode wrapper org1 node2 pm0) as [r pm'] eqn:Hs.
  assert (Hin : CallSendMessage 1001 "peer2" "wrapper" ∈ privatemessaging.trace pm').
  { vm_compute in Hs. injection Hs as _ <-. simpl.
    rewrite !elem_of_cons. auto 10. }
  split; [exact Hin|].
  exact (proj2 (sendToNode_blobs_first wrapper org1 node2 pm0 pm' r
                  (privatemessaging.trace pm') 1001%N "peer2" "wrapper"
                  Hs eq_refl Hin)).
Defined.


End demo_handlers_spec.

Module demo_faulty_spec.

Import database identity data definitions metrics.
Import demo demo_faulty events_spec.

Local Open Scope Z_scope.

(** The identity manager is out of reach when the signer of [M6] is looked
    up: the attempt returns the error of the lookup. *)
Lemma attemptMessageDispatch_error_witness :
  attemptMessageDispatch M6 [] None demo_strict.pinM6 ag0
  = (Err "identity lookup failed",
     (attemptMessageDispatch M6 [] None demo_strict.pinM6 ag0).2) /\
  ((exists types ns ref (w w' : World.t),
      FindIdentityForVerifier types ns ref w = (Err "identity lookup failed", w')) \/
   (exists hash (w w' : World.t),
      GetBlobMatchingHash hash w = (Err "identity lookup failed", w')) \/
   (exists filter (w w' : World.t),
      GetTokenTransfers filter w = (Err "identity lookup failed", w')) \/
   (exists pending handlerResult registered (w w' : World.t),
      HandleDefinitionBroadcast pending M6 [] None w
      = ((handlerResult, Some "identity lookup failed"), registered, w') /\
      HandlerResult.Action handlerResult = ActionRetry) \/
   (exists (w w' : World.t), ValidateAll [] w = (Err "identity lookup failed", w'))).
Proof.
  assert (Hd : attemptMessageDispatch M6 [] None demo_strict.pinM6 ag0
               = (Err "identity lookup failed",
                  (attemptMessageDispatch M6 [] None demo_strict.pinM6 ag0).2)).
  { vm_compute. reflexivity. }
  split; [exact Hd|].
  exact (attemptMessageDispatch_error M6 [] None demo_strict.pinM6 ag0 _ _ Hd).
Defined.

End demo_faulty_spec.
